(** * Smart Airport Ride Pooling: a shallow embedding of the dispatch core

    The development follows the TypeScript sources module by module:
    - [Pricing]        algorithms/pricing.ts
    - [RouteOptimizer] algorithms/route-optimizer.ts
    - [Store]          the D1 tables the services read and write
                       (schema.sql)
    - [Concurrency]    services/concurrency.ts (the second half of the
                       listing of services/ride-pooling.ts)
    - [Matcher]        algorithms/matcher.ts
    - [RidePooling]    services/ride-pooling.ts

    Numbers.  A JavaScript [number] is modelled as an exact rational [Q]:
    the arithmetic of the sources is carried out without rounding error,
    and there is neither NaN nor an infinity.  Integer columns of the
    database are [Z].  [Math.max]/[Math.min] are [Qmax]/[Qmin], and
    [Math.round x] is [floor (x + 1/2)].  The double the source computes
    can differ from the rational of the model by the rounding error of
    the arithmetic, and next to a rounding boundary of [Math.round] by a
    unit of the last rounded digit.  The general properties of prices
    and multipliers are stated so that this difference does not matter:
    as ranges, orders, bounds with a margin of a cent, and equations
    between two readings of the same computation; the totals of a route
    are sums taken leg by leg in the order of the source.

    Geometry.  The great-circle distance and the bearing are
    trigonometric; the functions that use them take them as parameters
    ([haversineDistance], [calculateBearing]), and the general results
    hold for every choice of them.  Concrete runs use points of one
    meridian, where the haversine distance is proportional to the
    difference of latitudes. *)

From Stdlib Require Import QArith Qminmax Qround Qabs Lqa Lia ZArith Sorted.
From stdpp Require Import gmap strings list fin_maps pretty.

Open Scope Q_scope.

(** ** JavaScript number helpers *)

Definition Qltb (x y : Q) : bool := negb (Qle_bool y x).
Definition Qgtb (x y : Q) : bool := Qltb y x.

(** [Math.round]: nearest integer, ties towards +infinity. *)
Definition Math_round (x : Q) : Z := Qfloor (x + (1 # 2)).

(** The idiom [Math.round(x * 100) / 100] of the sources. *)
Definition round2 (x : Q) : Q := inject_Z (Math_round (x * 100)) / 100.

(** Truthiness of an optional number: [undefined] and [0] are falsy. *)
Definition truthy (x : option Q) : bool :=
  match x with
  | Some q => negb (Qeq_bool q 0)
  | None => false
  end.

(** ** Shared types (types/index.ts) *)

Inductive VehicleType := sedan | suv | van.
Inductive Weather := clear | rain | snow.
Inductive DemandLevel := low | normal | high | very_high.

Record Location := { lat : Q; lng : Q }.

Record SurgeZone := {
  zone_id : string;
  zone_name : string;
  center_lat : Q;
  center_lng : Q;
  radius_km : Q;
  current_surge : Q;
  demand_level : DemandLevel;
  active_requests : Q;
  available_drivers : Q
}.

Inductive PassengerStatus :=
  pending | matched | in_transit | completed | cancelled.

(** [requested_at] is an ISO-8601 string in the sources, only ever read
    through [new Date(requested_at).getTime()]; the model stores that
    number of milliseconds.  [completed_at] is never written by the
    modelled code and is left out. *)
Record Passenger := {
  id : string;
  user_id : string;
  pickup_lat : Q;
  pickup_lng : Q;
  dropoff_lat : Q;
  dropoff_lng : Q;
  luggage_count : Z;
  seats_required : Z;
  max_detour_minutes : Q;
  detour_tolerance : Q;
  status : PassengerStatus;
  pool_id : option string;
  requested_at : Z;
  matched_at : option Z;
  cancelled_at : option Z;
  cancellation_reason : option string;
  base_price : option Q;
  final_price : option Q;
  surge_multiplier : Q
}.

Inductive WaypointType := pickup | dropoff.

(** A [RoutePoint] is used as a [Location] wherever a distance is taken. *)
Record RoutePoint := {
  rp_location :> Location;
  passenger_id : string;
  wp_type : WaypointType;
  time_window : Q
}.

(** ** algorithms/pricing.ts *)

Module Pricing.

Record PricingFactors := {
  distance : Q;
  estimatedTime : Q;
  vehicleType : VehicleType;
  timeOfDay : Z;
  dayOfWeek : Z;
  weatherCondition : option Weather;
  surgeZone : option SurgeZone;
  poolSize : option Q;
  detourMinutes : option Q
}.

Record PriceBreakdown := {
  distanceCharge : Q;
  timeCharge : Q;
  baseAmount : Q;
  surgeAmount : Q;
  poolSavings : Q;
  totalAmount : Q
}.

Record PricingResult := {
  basePrice : Q;
  surgeMultiplier : Q;
  poolDiscount : Q;
  finalPrice : Q;
  breakdown : PriceBreakdown
}.

(** PRICING_CONFIG *)
Definition BASE_RATE_PER_KM (v : VehicleType) : Q :=
  match v with sedan => 2.50 | suv => 3.50 | van => 4.50 end.
Definition TIME_RATE_PER_MIN (v : VehicleType) : Q :=
  match v with sedan => 0.40 | suv => 0.55 | van => 0.70 end.
Definition MINIMUM_FARE (v : VehicleType) : Q :=
  match v with sedan => 8.00 | suv => 12.00 | van => 15.00 end.
Definition SURGE_MIN : Q := 1.0.
Definition SURGE_MAX : Q := 3.5.
Definition BASE_DEMAND_THRESHOLD : Q := 1.5.
Definition PEAK_HOUR_MULTIPLIER : Q := 1.3.
Definition WEATHER_MULTIPLIER (w : Weather) : Q :=
  match w with clear => 1.0 | rain => 1.2 | snow => 1.5 end.
Definition PER_PASSENGER : Q := 0.15.
Definition MIN_DISCOUNT : Q := 0.50.
Definition DETOUR_PENALTY : Q := 0.02.

Definition calculateBasePrice (distance time : Q) (v : VehicleType) : Q :=
  let distanceCharge := distance * BASE_RATE_PER_KM v in
  let timeCharge := time * TIME_RATE_PER_MIN v in
  let basePrice := distanceCharge + timeCharge in
  let minimumFare := MINIMUM_FARE v in
  Qmax basePrice minimumFare.

Definition isPeakHour (hour dayOfWeek : Z) : bool :=
  if ((dayOfWeek =? 0) || (dayOfWeek =? 6))%Z then false
  else if ((7 <=? hour) && (hour <? 10))%Z then true
  else if ((17 <=? hour) && (hour <? 20))%Z then true
  else false.

Definition calculateSurgeMultiplier (factors : PricingFactors) : Q :=
  let surge := 1.0 in
  let surge :=
    match surgeZone factors with
    | Some zone =>
        let demandSupplyRatio :=
          active_requests zone / Qmax (available_drivers zone) 1 in
        let surge :=
          if Qgtb demandSupplyRatio BASE_DEMAND_THRESHOLD then
            let excessDemand := demandSupplyRatio - BASE_DEMAND_THRESHOLD in
            surge + Qmin (excessDemand * 0.5) 1.5
          else surge in
        Qmax surge (current_surge zone)
    | None => surge
    end in
  let surge :=
    if isPeakHour (timeOfDay factors) (dayOfWeek factors)
    then surge * PEAK_HOUR_MULTIPLIER else surge in
  let surge :=
    match weatherCondition factors with
    | Some w => surge * WEATHER_MULTIPLIER w
    | None => surge
    end in
  let surge := Qmin surge SURGE_MAX in
  let surge := Qmax surge SURGE_MIN in
  surge.

Definition calculatePoolDiscount (poolSize detourMinutes : option Q) : Q :=
  match poolSize with
  | None => 1.0
  | Some p =>
      if negb (truthy poolSize) || Qle_bool p 1 then 1.0
      else
        let baseDiscount := PER_PASSENGER * (p - 1) in
        let detourPenalty :=
          match detourMinutes with
          | Some d =>
              if truthy detourMinutes && Qgtb d 0
              then DETOUR_PENALTY * d else 0
          | None => 0
          end in
        let netDiscount := baseDiscount - detourPenalty in
        let discountMultiplier := 1 - Qmax netDiscount 0 in
        Qmax discountMultiplier MIN_DISCOUNT
  end.

(** The locals [priceAfterSurge] and [finalPrice] of
    [calculateDynamicPrice], before the record is built. *)
Definition priceAfterSurge (factors : PricingFactors) : Q :=
  calculateBasePrice (distance factors) (estimatedTime factors)
    (vehicleType factors)
  * calculateSurgeMultiplier factors.


Definition calculateDynamicPrice (factors : PricingFactors) : PricingResult :=
  let basePrice :=
    calculateBasePrice (distance factors) (estimatedTime factors)
      (vehicleType factors) in
  let surgeMultiplier := calculateSurgeMultiplier factors in
  let poolDiscount :=
    calculatePoolDiscount (poolSize factors) (detourMinutes factors) in
  let priceAfterSurge := basePrice * surgeMultiplier in
  let finalPrice := priceAfterSurge * poolDiscount in
  let distanceCharge :=
    distance factors * BASE_RATE_PER_KM (vehicleType factors) in
  let timeCharge :=
    estimatedTime factors * TIME_RATE_PER_MIN (vehicleType factors) in
  let surgeAmount := priceAfterSurge - basePrice in
  let poolSavings := priceAfterSurge - finalPrice in
  {| basePrice := round2 basePrice;
     surgeMultiplier := round2 surgeMultiplier;
     poolDiscount := round2 poolDiscount;
     finalPrice := round2 finalPrice;
     breakdown :=
       {| distanceCharge := round2 distanceCharge;
          timeCharge := round2 timeCharge;
          baseAmount := round2 basePrice;
          surgeAmount := round2 surgeAmount;
          poolSavings := round2 poolSavings;
          totalAmount := round2 finalPrice |} |}.

Record SurgeUpdate := { newSurge : Q; demandLevel : DemandLevel }.

Definition updateSurgeZone (activeRequests availableDrivers currentSurge : Q)
  : SurgeUpdate :=
  let demandSupplyRatio := activeRequests / Qmax availableDrivers 1 in
  let '(newSurge, demandLevel) :=
    if Qltb demandSupplyRatio 0.5 then (1.0, low)
    else if Qltb demandSupplyRatio 1.5 then (1.0, normal)
    else if Qltb demandSupplyRatio 3.0
         then (1.0 + (demandSupplyRatio - 1.5) * 0.4, high)
    else (1.6 + (demandSupplyRatio - 3.0) * 0.3, very_high) in
  let ALPHA := 0.3 in
  let newSurge := ALPHA * newSurge + (1 - ALPHA) * currentSurge in
  let newSurge := Qmin newSurge SURGE_MAX in
  let newSurge := Qmax newSurge SURGE_MIN in
  {| newSurge := round2 newSurge; demandLevel := demandLevel |}.

End Pricing.

(** ** algorithms/geometry.ts

    [haversineDistance] is built from [Math.sin], [Math.cos], [Math.sqrt]
    and [Math.atan2], and [calculateBearing] from [Math.atan2], which have
    no rational counterpart: both are parameters of the development.  The
    remaining functions are the ones of the source. *)

Definition estimateTravelTime (distanceKm : Q) : Q :=
  let AVERAGE_SPEED_KMH := 30 in
  (distanceKm / AVERAGE_SPEED_KMH) * 60.

(** On a meridian the haversine formula gives [6371 * |dLat| * pi / 180],
    that is 111.1949... km per degree of latitude.  [meridianDistance]
    uses 111.19 km per degree; it stands for [haversineDistance] on the
    concrete inputs below, all of which share one longitude. *)
Definition meridianDistance (loc1 loc2 : Location) : Q :=
  111.19 * Qabs (lat loc2 - lat loc1).

(** ** algorithms/route-optimizer.ts *)

Module RouteOptimizer.

Record PassengerConstraint := {
  maxDetourMinutes : Q;
  directDistance : Q;
  directTime : Q;
  seatsRequired : Z;
  luggageCount : Z
}.

Record RouteConstraints := {
  maxSeats : Z;
  maxLuggage : Z;
  passengerConstraints : gmap string PassengerConstraint
}.

Record OptimizedRoute := {
  waypoints : list RoutePoint;
  total_distance : Q;
  total_time : Q;
  detours : gmap string Q
}.

Definition isValidNextWaypoint (waypoint : RoutePoint) (pickedUp : gset string)
  (currentSeats currentLuggage : Z) (constraints : RouteConstraints) : bool :=
  match wp_type waypoint with
  | dropoff => bool_decide (passenger_id waypoint ∈ pickedUp)
  | pickup =>
      match passengerConstraints constraints !! passenger_id waypoint with
      | None => false
      | Some constraint =>
          if (maxSeats constraints <? currentSeats + seatsRequired constraint)%Z
          then false
          else if (maxLuggage constraints
                   <? currentLuggage + luggageCount constraint)%Z
          then false
          else true
      end
  end.

(** The check both callers of [calculateDetours] run over its result:
    [false] as soon as a passenger with a constraint has a detour above
    the passenger's tolerance. *)
Definition detoursWithinTolerance (constraints : RouteConstraints)
  (detours : gmap string Q) : bool :=
  forallb
    (fun entry : string * Q =>
       match passengerConstraints constraints !! entry.1 with
       | Some constraint => negb (Qgtb entry.2 (maxDetourMinutes constraint))
       | None => true
       end)
    (map_to_list detours).

Section WithDistance.

Variable haversineDistance : Location -> Location -> Q.

(** The inner [for] loop of [greedyRouteConstruction]: [unvisited] is
    walked in insertion order, [idx] is the position of its head, and
    [best] is [(position, bestWaypoint, bestDistance)], [None] standing
    for the initial [null] and [Infinity]. *)
Fixpoint findNearestValid (currentLocation : Location) (pickedUp : gset string)
  (currentSeats currentLuggage : Z) (constraints : RouteConstraints)
  (unvisited : list RoutePoint) (idx : nat)
  (best : option (nat * RoutePoint * Q)) : option (nat * RoutePoint * Q) :=
  match unvisited with
  | [] => best
  | waypoint :: rest =>
      let continue_with :=
        findNearestValid currentLocation pickedUp currentSeats currentLuggage
          constraints rest (S idx) in
      if negb (isValidNextWaypoint waypoint pickedUp currentSeats
                 currentLuggage constraints)
      then continue_with best
      else
        let distance := haversineDistance currentLocation waypoint in
        match best with
        | None => continue_with (Some (idx, waypoint, distance))
        | Some (_, _, bestDistance) =>
            if Qltb distance bestDistance
            then continue_with (Some (idx, waypoint, distance))
            else continue_with best
        end
  end.

Record GreedyState := {
  route : list RoutePoint;
  unvisited : list RoutePoint;
  pickedUp : gset string;
  currentLocation : Location;
  currentSeats : Z;
  currentLuggage : Z;
  totalDistance : Q;
  totalTime : Q
}.

(** One iteration of the [while] loop, [None] when no valid waypoint is
    found. *)
Definition greedyStep (constraints : RouteConstraints) (st : GreedyState)
  : option GreedyState :=
  match findNearestValid (currentLocation st) (pickedUp st) (currentSeats st)
          (currentLuggage st) constraints (unvisited st) 0 None with
  | None => None
  | Some (idx, bestWaypoint, bestDistance) =>
      let constraint :=
        passengerConstraints constraints !! passenger_id bestWaypoint in
      let seats := default 0%Z (seatsRequired <$> constraint) in
      let luggage := default 0%Z (luggageCount <$> constraint) in
      Some
        {| route := route st ++ [bestWaypoint];
           unvisited := delete idx (unvisited st);
           pickedUp :=
             match wp_type bestWaypoint with
             | pickup => {[passenger_id bestWaypoint]} ∪ pickedUp st
             | dropoff => pickedUp st ∖ {[passenger_id bestWaypoint]}
             end;
           currentLocation := bestWaypoint;
           currentSeats :=
             match wp_type bestWaypoint with
             | pickup => (currentSeats st + seats)%Z
             | dropoff => (currentSeats st - seats)%Z
             end;
           currentLuggage :=
             match wp_type bestWaypoint with
             | pickup => (currentLuggage st + luggage)%Z
             | dropoff => (currentLuggage st - luggage)%Z
             end;
           totalDistance := totalDistance st + bestDistance;
           totalTime := totalTime st + estimateTravelTime bestDistance |}
  end.

(** [while (unvisited.size > 0)]: every iteration removes one waypoint,
    so [length unvisited] iterations are enough. *)
Fixpoint greedyLoop (fuel : nat) (constraints : RouteConstraints)
  (st : GreedyState) : option GreedyState :=
  match unvisited st, fuel with
  | [], _ => Some st
  | _ :: _, O => None
  | _ :: _, S fuel' =>
      match greedyStep constraints st with
      | None => None
      | Some st' => greedyLoop fuel' constraints st'
      end
  end.

Fixpoint detoursLoop (constraints : RouteConstraints)
  (prevWaypoint : option RoutePoint) (route : list RoutePoint)
  (currentTime : Q) (pickupTimes detours : gmap string Q) : gmap string Q :=
  match route with
  | [] => detours
  | waypoint :: rest =>
      let currentTime :=
        match prevWaypoint with
        | Some prev =>
            currentTime + estimateTravelTime (haversineDistance prev waypoint)
        | None => currentTime
        end in
      match wp_type waypoint with
      | pickup =>
          detoursLoop constraints (Some waypoint) rest currentTime
            (<[passenger_id waypoint := currentTime]> pickupTimes) detours
      | dropoff =>
          let pickupTime :=
            default 0 (pickupTimes !! passenger_id waypoint) in
          let actualTime := currentTime - pickupTime in
          let detours :=
            match passengerConstraints constraints !! passenger_id waypoint with
            | Some constraint =>
                <[passenger_id waypoint := actualTime - directTime constraint]>
                  detours
            | None => detours
            end in
          detoursLoop constraints (Some waypoint) rest currentTime
            pickupTimes detours
      end
  end.

Definition calculateDetours (route : list RoutePoint)
  (constraints : RouteConstraints) : gmap string Q :=
  detoursLoop constraints None route 0 ∅ ∅.

Definition greedyRouteConstruction (waypoints : list RoutePoint)
  (startLocation : Location) (constraints : RouteConstraints)
  : option OptimizedRoute :=
  let st0 :=
    {| route := []; unvisited := waypoints; pickedUp := ∅;
       currentLocation := startLocation; currentSeats := 0;
       currentLuggage := 0; totalDistance := 0; totalTime := 0 |} in
  match greedyLoop (length waypoints) constraints st0 with
  | None => None
  | Some st =>
      let detours := calculateDetours (route st) constraints in
      if detoursWithinTolerance constraints detours
      then Some {| waypoints := route st;
                   total_distance := totalDistance st;
                   total_time := totalTime st;
                   detours := detours |}
      else None
  end.

(** [newDistance]: the sum of the legs between consecutive waypoints. *)
Fixpoint pathDistance (ws : list RoutePoint) : Q :=
  match ws with
  | a :: (b :: _) as rest => haversineDistance a b + pathDistance rest
  | _ => 0
  end.

(** The candidate [slice(0, i+1) ++ reverse (slice(i+1, j+1)) ++
    slice(j+1)]. *)
Definition reverseSegment (ws : list RoutePoint) (i j : nat) : list RoutePoint :=
  take (i + 1) ws ++ reverse (take (j - i) (drop (i + 1) ws)) ++ drop (j + 1) ws.

(** The body of the two nested [for] loops of [twoOptOptimization] for
    one pair [(i, j)]: the new [bestRoute], if the candidate is adopted. *)
Definition tryReversal (constraints : RouteConstraints)
  (bestRoute : OptimizedRoute) (i j : nat) : option OptimizedRoute :=
  let newWaypoints := reverseSegment (waypoints bestRoute) i j in
  let newDistance := pathDistance newWaypoints in
  if Qltb newDistance (total_distance bestRoute) then
    let newDetours := calculateDetours newWaypoints constraints in
    if detoursWithinTolerance constraints newDetours
    then Some {| waypoints := newWaypoints;
                 total_distance := newDistance;
                 total_time := estimateTravelTime newDistance;
                 detours := newDetours |}
    else None
  else None.

Definition twoOptInner (constraints : RouteConstraints) (i : nat)
  (acc : OptimizedRoute * bool) (j : nat) : OptimizedRoute * bool :=
  match tryReversal constraints acc.1 i j with
  | Some better => (better, true)
  | None => acc
  end.

(** One run of the body of the [while] loop: all pairs [(i, j)] with
    [0 <= i < n - 1] and [i + 2 <= j < n], the candidate always cut from
    the current [bestRoute]; the flag is [improved]. *)
Definition twoOptPass (constraints : RouteConstraints)
  (bestRoute : OptimizedRoute) : OptimizedRoute * bool :=
  let n := length (waypoints bestRoute) in
  foldl
    (fun acc i =>
       foldl (twoOptInner constraints i) acc (seq (i + 2) (n - (i + 2))))
    (bestRoute, false) (seq 0 (n - 1)).

Fixpoint twoOptLoop (iterationsLeft : nat) (constraints : RouteConstraints)
  (bestRoute : OptimizedRoute) : OptimizedRoute :=
  match iterationsLeft with
  | O => bestRoute
  | S k =>
      let '(bestRoute', improved) := twoOptPass constraints bestRoute in
      if improved then twoOptLoop k constraints bestRoute' else bestRoute'
  end.

Definition MAX_ITERATIONS : nat := 100.

Definition twoOptOptimization (route : OptimizedRoute)
  (constraints : RouteConstraints) : OptimizedRoute :=
  twoOptLoop MAX_ITERATIONS constraints route.

Definition passengerWaypoints (passenger : Passenger) : list RoutePoint :=
  [ {| rp_location :=
         {| lat := pickup_lat passenger; lng := pickup_lng passenger |};
       passenger_id := id passenger;
       wp_type := pickup;
       time_window := max_detour_minutes passenger |};
    {| rp_location :=
         {| lat := dropoff_lat passenger; lng := dropoff_lng passenger |};
       passenger_id := id passenger;
       wp_type := dropoff;
       time_window := max_detour_minutes passenger |} ].

Definition optimizeRoute (passengers : list Passenger)
  (startLocation : Location) (constraints : RouteConstraints)
  : option OptimizedRoute :=
  let waypoints := flat_map passengerWaypoints passengers in
  match greedyRouteConstruction waypoints startLocation constraints with
  | None => None
  | Some result => Some (twoOptOptimization result constraints)
  end.

(** [new Set<string>()] filled by [add] and read by [for ... of]: the
    distinct passenger ids in order of first insertion. *)
Definition setAdd (s : list string) (x : string) : list string :=
  if bool_decide (x ∈ s) then s else s ++ [x].

Definition isWaypointOf (pid : string) (t : WaypointType) (w : RoutePoint)
  : bool :=
  bool_decide (passenger_id w = pid)
  && match wp_type w, t with
     | pickup, pickup | dropoff, dropoff => true
     | _, _ => false
     end.

(** The contribution of passenger [pid] to [directDistanceSum]. *)
Definition directLeg (ws : list RoutePoint) (pid : string) : Q :=
  match List.find (isWaypointOf pid pickup) ws,
        List.find (isWaypointOf pid dropoff) ws with
  | Some pickupPoint, Some dropoffPoint =>
      haversineDistance pickupPoint dropoffPoint
  | _, _ => 0
  end.

(** A division whose divisor is zero is recorded as [None] (JavaScript
    would produce an infinity or NaN). *)
Definition checkedDiv (a b : Q) : option Q :=
  if Qeq_bool b 0 then None else Some (a / b).

Definition calculateEfficiencyScore (route : OptimizedRoute) : option Q :=
  let passengers := foldl setAdd [] (passenger_id <$> waypoints route) in
  let directDistanceSum :=
    foldl (fun sum pid => sum + directLeg (waypoints route) pid) 0 passengers in
  if Qeq_bool (total_distance route) 0 then Some 0
  else checkedDiv directDistanceSum (total_distance route).

End WithDistance.

End RouteOptimizer.

(** ** The D1 database

    The services talk to a Cloudflare D1 (SQLite) database.  The model
    keeps the tables the modelled statements touch, a clock read by
    [Date.now()] and by SQLite's [datetime('now')], a counter standing
    for [Math.random()], and the log of the delays slept.  Timestamps are
    milliseconds since the epoch; the clock advances by [sleep] only
    (computation and statements take no time).

    A statement's [run()] resolves to a [D1Result] whose [success] is
    [true] whenever the statement was executed, whether or not it changed
    a row ([meta.changes] tells); a statement that cannot be executed
    makes [run()] throw. *)

Module Store.

Inductive PoolStatus := forming | pool_matched | pool_in_transit | pool_completed.

Record Pool := {
  pool_ident : string;
  driver_id : option string;
  vehicle_type : VehicleType;
  max_seats : Z;
  max_luggage : Z;
  current_seats : Z;
  current_luggage : Z;
  pool_status : PoolStatus;
  pool_total_distance : Q;
  optimized_route : option RouteOptimizer.OptimizedRoute;
  created_at : Z;
  version : Z
}.

Record Waypoint := {
  wp_id : string;
  wp_pool_id : string;
  wp_passenger_id : string;
  sequence_order : nat;
  waypoint_type : WaypointType;
  wp_lat : Q;
  wp_lng : Q
}.

(** A row of [pool_locks]; the table is keyed by its primary key
    [pool_id]. *)
Record PoolLock := {
  locked_by : string;
  locked_at : Z;
  expires_at : Z;
  lock_version : Z
}.

Record Db := {
  db_passengers : list Passenger;
  db_pools : gmap string Pool;
  db_waypoints : list Waypoint;
  db_pool_locks : gmap string PoolLock;
  clock : Z;
  entropy : nat;
  sleeps : list Z
}.

Definition with_passengers (f : list Passenger -> list Passenger) (db : Db) : Db :=
  {| db_passengers := f (db_passengers db); db_pools := db_pools db;
     db_waypoints := db_waypoints db; db_pool_locks := db_pool_locks db;
     clock := clock db; entropy := entropy db; sleeps := sleeps db |}.

Definition with_pools (f : gmap string Pool -> gmap string Pool) (db : Db) : Db :=
  {| db_passengers := db_passengers db; db_pools := f (db_pools db);
     db_waypoints := db_waypoints db; db_pool_locks := db_pool_locks db;
     clock := clock db; entropy := entropy db; sleeps := sleeps db |}.

Definition with_waypoints (f : list Waypoint -> list Waypoint) (db : Db) : Db :=
  {| db_passengers := db_passengers db; db_pools := db_pools db;
     db_waypoints := f (db_waypoints db); db_pool_locks := db_pool_locks db;
     clock := clock db; entropy := entropy db; sleeps := sleeps db |}.

Definition with_pool_locks
  (f : gmap string PoolLock -> gmap string PoolLock) (db : Db) : Db :=
  {| db_passengers := db_passengers db; db_pools := db_pools db;
     db_waypoints := db_waypoints db; db_pool_locks := f (db_pool_locks db);
     clock := clock db; entropy := entropy db; sleeps := sleeps db |}.

(** *** Asynchronous code: state passing with exceptions *)

Inductive Outcome (A : Type) :=
| Returned (value : A)
| Thrown (error : string).
Arguments Returned {A} value.
Arguments Thrown {A} error.

Definition M (A : Type) : Type := Db -> Outcome A * Db.

Definition ret {A} (a : A) : M A := fun db => (Returned a, db).

Definition bind {A B} (m : M A) (k : A -> M B) : M B :=
  fun db =>
    match m db with
    | (Returned a, db') => k a db'
    | (Thrown e, db') => (Thrown e, db')
    end.

Definition throw {A} (e : string) : M A := fun db => (Thrown e, db).

Definition try_catch {A} (body : M A) (handler : string -> M A) : M A :=
  fun db =>
    match body db with
    | (Returned a, db') => (Returned a, db')
    | (Thrown e, db') => handler e db'
    end.

(** [try { body } finally { finalizer }]: the finalizer runs on both
    exits of the body; its own exception, if any, replaces the outcome. *)
Definition try_finally {A B} (body : M A) (finalizer : M B) : M A :=
  fun db =>
    match body db with
    | (outcome, db') =>
        match finalizer db' with
        | (Returned _, db'') => (outcome, db'')
        | (Thrown e, db'') => (Thrown e, db'')
        end
    end.

Definition Date_now : M Z := fun db => (Returned (clock db), db).

(** [Math.random().toString(36).substr(2, 9)] *)
Definition randomSuffix : M string :=
  fun db =>
    (Returned (pretty (entropy db)),
     {| db_passengers := db_passengers db; db_pools := db_pools db;
        db_waypoints := db_waypoints db; db_pool_locks := db_pool_locks db;
        clock := clock db; entropy := S (entropy db); sleeps := sleeps db |}).

Definition sleep (ms : Z) : M unit :=
  fun db =>
    (Returned tt,
     {| db_passengers := db_passengers db; db_pools := db_pools db;
        db_waypoints := db_waypoints db; db_pool_locks := db_pool_locks db;
        clock := (clock db + ms)%Z; entropy := entropy db;
        sleeps := sleeps db ++ [ms] |}).

Record D1Result := { success : bool; changes : Z }.

End Store.

Declare Scope js_scope.
Delimit Scope js_scope with js.
Notation "x <- c1 ;; c2" := (Store.bind c1 (fun x => c2))
  (at level 100, c1 at next level, right associativity) : js_scope.
Notation "c1 ;; c2" := (Store.bind c1 (fun _ => c2))
  (at level 100, right associativity) : js_scope.

(** ** services/concurrency.ts *)

Module Concurrency.
Import Store.
Local Open Scope js_scope.

Record LockOptions := {
  ttlSeconds : option Z;
  maxRetries : option Z;
  retryDelayMs : option Z
}.

Definition noOptions : LockOptions :=
  {| ttlSeconds := None; maxRetries := None; retryDelayMs := None |}.

(** [{ ...DEFAULT_LOCK_OPTIONS, ...options }] *)
Definition DEFAULT_ttlSeconds : Z := 30.
Definition DEFAULT_maxRetries : Z := 3.
Definition DEFAULT_retryDelayMs : Z := 50.
Definition opt_ttlSeconds (o : LockOptions) : Z :=
  default DEFAULT_ttlSeconds (ttlSeconds o).
Definition opt_maxRetries (o : LockOptions) : Z :=
  default DEFAULT_maxRetries (maxRetries o).
Definition opt_retryDelayMs (o : LockOptions) : Z :=
  default DEFAULT_retryDelayMs (retryDelayMs o).

(** [INSERT INTO pool_locks (pool_id, locked_by, expires_at, lock_version)
    VALUES (?, ?, ?, 1) ON CONFLICT(pool_id) DO NOTHING] *)
Definition insertLockOrIgnore (poolId lockerId : string) (expiresAt : Z)
  : M D1Result :=
  fun db =>
    match db_pool_locks db !! poolId with
    | Some _ => (Returned {| success := true; changes := 0 |}, db)
    | None =>
        (Returned {| success := true; changes := 1 |},
         with_pool_locks
           (insert poolId {| locked_by := lockerId; locked_at := clock db;
                             expires_at := expiresAt; lock_version := 1 |})
           db)
    end.

(** [SELECT * FROM pool_locks WHERE pool_id = ?] *)
Definition selectLock (poolId : string) : M (option PoolLock) :=
  fun db => (Returned (db_pool_locks db !! poolId), db).

(** [UPDATE pool_locks SET locked_by = ?, locked_at = CURRENT_TIMESTAMP,
    expires_at = ?, lock_version = lock_version + 1
    WHERE pool_id = ? AND expires_at < datetime('now')] *)
Definition claimExpiredLock (lockerId : string) (expiresAt : Z)
  (poolId : string) : M D1Result :=
  fun db =>
    match db_pool_locks db !! poolId with
    | Some existing =>
        if (expires_at existing <? clock db)%Z then
          (Returned {| success := true; changes := 1 |},
           with_pool_locks
             (insert poolId
                {| locked_by := lockerId; locked_at := clock db;
                   expires_at := expiresAt;
                   lock_version := (lock_version existing + 1)%Z |})
             db)
        else (Returned {| success := true; changes := 0 |}, db)
    | None => (Returned {| success := true; changes := 0 |}, db)
    end.

(** [DELETE FROM pool_locks WHERE pool_id = ? AND locked_by = ?] *)
Definition deleteLock (poolId lockerId : string) : M D1Result :=
  fun db =>
    match db_pool_locks db !! poolId with
    | Some existing =>
        if bool_decide (locked_by existing = lockerId) then
          (Returned {| success := true; changes := 1 |},
           with_pool_locks (delete poolId) db)
        else (Returned {| success := true; changes := 0 |}, db)
    | None => (Returned {| success := true; changes := 0 |}, db)
    end.

(** [new Date(t).toISOString()] throws a [RangeError] unless the time
    value [t] is within 8.64e15 milliseconds of the epoch. *)
Definition validTimeValue (t : Z) : bool :=
  (-8640000000000000 <=? t)%Z && (t <=? 8640000000000000)%Z.

(** The expiry time is written as an ISO string before the [try] block
    is entered.  The model keeps it as a number and describes the calls
    whose expiry is a valid time value, [validTimeValue (now + ttl * 1000)],
    as every call with the default options is at any present-day clock.
    For any other call the source leaves [acquirePoolLock] with a
    [RangeError]. *)
Definition acquirePoolLock (poolId lockerId : string) (options : LockOptions)
  : M (option string) :=
  let opts_ttlSeconds := opt_ttlSeconds options in
  now <- Date_now ;;
  suffix <- randomSuffix ;;
  let lockId := poolId +:+ "_" +:+ pretty now +:+ "_" +:+ suffix in
  now <- Date_now ;;
  let expiresAt := (now + opts_ttlSeconds * 1000)%Z in
  try_catch
    (result <- insertLockOrIgnore poolId lockerId expiresAt ;;
     if success result then ret (Some lockId)
     else
       existing <- selectLock poolId ;;
       match existing with
       | Some existing =>
           let expiresTime := expires_at existing in
           now <- Date_now ;;
           if (expiresTime <? now)%Z then
             claimResult <- claimExpiredLock lockerId expiresAt poolId ;;
             if success claimResult then ret (Some lockId) else ret None
           else ret None
       | None => ret None
       end)
    (fun _ => ret None).

Definition releasePoolLock (poolId lockerId : string) : M bool :=
  try_catch
    (result <- deleteLock poolId lockerId ;; ret (success result))
    (fun _ => ret false).

Section WithAcquire.

(** [withPoolLock] is written over the acquisition primitive it calls,
    so that its retry and release discipline can be stated for every
    behaviour of that primitive; the service function instantiates it
    with [acquirePoolLock]. *)
Variable acquire : string -> string -> LockOptions -> M (option string).

(** The [for] loop: [remaining] iterations are left, [attempt] is the
    loop counter. *)
Fixpoint acquireWithRetries (poolId lockerId : string) (options : LockOptions)
  (remaining : nat) (attempt : Z) : M (option string) :=
  match remaining with
  | O => ret None
  | S remaining' =>
      lockId <- acquire poolId lockerId options ;;
      match lockId with
      | Some _ => ret lockId
      | None =>
          (if (attempt <? opt_maxRetries options - 1)%Z
           then sleep (opt_retryDelayMs options * (attempt + 1))
           else ret tt) ;;
          acquireWithRetries poolId lockerId options remaining' (attempt + 1)
      end
  end.

Definition withPoolLockVia {T : Type} (poolId lockerId : string)
  (operation : M T) (options : LockOptions) : M (option T) :=
  lockId <- acquireWithRetries poolId lockerId options
              (Z.to_nat (opt_maxRetries options)) 0 ;;
  match lockId with
  | None => ret None
  | Some _ =>
      try_finally
        (try_catch (result <- operation ;; ret (Some result))
                   (fun error => throw error))
        (releasePoolLock poolId lockerId)
  end.

End WithAcquire.

Definition withPoolLock {T : Type} (poolId lockerId : string)
  (operation : M T) (options : LockOptions) : M (option T) :=
  withPoolLockVia acquirePoolLock poolId lockerId operation options.

Definition generateRequestId : M string :=
  now <- Date_now ;;
  suffix <- randomSuffix ;;
  ret ("req_" +:+ pretty now +:+ "_" +:+ suffix).

(** An entry of the [updates: Partial<Pool>] object passed to
    [updatePoolWithVersionCheck], in the order of [Object.entries]; the
    columns are those of the [Pool] record of the model. *)
Inductive PoolField :=
| set_id (v : string)
| set_driver_id (v : option string)
| set_vehicle_type (v : VehicleType)
| set_max_seats (v : Z)
| set_max_luggage (v : Z)
| set_current_seats (v : Z)
| set_current_luggage (v : Z)
| set_status (v : PoolStatus)
| set_total_distance (v : Q)
| set_optimized_route (v : option RouteOptimizer.OptimizedRoute)
| set_created_at (v : Z)
| set_version (v : Z).

(** [key !== 'id' && key !== 'version'] *)
Definition isSettable (f : PoolField) : bool :=
  match f with
  | set_id _ | set_version _ => false
  | _ => true
  end.

(** One [key = ?] of the [SET] clause. *)
Definition applyField (pool : Pool) (f : PoolField) : Pool :=
  let mk d vt ms ml cs cl st td route ca :=
    {| pool_ident := pool_ident pool; driver_id := d; vehicle_type := vt;
       max_seats := ms; max_luggage := ml; current_seats := cs;
       current_luggage := cl; pool_status := st;
       pool_total_distance := td; optimized_route := route;
       created_at := ca; version := version pool |} in
  let keep := mk (driver_id pool) (vehicle_type pool) (max_seats pool)
                (max_luggage pool) (current_seats pool)
                (current_luggage pool) (pool_status pool)
                (pool_total_distance pool) (optimized_route pool)
                (created_at pool) in
  match f with
  | set_id _ | set_version _ => keep
  | set_driver_id v =>
      mk v (vehicle_type pool) (max_seats pool) (max_luggage pool)
        (current_seats pool) (current_luggage pool) (pool_status pool)
        (pool_total_distance pool) (optimized_route pool) (created_at pool)
  | set_vehicle_type v =>
      mk (driver_id pool) v (max_seats pool) (max_luggage pool)
        (current_seats pool) (current_luggage pool) (pool_status pool)
        (pool_total_distance pool) (optimized_route pool) (created_at pool)
  | set_max_seats v =>
      mk (driver_id pool) (vehicle_type pool) v (max_luggage pool)
        (current_seats pool) (current_luggage pool) (pool_status pool)
        (pool_total_distance pool) (optimized_route pool) (created_at pool)
  | set_max_luggage v =>
      mk (driver_id pool) (vehicle_type pool) (max_seats pool) v
        (current_seats pool) (current_luggage pool) (pool_status pool)
        (pool_total_distance pool) (optimized_route pool) (created_at pool)
  | set_current_seats v =>
      mk (driver_id pool) (vehicle_type pool) (max_seats pool)
        (max_luggage pool) v (current_luggage pool) (pool_status pool)
        (pool_total_distance pool) (optimized_route pool) (created_at pool)
  | set_current_luggage v =>
      mk (driver_id pool) (vehicle_type pool) (max_seats pool)
        (max_luggage pool) (current_seats pool) v (pool_status pool)
        (pool_total_distance pool) (optimized_route pool) (created_at pool)
  | set_status v =>
      mk (driver_id pool) (vehicle_type pool) (max_seats pool)
        (max_luggage pool) (current_seats pool) (current_luggage pool) v
        (pool_total_distance pool) (optimized_route pool) (created_at pool)
  | set_total_distance v =>
      mk (driver_id pool) (vehicle_type pool) (max_seats pool)
        (max_luggage pool) (current_seats pool) (current_luggage pool)
        (pool_status pool) v (optimized_route pool) (created_at pool)
  | set_optimized_route v =>
      mk (driver_id pool) (vehicle_type pool) (max_seats pool)
        (max_luggage pool) (current_seats pool) (current_luggage pool)
        (pool_status pool) (pool_total_distance pool) v (created_at pool)
  | set_created_at v =>
      mk (driver_id pool) (vehicle_type pool) (max_seats pool)
        (max_luggage pool) (current_seats pool) (current_luggage pool)
        (pool_status pool) (pool_total_distance pool) (optimized_route pool) v
  end.

Definition bumpVersion (pool : Pool) : Pool :=
  {| pool_ident := pool_ident pool; driver_id := driver_id pool;
     vehicle_type := vehicle_type pool; max_seats := max_seats pool;
     max_luggage := max_luggage pool; current_seats := current_seats pool;
     current_luggage := current_luggage pool; pool_status := pool_status pool;
     pool_total_distance := pool_total_distance pool;
     optimized_route := optimized_route pool; created_at := created_at pool;
     version := (version pool + 1)%Z |}.

(** [UPDATE pools SET <fields>, version = version + 1
    WHERE id = ? AND version = ?] *)
Definition updatePoolIfVersion (updateFields : list PoolField)
  (poolId : string) (expectedVersion : Z) : M D1Result :=
  fun db =>
    match db_pools db !! poolId with
    | Some pool =>
        if (version pool =? expectedVersion)%Z then
          (Returned {| success := true; changes := 1 |},
           with_pools
             (insert poolId (bumpVersion (foldl applyField pool updateFields)))
             db)
        else (Returned {| success := true; changes := 0 |}, db)
    | None => (Returned {| success := true; changes := 0 |}, db)
    end.

Record VersionedUpdate := { update_success : bool; newVersion : option Z }.

Definition updatePoolWithVersionCheck (poolId : string)
  (updates : list PoolField) (expectedVersion : Z) : M VersionedUpdate :=
  try_catch
    (let updateFields := List.filter isSettable updates in
     match updateFields with
     | [] => ret {| update_success := false; newVersion := None |}
     | _ :: _ =>
         result <- updatePoolIfVersion updateFields poolId expectedVersion ;;
         if success result && (0 <? changes result)%Z
         then ret {| update_success := true;
                     newVersion := Some (expectedVersion + 1)%Z |}
         else ret {| update_success := false; newVersion := None |}
     end)
    (fun _ => ret {| update_success := false; newVersion := None |}).

(** [retryWithBackoff]: the [for] loop with [remaining] iterations left;
    [lastError] is the last exception caught.  A caught exception is an
    [Error] object, hence truthy in [lastError || new Error(...)]. *)
Fixpoint retryLoop {T : Type} (operation : M T) (maxRetries baseDelayMs : Z)
  (remaining : nat) (attempt : Z) (lastError : option string) : M T :=
  match remaining with
  | O =>
      throw (default "Operation failed after retries" lastError)
  | S remaining' =>
      fun db =>
        match operation db with
        | (Returned value, db') => (Returned value, db')
        | (Thrown error, db') =>
            ((if (attempt <? maxRetries - 1)%Z
              then sleep (baseDelayMs * 2 ^ attempt)
              else ret tt) ;;
             retryLoop operation maxRetries baseDelayMs remaining'
               (attempt + 1) (Some error)) db'
        end
  end.

Definition retryWithBackoff {T : Type} (operation : M T)
  (maxRetries baseDelayMs : Z) : M T :=
  retryLoop operation maxRetries baseDelayMs (Z.to_nat maxRetries) 0 None.

Definition DEFAULT_retry_maxRetries : Z := 3.
Definition DEFAULT_retry_baseDelayMs : Z := 100.

Record BatchResult := { batch_success : bool; batch_errors : list string }.

(** [executeBatch]: a statement of [operations] is any state
    transformer producing a [D1Result]; [i] is the loop index. *)
Fixpoint batchLoop (operations : list (M D1Result)) (i : nat)
  : M (list string) :=
  match operations with
  | [] => ret []
  | op :: rest =>
      result <- op ;;
      if negb (success result)
      then ret ["Operation " +:+ pretty i +:+ " failed"]
      else batchLoop rest (S i)
  end.

Definition executeBatch (operations : list (M D1Result)) : M BatchResult :=
  try_catch
    (errors <- batchLoop operations 0 ;;
     match errors with
     | _ :: _ => ret {| batch_success := false; batch_errors := errors |}
     | [] => ret {| batch_success := true; batch_errors := [] |}
     end)
    (fun error => ret {| batch_success := false; batch_errors := [error] |}).

End Concurrency.

(** ** algorithms/matcher.ts *)

Module Matcher.
Import Store RouteOptimizer.
Local Open Scope js_scope.

Record MatchingConfig := {
  maxPoolSize : Z;
  maxSearchRadius : Q;
  minDirectionSimilarity : Q;
  maxDetourMultiplier : Q;
  timeoutMs : Z
}.

Definition DEFAULT_CONFIG : MatchingConfig :=
  {| maxPoolSize := 4; maxSearchRadius := 5.0; minDirectionSimilarity := 45;
     maxDetourMultiplier := 1.5; timeoutMs := 250 |}.

(** [efficiency_score] holds the result of [calculateEfficiencyScore],
    [None] standing for a division by zero. *)
Record MatchingResult := {
  mr_pool_id : string;
  mr_passengers : list string;
  mr_route : OptimizedRoute;
  pricing : gmap string Q;
  feasible : bool;
  efficiency_score : option Q
}.

Definition determineVehicleType (seats luggage : Z) : option VehicleType :=
  if ((seats <=? 4) && (luggage <=? 3))%Z then Some sedan
  else if ((seats <=? 6) && (luggage <=? 5))%Z then Some suv
  else if ((seats <=? 8) && (luggage <=? 8))%Z then Some van
  else None.

Definition getVehicleCapacity (type : VehicleType) : Z * Z :=
  match type with
  | sedan => (4, 3)
  | suv => (6, 5)
  | van => (8, 8)
  end%Z.

Definition pickupOf (p : Passenger) : Location :=
  {| lat := pickup_lat p; lng := pickup_lng p |}.
Definition dropoffOf (p : Passenger) : Location :=
  {| lat := dropoff_lat p; lng := dropoff_lng p |}.

Definition calculateCentroid (locations : list Location) : Location :=
  let sumLat := foldl (fun sum loc => sum + lat loc) 0 locations in
  let sumLng := foldl (fun sum loc => sum + lng loc) 0 locations in
  let n := inject_Z (Z.of_nat (length locations)) in
  {| lat := sumLat / n; lng := sumLng / n |}.

Definition generatePoolId : M string :=
  now <- Date_now ;;
  suffix <- randomSuffix ;;
  ret ("pool_" +:+ pretty now +:+ "_" +:+ suffix).

(** [pendingPassengers.sort((a, b) => time(a) - time(b))]: a stable
    sort by request time. *)
Fixpoint insertByRequestTime (p : Passenger) (sorted : list Passenger)
  : list Passenger :=
  match sorted with
  | [] => [p]
  | q :: rest =>
      if (requested_at p <? requested_at q)%Z then p :: sorted
      else q :: insertByRequestTime p rest
  end.

Definition sortByRequestTime (ps : list Passenger) : list Passenger :=
  foldl (fun sorted p => insertByRequestTime p sorted) [] ps.

Definition isPending (p : Passenger) : bool :=
  match status p with pending => true | _ => false end.

Section WithGeometry.

Variable haversineDistance : Location -> Location -> Q.
Variable calculateBearing : Location -> Location -> Q.

Definition isSimilarDirection (loc1Start loc1End loc2Start loc2End : Location)
  (thresholdDegrees : Q) : bool :=
  let bearing1 := calculateBearing loc1Start loc1End in
  let bearing2 := calculateBearing loc2Start loc2End in
  let diff := Qabs (bearing1 - bearing2) in
  let diff := if Qgtb diff 180 then 360 - diff else diff in
  Qle_bool diff thresholdDegrees.

(** The inner loop of [buildSpatialClusters]. *)
Definition absorbNearby (pickupLoc : Location) (maxRadius : Q)
  (acc : list Passenger * gset string) (other : Passenger)
  : list Passenger * gset string :=
  if bool_decide (id other ∈ acc.2) then acc
  else if Qle_bool (haversineDistance pickupLoc (pickupOf other)) maxRadius
       then (acc.1 ++ [other], {[id other]} ∪ acc.2)
       else acc.

Definition buildSpatialClusters (passengers : list Passenger) (maxRadius : Q)
  : list (list Passenger) :=
  (foldl
     (fun (acc : list (list Passenger) * gset string) passenger =>
        if bool_decide (id passenger ∈ acc.2) then acc
        else
          let '(cluster, assigned) :=
            foldl (absorbNearby (pickupOf passenger) maxRadius)
              ([passenger], {[id passenger]} ∪ acc.2) passengers in
          (acc.1 ++ [cluster], assigned))
     ([], ∅) passengers).1.

Definition isCompatible (existing : list Passenger) (candidate : Passenger)
  (config : MatchingConfig) : bool :=
  if negb (forallb
             (fun passenger =>
                isSimilarDirection (pickupOf passenger) (dropoffOf passenger)
                  (pickupOf candidate) (dropoffOf candidate)
                  (minDirectionSimilarity config))
             existing)
  then false
  else
    let totalSeats :=
      (foldl (fun sum p => sum + seats_required p) 0 existing
       + seats_required candidate)%Z in
    let totalLuggage :=
      (foldl (fun sum p => sum + luggage_count p) 0 existing
       + luggage_count candidate)%Z in
    if ((6 <? totalSeats) || (8 <? totalLuggage))%Z then false else true.

Definition tryFormPool (passengers : list Passenger) (config : MatchingConfig)
  : M (option MatchingResult) :=
  match passengers with
  | [] => ret None
  | _ :: _ =>
      let totalSeats :=
        foldl (fun sum p => sum + seats_required p)%Z 0%Z passengers in
      let totalLuggage :=
        foldl (fun sum p => sum + luggage_count p)%Z 0%Z passengers in
      match determineVehicleType totalSeats totalLuggage with
      | None => ret None
      | Some vehicleType =>
          let '(maxSeats, maxLuggage) := getVehicleCapacity vehicleType in
          let passengerConstraints :=
            foldl
              (fun (m : gmap string PassengerConstraint) passenger =>
                 let directDistance :=
                   haversineDistance (pickupOf passenger)
                     (dropoffOf passenger) in
                 <[id passenger :=
                     {| maxDetourMinutes := max_detour_minutes passenger;
                        directDistance := directDistance;
                        directTime := estimateTravelTime directDistance;
                        seatsRequired := seats_required passenger;
                        luggageCount := luggage_count passenger |}]> m)
              ∅ passengers in
          let startLocation := calculateCentroid (pickupOf <$> passengers) in
          match optimizeRoute haversineDistance passengers startLocation
                  {| RouteOptimizer.maxSeats := maxSeats;
                     RouteOptimizer.maxLuggage := maxLuggage;
                     RouteOptimizer.passengerConstraints :=
                       passengerConstraints |} with
          | None => ret None
          | Some route =>
              let pricing :=
                foldl
                  (fun (m : gmap string Q) passenger =>
                     let basePrice := default 0 (base_price passenger) in
                     let surgeMultiplier :=
                       if Qeq_bool (surge_multiplier passenger) 0 then 1.0
                       else surge_multiplier passenger in
                     let poolDiscount :=
                       1 - 0.15 * (inject_Z (Z.of_nat (length passengers)) - 1)
                     in
                     let finalPrice :=
                       basePrice * surgeMultiplier * Qmax poolDiscount 0.50 in
                     <[id passenger := finalPrice]> m)
                  ∅ passengers in
              let efficiencyScore :=
                calculateEfficiencyScore haversineDistance route in
              poolId <- generatePoolId ;;
              ret (Some {| mr_pool_id := poolId;
                           mr_passengers := id <$> passengers;
                           mr_route := route;
                           pricing := pricing;
                           feasible := true;
                           efficiency_score := efficiencyScore |})
          end
      end
  end.

(** The [for (i = remaining.length - 1; i >= 0; i--)] loop of
    [formPoolsFromCluster], over [remaining] read from its end: the
    admitted passengers and the others (still in reversed order). *)
Fixpoint admitCandidates (config : MatchingConfig)
  (poolCandidates : list Passenger) (reversedRemaining : list Passenger)
  : list Passenger * list Passenger :=
  match reversedRemaining with
  | [] => (poolCandidates, [])
  | candidate :: rest =>
      if (maxPoolSize config <=? Z.of_nat (length poolCandidates))%Z
      then (poolCandidates, reversedRemaining)
      else if isCompatible poolCandidates candidate config
      then admitCandidates config (poolCandidates ++ [candidate]) rest
      else
        let '(admitted, others) :=
          admitCandidates config poolCandidates rest in
        (admitted, candidate :: others)
  end.

(** [while (remaining.length > 0)]: every iteration shifts the seed off
    [remaining]. *)
Fixpoint growPools (fuel : nat) (config : MatchingConfig)
  (remaining : list Passenger) : M (list MatchingResult) :=
  match remaining, fuel with
  | seed :: rest, S fuel' =>
      let '(poolCandidates, others) :=
        admitCandidates config [seed] (reverse rest) in
      result <- tryFormPool poolCandidates config ;;
      more <- growPools fuel' config (reverse others) ;;
      ret (option_list result ++ more)
  | _, _ => ret []
  end.

Definition formPoolsFromCluster (cluster : list Passenger)
  (config : MatchingConfig) : M (list MatchingResult) :=
  if (Z.of_nat (length cluster) <=? maxPoolSize config)%Z then
    result <- tryFormPool cluster config ;;
    ret (option_list result)
  else growPools (length cluster) config cluster.

Fixpoint processClusters (startTime : Z) (config : MatchingConfig)
  (clusters : list (list Passenger)) : M (list MatchingResult) :=
  match clusters with
  | [] => ret []
  | cluster :: rest =>
      now <- Date_now ;;
      if (timeoutMs config <? now - startTime)%Z then ret []
      else
        poolResults <- formPoolsFromCluster cluster config ;;
        more <- processClusters startTime config rest ;;
        ret (poolResults ++ more)
  end.

Definition matchPassengersToPool (passengers : list Passenger)
  (availablePools : list Pool) (config : MatchingConfig)
  : M (list MatchingResult) :=
  startTime <- Date_now ;;
  let pendingPassengers := List.filter isPending passengers in
  match pendingPassengers with
  | [] => ret []
  | _ :: _ =>
      let pendingPassengers := sortByRequestTime pendingPassengers in
      let clusters :=
        buildSpatialClusters pendingPassengers (maxSearchRadius config) in
      processClusters startTime config clusters
  end.

End WithGeometry.

(** [calculateMatchScore]; the passenger argument is not read.  The
    quotient [current_seats / max_seats] is the rational one: a pool
    with [max_seats = 0], for which JavaScript computes an infinity or
    NaN, is outside the model. *)
Definition calculateMatchScore (passenger : Passenger) (pool : Pool) : M Q :=
  now <- Date_now ;;
  let score := 100 in
  let capacityRatio :=
    inject_Z (current_seats pool) / inject_Z (max_seats pool) in
  let score := score - capacityRatio * 20 in
  let ageMinutes := inject_Z (now - created_at pool) / 60000 in
  let score := score - Qmin (ageMinutes * 2) 30 in
  ret (Qmax score 0).

End Matcher.

(** ** services/ride-pooling.ts *)

Module RidePooling.
Import Store Concurrency.
Local Open Scope js_scope.

Definition determineVehicleType (passengerCount : Z) : VehicleType :=
  if (passengerCount <=? 2)%Z then sedan
  else if (passengerCount <=? 4)%Z then suv
  else van.

Definition getVehicleCapacity (type : VehicleType) : Z * Z :=
  match type with
  | sedan => (4, 3)
  | suv => (6, 5)
  | van => (8, 8)
  end%Z.

(** [SELECT * FROM passengers WHERE status = 'pending'
    ORDER BY requested_at ASC LIMIT 100] *)
Definition selectPendingPassengers : M (list Passenger) :=
  fun db =>
    (Returned
       (take 100
          (Matcher.sortByRequestTime
             (List.filter Matcher.isPending (db_passengers db)))),
     db).

(** [SELECT * FROM pools WHERE status = 'forming'
    AND created_at > datetime('now', '-10 minutes')] *)
Definition selectFormingPools : M (list Pool) :=
  fun db =>
    (Returned
       (List.filter
          (fun pool =>
             match pool_status pool with
             | forming => (clock db - 600000 <? created_at pool)%Z
             | _ => false
             end)
          (snd <$> map_to_list (db_pools db))),
     db).

(** [INSERT INTO pools (...) VALUES (..., 'forming', ?, ?, 0)]; the
    primary key makes the statement fail on an id already present. *)
Definition insertPool (poolId : string) (vehicleType : VehicleType)
  (maxSeats maxLuggage currentSeats currentLuggage : Z) (totalDistance : Q)
  (route : RouteOptimizer.OptimizedRoute) : M D1Result :=
  fun db =>
    match db_pools db !! poolId with
    | Some _ => (Thrown "UNIQUE constraint failed: pools.id", db)
    | None =>
        (Returned {| success := true; changes := 1 |},
         with_pools
           (insert poolId
              {| pool_ident := poolId; driver_id := None;
                 vehicle_type := vehicleType;
                 max_seats := maxSeats; max_luggage := maxLuggage;
                 current_seats := currentSeats;
                 current_luggage := currentLuggage;
                 pool_status := forming;
                 pool_total_distance := totalDistance;
                 optimized_route := Some route;
                 created_at := clock db;
                 version := 0 |})
           db)
    end.

Definition updatePassengerWhere (passengerId : string)
  (f : Passenger -> Passenger) : M D1Result :=
  fun db =>
    (Returned
       {| success := true;
          changes :=
            Z.of_nat
              (length (List.filter
                         (fun p => bool_decide (id p = passengerId))
                         (db_passengers db))) |},
     with_passengers
       (fmap (fun p => if bool_decide (id p = passengerId) then f p else p))
       db).

(** [UPDATE passengers SET status = 'matched', pool_id = ?,
    final_price = ?, matched_at = CURRENT_TIMESTAMP WHERE id = ?] *)
Definition markMatched (poolId : string) (finalPrice : Q)
  (passengerId : string) : M D1Result :=
  fun db =>
    updatePassengerWhere passengerId
      (fun p =>
         {| id := id p; user_id := user_id p;
            pickup_lat := pickup_lat p; pickup_lng := pickup_lng p;
            dropoff_lat := dropoff_lat p; dropoff_lng := dropoff_lng p;
            luggage_count := luggage_count p;
            seats_required := seats_required p;
            max_detour_minutes := max_detour_minutes p;
            detour_tolerance := detour_tolerance p;
            status := matched; pool_id := Some poolId;
            requested_at := requested_at p;
            matched_at := Some (clock db); cancelled_at := cancelled_at p;
            cancellation_reason := cancellation_reason p;
            base_price := base_price p; final_price := Some finalPrice;
            surge_multiplier := surge_multiplier p |})
      db.

(** [UPDATE passengers SET status = 'cancelled',
    cancelled_at = CURRENT_TIMESTAMP, cancellation_reason = ?
    (, pool_id = NULL) WHERE id = ?] *)
Definition markCancelled (reason : string) (clearPool : bool)
  (passengerId : string) : M D1Result :=
  fun db =>
    updatePassengerWhere passengerId
      (fun p =>
         {| id := id p; user_id := user_id p;
            pickup_lat := pickup_lat p; pickup_lng := pickup_lng p;
            dropoff_lat := dropoff_lat p; dropoff_lng := dropoff_lng p;
            luggage_count := luggage_count p;
            seats_required := seats_required p;
            max_detour_minutes := max_detour_minutes p;
            detour_tolerance := detour_tolerance p;
            status := cancelled;
            pool_id := if clearPool then None else pool_id p;
            requested_at := requested_at p;
            matched_at := matched_at p; cancelled_at := Some (clock db);
            cancellation_reason := Some reason;
            base_price := base_price p; final_price := final_price p;
            surge_multiplier := surge_multiplier p |})
      db.

(** [INSERT INTO waypoints (...) VALUES (?, ?, ?, ?, ?, ?, ?)] *)
Definition insertWaypoint (row : Waypoint) : M D1Result :=
  fun db =>
    if existsb (fun w => bool_decide (wp_id w = wp_id row)) (db_waypoints db)
    then (Thrown "UNIQUE constraint failed: waypoints.id", db)
    else (Returned {| success := true; changes := 1 |},
          with_waypoints (fun ws => ws ++ [row]) db).

(** [SELECT * FROM passengers WHERE id = ?], [first()] *)
Definition selectPassenger (passengerId : string) : M (option Passenger) :=
  fun db =>
    (Returned
       (List.find (fun p => bool_decide (id p = passengerId))
          (db_passengers db)),
     db).

(** [UPDATE pools SET current_seats = current_seats - ?,
    current_luggage = current_luggage - ?, version = version + 1
    WHERE id = ?] *)
Definition decrementPoolLoad (seats luggage : Z) (poolId : string)
  : M D1Result :=
  fun db =>
    (Returned
       {| success := true;
          changes :=
            match db_pools db !! poolId with Some _ => 1 | None => 0 end |},
     with_pools
       (alter
          (fun pool =>
             {| pool_ident := pool_ident pool; driver_id := driver_id pool;
                vehicle_type := vehicle_type pool;
                max_seats := max_seats pool; max_luggage := max_luggage pool;
                current_seats := (current_seats pool - seats)%Z;
                current_luggage := (current_luggage pool - luggage)%Z;
                pool_status := pool_status pool;
                pool_total_distance := pool_total_distance pool;
                optimized_route := optimized_route pool;
                created_at := created_at pool;
                version := (version pool + 1)%Z |})
          poolId)
       db).

(** [DELETE FROM waypoints WHERE passenger_id = ?] *)
Definition deleteWaypointsOf (passengerId : string) : M D1Result :=
  fun db =>
    (Returned
       {| success := true;
          changes :=
            Z.of_nat
              (length (List.filter
                         (fun w => bool_decide (wp_passenger_id w = passengerId))
                         (db_waypoints db))) |},
     with_waypoints
       (List.filter
          (fun w => negb (bool_decide (wp_passenger_id w = passengerId))))
       db).

(** [SELECT current_seats FROM pools WHERE id = ?], [first()] *)
Definition selectCurrentSeats (poolId : string) : M (option Z) :=
  fun db => (Returned (current_seats <$> db_pools db !! poolId), db).

(** [DELETE FROM pools WHERE id = ?]; the waypoints of the pool go with
    it ([ON DELETE CASCADE]). *)
Definition deletePool (poolId : string) : M D1Result :=
  fun db =>
    (Returned
       {| success := true;
          changes :=
            match db_pools db !! poolId with Some _ => 1 | None => 0 end |},
     with_waypoints
       (List.filter (fun w => negb (bool_decide (wp_pool_id w = poolId))))
       (with_pools (delete poolId) db)).

Record MatchSummary := { matched_count : Z; pools_created : Z }.

Fixpoint updateMatchedPassengers (poolId : string)
  (pricing : gmap string Q) (passengerIds : list string) (matchedCount : Z)
  : M Z :=
  match passengerIds with
  | [] => ret matchedCount
  | passengerId :: rest =>
      let finalPrice := default 0 (pricing !! passengerId) in
      markMatched poolId finalPrice passengerId ;;
      updateMatchedPassengers poolId pricing rest (matchedCount + 1)%Z
  end.

Fixpoint insertWaypoints (poolId : string) (i : nat)
  (waypoints : list RoutePoint) : M unit :=
  match waypoints with
  | [] => ret tt
  | wp :: rest =>
      insertWaypoint
        {| wp_id := "wp_" +:+ poolId +:+ "_" +:+ pretty i;
           wp_pool_id := poolId;
           wp_passenger_id := passenger_id wp;
           sequence_order := i;
           waypoint_type := wp_type wp;
           wp_lat := lat wp;
           wp_lng := lng wp |} ;;
      insertWaypoints poolId (S i) rest
  end.

(** The body of the loop over [matchingResults]: the counters
    [matchedCount] and [poolsCreated] keep the increments made before an
    exception is caught. *)
Definition commitResult (pendingPassengers : list Passenger)
  (counts : MatchSummary) (result : Matcher.MatchingResult) : M MatchSummary :=
  if negb (Matcher.feasible result) then ret counts
  else
    let poolId := Matcher.mr_pool_id result in
    let vehicleType :=
      determineVehicleType (Z.of_nat (length (Matcher.mr_passengers result))) in
    let capacity := getVehicleCapacity vehicleType in
    let currentLuggage :=
      foldl
        (fun sum pid =>
           match List.find (fun p => bool_decide (id p = pid))
                   pendingPassengers with
           | Some p => (sum + luggage_count p)%Z
           | None => (sum + 0)%Z
           end)
        0%Z (Matcher.mr_passengers result) in
    try_catch
      (poolResult <-
         insertPool poolId vehicleType capacity.1 capacity.2
           (Z.of_nat (length (Matcher.mr_passengers result))) currentLuggage
           (RouteOptimizer.total_distance (Matcher.mr_route result))
           (Matcher.mr_route result) ;;
       if negb (success poolResult) then ret counts
       else
         let poolsCreated := (pools_created counts + 1)%Z in
         matchedCount <-
           updateMatchedPassengers poolId (Matcher.pricing result)
             (Matcher.mr_passengers result) (matched_count counts) ;;
         let counts' :=
           {| matched_count := matchedCount; pools_created := poolsCreated |} in
         try_catch
           (insertWaypoints poolId 0
              (RouteOptimizer.waypoints (Matcher.mr_route result)) ;;
            ret counts')
           (fun _ => ret counts'))
      (fun _ => ret counts).

Fixpoint commitResults (pendingPassengers : list Passenger)
  (counts : MatchSummary) (results : list Matcher.MatchingResult)
  : M MatchSummary :=
  match results with
  | [] => ret counts
  | result :: rest =>
      counts' <- commitResult pendingPassengers counts result ;;
      commitResults pendingPassengers counts' rest
  end.

Section WithGeometry.

Variable haversineDistance : Location -> Location -> Q.
Variable calculateBearing : Location -> Location -> Q.

Definition matchPendingPassengers : M MatchSummary :=
  startTime <- Date_now ;;
  passengers <- selectPendingPassengers ;;
  match passengers with
  | [] => ret {| matched_count := 0; pools_created := 0 |}
  | _ :: _ =>
      pools <- selectFormingPools ;;
      matchingResults <-
        Matcher.matchPassengersToPool haversineDistance calculateBearing
          passengers pools Matcher.DEFAULT_CONFIG ;;
      commitResults passengers
        {| matched_count := 0; pools_created := 0 |} matchingResults
  end.

End WithGeometry.

Record CancelResult := { cancel_success : bool; refund_amount : option Q }.

Definition falsyPoolId (poolId : option string) : bool :=
  match poolId with
  | None => true
  | Some s => bool_decide (s = "")
  end.

Definition cancelRideRequest (passengerId : string) (reason : option string)
  : M CancelResult :=
  requestId <- generateRequestId ;;
  passenger <- selectPassenger passengerId ;;
  match passenger with
  | None => ret {| cancel_success := false; refund_amount := None |}
  | Some passenger =>
      match status passenger with
      | cancelled | completed =>
          ret {| cancel_success := false; refund_amount := None |}
      | _ =>
          let reasonText :=
            match reason with
            | Some r => if bool_decide (r = "") then "User cancelled" else r
            | None => "User cancelled"
            end in
          if falsyPoolId (pool_id passenger)
             || match status passenger with pending => true | _ => false end
          then
            markCancelled reasonText false passengerId ;;
            ret {| cancel_success := true; refund_amount := None |}
          else
            let poolId := default "" (pool_id passenger) in
            result <-
              withPoolLock poolId requestId
                (markCancelled reasonText true passengerId ;;
                 decrementPoolLoad (seats_required passenger)
                   (luggage_count passenger) poolId ;;
                 deleteWaypointsOf passengerId ;;
                 pool <- selectCurrentSeats poolId ;;
                 match pool with
                 | Some currentSeats =>
                     if (currentSeats <=? 0)%Z
                     then deletePool poolId ;;
                          ret {| cancel_success := true;
                                 refund_amount := None |}
                     else ret {| cancel_success := true;
                                 refund_amount := None |}
                 | None =>
                     ret {| cancel_success := true; refund_amount := None |}
                 end)
                noOptions ;;
            ret (default {| cancel_success := false; refund_amount := None |}
                   result)
      end
  end.

End RidePooling.

(** * Properties *)

(** ** Rational arithmetic helpers *)

Lemma Qltb_lt (x y : Q) : Qltb x y = true <-> x < y.
Proof.
  unfold Qltb. rewrite negb_true_iff.
  destruct (Qle_bool y x) eqn:E.
  - apply Qle_bool_iff in E. split; [discriminate | intros H; exfalso; lra].
  - split; [intros _ | reflexivity].
    destruct (Qlt_le_dec x y) as [H | H]; [exact H |].
    apply Qle_bool_iff in H. congruence.
Qed.

Lemma Qltb_ge (x y : Q) : Qltb x y = false <-> y <= x.
Proof.
  unfold Qltb. rewrite negb_false_iff. apply Qle_bool_iff.
Qed.

Lemma Qmax_cases (x y : Q) :
  (y <= x /\ Qmax x y == x) \/ (x <= y /\ Qmax x y == y).
Proof.
  destruct (Qlt_le_dec x y) as [H | H].
  - right. split; [lra | apply Q.max_r; lra].
  - left. split; [exact H | apply Q.max_l; exact H].
Qed.

Lemma Qmin_cases (x y : Q) :
  (x <= y /\ Qmin x y == x) \/ (y <= x /\ Qmin x y == y).
Proof.
  destruct (Qlt_le_dec y x) as [H | H].
  - right. split; [lra | apply Q.min_r; lra].
  - left. split; [exact H | apply Q.min_l; exact H].
Qed.

(** Case analysis on every [Qmax]/[Qmin] of the goal and the context,
    then linear arithmetic. *)
Ltac split_max a b :=
  let m := fresh "m" in
  let C := fresh "C" in
  let E := fresh "E" in
  pose proof (Qmax_cases a b) as C;
  remember (Qmax a b) as m eqn:E in *; clear E;
  destruct C as [[? ?] | [? ?]].

Ltac split_min a b :=
  let m := fresh "m" in
  let C := fresh "C" in
  let E := fresh "E" in
  pose proof (Qmin_cases a b) as C;
  remember (Qmin a b) as m eqn:E in *; clear E;
  destruct C as [[? ?] | [? ?]].

Ltac minmax_lra :=
  repeat match goal with
    | |- context [Qmax ?a ?b] => split_max a b
    | |- context [Qmin ?a ?b] => split_min a b
    | H : context [Qmax ?a ?b] |- _ => split_max a b
    | H : context [Qmin ?a ?b] |- _ => split_min a b
    end;
  try lra.

Lemma Qdiv_100 (x : Q) : x / 100 == x * (1 # 100).
Proof. reflexivity. Qed.

Lemma Math_round_lower (x : Q) (n : Z) :
  inject_Z n <= x -> (n <= Math_round x)%Z.
Proof.
  intros H. unfold Math_round.
  rewrite <- (Qfloor_Z n). apply Qfloor_resp_le. lra.
Qed.

Lemma Math_round_upper (x : Q) (n : Z) :
  x <= inject_Z n -> (Math_round x <= n)%Z.
Proof.
  intros H. unfold Math_round.
  assert (Hlt : (Qfloor (x + (1 # 2)) < n + 1)%Z).
  { rewrite Zlt_Qlt.
    eapply Qle_lt_trans; [apply Qfloor_le |].
    rewrite inject_Z_plus. change (inject_Z 1) with 1. lra. }
  lia.
Qed.

(** Rounding to two decimals keeps a value inside an interval whose
    bounds are themselves hundredths. *)
Lemma round2_between (x : Q) (lo hi : Z) :
  inject_Z lo / 100 <= x -> x <= inject_Z hi / 100 ->
  inject_Z lo / 100 <= round2 x /\ round2 x <= inject_Z hi / 100.
Proof.
  intros Hlo Hhi. unfold round2.
  rewrite Qdiv_100 in Hlo, Hhi.
  assert (L : (lo <= Math_round (x * 100))%Z).
  { apply Math_round_lower. lra. }
  assert (U : (Math_round (x * 100) <= hi)%Z).
  { apply Math_round_upper. lra. }
  rewrite Zle_Qle in L, U. rewrite !Qdiv_100. lra.
Qed.

Lemma round2_mono (x y : Q) : x <= y -> round2 x <= round2 y.
Proof.
  intros H. unfold round2, Math_round. rewrite !Qdiv_100.
  assert (M : (Qfloor (x * 100 + (1 # 2)) <= Qfloor (y * 100 + (1 # 2)))%Z).
  { apply Qfloor_resp_le. lra. }
  rewrite Zle_Qle in M. lra.
Qed.

(** ** Pricing *)

Section PricingFacts.
Import Pricing.

Lemma truthy_Some (q : Q) : truthy (Some q) = true <-> ~ q == 0.
Proof.
  unfold truthy. rewrite negb_true_iff.
  destruct (Qeq_bool q 0) eqn:E.
  - apply Qeq_bool_iff in E. split; [discriminate | tauto].
  - split; [intros _ H | reflexivity].
    apply Qeq_bool_iff in H. congruence.
Qed.

Lemma truthy_Some_false (q : Q) : truthy (Some q) = false <-> q == 0.
Proof.
  unfold truthy. rewrite negb_false_iff. apply Qeq_bool_iff.
Qed.

(** The detour penalty of the source is [0.02 * max(d, 0)]. *)
Lemma detourPenalty_max (d : Q) :
  (if truthy (Some d) && Qgtb d 0 then DETOUR_PENALTY * d else 0)
  == DETOUR_PENALTY * Qmax d 0.
Proof.
  unfold Qgtb, DETOUR_PENALTY.
  destruct (truthy (Some d)) eqn:T; destruct (Qltb 0 d) eqn:L; simpl.
  - apply Qltb_lt in L. minmax_lra.
  - apply Qltb_ge in L. minmax_lra.
  - apply truthy_Some_false in T. apply Qltb_lt in L. lra.
  - apply Qltb_ge in L. minmax_lra.
Qed.

Lemma calculatePoolDiscount_closed_form (p d : Q) :
  calculatePoolDiscount (Some p) (Some d)
  == Qmax (1 - Qmax (0.15 * (p - 1) - 0.02 * Qmax d 0) 0) 0.50.
Proof.
  unfold calculatePoolDiscount.
  destruct (negb (truthy (Some p)) || Qle_bool p 1) eqn:G.
  - assert (Hp : p <= 1).
    { apply orb_true_iff in G. destruct G as [G | G].
      - apply negb_true_iff in G.
        destruct (Qeq_dec p 0) as [E | N]; [lra |].
        apply truthy_Some in N. congruence.
      - apply Qle_bool_iff in G. exact G. }
    assert (Hd : 0 <= Qmax d 0) by apply Q.le_max_r.
    minmax_lra.
  - rewrite detourPenalty_max.
    unfold PER_PASSENGER, DETOUR_PENALTY, MIN_DISCOUNT. reflexivity.
Qed.

Lemma calculatePoolDiscount_no_detour (p : Q) :
  calculatePoolDiscount (Some p) None
  == Qmax (1 - Qmax (0.15 * (p - 1)) 0) 0.50.
Proof.
  unfold calculatePoolDiscount.
  destruct (negb (truthy (Some p)) || Qle_bool p 1) eqn:G.
  - assert (Hp : p <= 1).
    { apply orb_true_iff in G. destruct G as [G | G].
      - apply negb_true_iff in G.
        destruct (Qeq_dec p 0) as [E | N]; [lra |].
        apply truthy_Some in N. congruence.
      - apply Qle_bool_iff in G. exact G. }
    minmax_lra.
  - unfold PER_PASSENGER, MIN_DISCOUNT. minmax_lra.
Qed.


Lemma calculatePoolDiscount_range (p d : option Q) :
  0.5 <= calculatePoolDiscount p d /\ calculatePoolDiscount p d <= 1.
Proof.
  destruct p as [p |]; [| unfold calculatePoolDiscount; lra].
  destruct d as [d |].
  - rewrite calculatePoolDiscount_closed_form. minmax_lra.
  - rewrite calculatePoolDiscount_no_detour. minmax_lra.
Qed.

Lemma calculateBasePrice_positive (dist time : Q) (v : VehicleType) :
  8 <= calculateBasePrice dist time v.
Proof.
  unfold calculateBasePrice.
  eapply Qle_trans; [| apply Q.le_max_r].
  destruct v; unfold MINIMUM_FARE; lra.
Qed.

Lemma calculateSurgeMultiplier_range (f : PricingFactors) :
  1 <= calculateSurgeMultiplier f /\ calculateSurgeMultiplier f <= 3.5.
Proof.
  unfold calculateSurgeMultiplier, SURGE_MIN, SURGE_MAX.
  set (s := match weatherCondition f with Some _ => _ | None => _ end).
  clearbody s. minmax_lra.
Qed.






Definition soloFactors : PricingFactors :=
  {| distance := 2; estimatedTime := 4; vehicleType := sedan;
     timeOfDay := 12; dayOfWeek := 3; weatherCondition := Some clear;
     surgeZone := None; poolSize := Some 1; detourMinutes := None |}.


(** The other fields of the returned record are rounded one by one as
    well: a zone multiplier of 1.004 on the minimum sedan fare gives the
    fields 8, 1 and 8.03. *)
Definition quietZone : SurgeZone :=
  {| zone_id := "zone_q"; zone_name := "Quiet"; center_lat := 40.6413;
     center_lng := -73.78; radius_km := 5; current_surge := 1.004;
     demand_level := normal; active_requests := 0; available_drivers := 3 |}.

Remark rounded_fields_of_minimum_fare :
  let result :=
    calculateDynamicPrice
      {| distance := 0; estimatedTime := 0; vehicleType := sedan;
         timeOfDay := 12; dayOfWeek := 3; weatherCondition := Some clear;
         surgeZone := Some quietZone; poolSize := Some 1;
         detourMinutes := None |} in
  basePrice result == 8 /\ surgeMultiplier result == 1
  /\ finalPrice result == 8.03.
Proof.
  cbv zeta. repeat split; vm_compute; reflexivity.
Qed.




End PricingFacts.

(** ** Route optimizer: the greedy selection *)

Section GreedySelection.
Import RouteOptimizer.

Variable haversineDistance : Location -> Location -> Q.
Variable currentLocation : Location.
Variable pickedUp : gset string.
Variables currentSeats currentLuggage : Z.
Variable constraints : RouteConstraints.

Let valid (w : RoutePoint) : Prop :=
  isValidNextWaypoint w pickedUp currentSeats currentLuggage constraints = true.
Let dist (w : RoutePoint) : Q := haversineDistance currentLocation w.
Let scan := findNearestValid haversineDistance currentLocation pickedUp
              currentSeats currentLuggage constraints.

(** What the scan of [ws] (whose head has position [idx]) returns when it
    starts from [best]: either [best] survives because no valid waypoint
    of [ws] is strictly nearer, or the first valid waypoint of least
    distance in [ws] replaces it. *)
Lemma findNearestValid_invariant (ws : list RoutePoint) :
  forall (idx : nat) (best : option (nat * RoutePoint * Q)),
    match scan ws idx best with
    | None => best = None /\ forall j w', ws !! j = Some w' -> ~ valid w'
    | Some (i, w, d) =>
        (best = Some (i, w, d)
         /\ forall j w', ws !! j = Some w' -> valid w' -> d <= dist w')
        \/ (exists k, i = (idx + k)%nat /\ ws !! k = Some w /\ valid w
                      /\ d = dist w
                      /\ (forall b, best = Some b -> d < b.2)
                      /\ forall j w', ws !! j = Some w' -> valid w' ->
                           d <= dist w' /\ ((j < k)%nat -> d < dist w'))
    end.
Proof.
  induction ws as [| w0 rest IH]; intros idx best.
  - simpl. destruct best as [[[i w] d] |].
    + left. split; [reflexivity |]. intros j w' Hj. discriminate Hj.
    + split; [reflexivity |]. intros j w' Hj. discriminate Hj.
  - unfold scan. simpl. fold scan.
    destruct (isValidNextWaypoint w0 pickedUp currentSeats currentLuggage
                constraints) eqn:V; simpl.
    + (* [w0] is valid *)
      assert (Hstep : forall best',
                 (best' = Some (idx, w0, dist w0))
                 -> (forall b, best = Some b -> dist w0 < b.2)
                 -> match scan rest (S idx) best' with
                    | None => False
                    | Some (i, w, d) =>
                        exists k, i = (idx + k)%nat
                          /\ (w0 :: rest) !! k = Some w /\ valid w
                          /\ d = dist w
                          /\ (forall b, best = Some b -> d < b.2)
                          /\ forall j w', (w0 :: rest) !! j = Some w'
                               -> valid w'
                               -> d <= dist w' /\ ((j < k)%nat -> d < dist w')
                    end).
      { intros best' Hb' Hlt. specialize (IH (S idx) best').
        destruct (scan rest (S idx) best') as [[[i w] d] |].
        - destruct IH as [[Eb Hmin] | (k & Hi & Hk & Hv & Hd & Hb & Hmin)].
          + rewrite Hb' in Eb. injection Eb as <- <- <-.
            exists 0%nat. split; [lia |]. split; [reflexivity |].
            split; [exact V |]. split; [reflexivity |].
            split; [exact Hlt |].
            intros [| j] w' Hj Hv'.
            * injection Hj as <-. split; [lra | lia].
            * split; [apply (Hmin j w' Hj Hv') | lia].
          + pose proof (Hb _ Hb') as Hd0. simpl in Hd0.
            exists (S k). split; [lia |]. split; [exact Hk |].
            split; [exact Hv |]. split; [exact Hd |].
            split.
            * intros b Eb. specialize (Hlt b Eb). lra.
            * intros [| j] w' Hj Hv'.
              -- injection Hj as <-. split; [lra | intros _; exact Hd0].
              -- destruct (Hmin j w' Hj Hv') as [M1 M2].
                 split; [exact M1 | intros Hlt'; apply M2; lia].
        - destruct IH as [Eb _]. rewrite Hb' in Eb. discriminate Eb. }
      destruct best as [[[bi bw] bd] |].
      * destruct (Qltb (haversineDistance currentLocation w0) bd) eqn:L.
        -- apply Qltb_lt in L.
           specialize (Hstep (Some (idx, w0, dist w0)) eq_refl).
           fold (dist w0).
           destruct (scan rest (S idx) (Some (idx, w0, dist w0)))
             as [[[i w] d] |].
           ++ right. apply Hstep. intros b Eb. injection Eb as <-. exact L.
           ++ exfalso. apply Hstep. intros b Eb. injection Eb as <-. exact L.
        -- apply Qltb_ge in L. clear Hstep.
           specialize (IH (S idx) (Some (bi, bw, bd))).
           destruct (scan rest (S idx) (Some (bi, bw, bd))) as [[[i w] d] |].
           ++ destruct IH as [[Eb Hmin] | (k & Hi & Hk & Hv & Hd & Hb & Hmin)].
              ** left. split; [exact Eb |]. injection Eb as <- <- <-.
                 intros [| j] w' Hj Hv'.
                 --- injection Hj as <-. exact L.
                 --- apply (Hmin j w' Hj Hv').
              ** right. pose proof (Hb _ eq_refl) as Hd0. simpl in Hd0.
                 exists (S k). split; [lia |]. split; [exact Hk |].
                 split; [exact Hv |]. split; [exact Hd |].
                 split; [exact Hb |].
                 intros [| j] w' Hj Hv'.
                 --- injection Hj as <-. fold (dist w0) in L.
                     split; [lra | intros _; lra].
                 --- destruct (Hmin j w' Hj Hv') as [M1 M2].
                     split; [exact M1 | intros Hlt'; apply M2; lia].
           ++ destruct IH as [Eb _]. discriminate Eb.
      * specialize (Hstep (Some (idx, w0, dist w0)) eq_refl).
        fold (dist w0).
        destruct (scan rest (S idx) (Some (idx, w0, dist w0)))
          as [[[i w] d] |].
        -- right. apply Hstep. intros b Eb. discriminate Eb.
        -- exfalso. apply Hstep. intros b Eb. discriminate Eb.
    + (* [w0] is not valid: it is skipped *)
      specialize (IH (S idx) best).
      destruct (scan rest (S idx) best) as [[[i w] d] |].
      * destruct IH as [[Eb Hmin] | (k & Hi & Hk & Hv & Hd & Hb & Hmin)].
        -- left. split; [exact Eb |].
           intros [| j] w' Hj Hv'.
           ++ injection Hj as <-. unfold valid in Hv'. congruence.
           ++ apply (Hmin j w' Hj Hv').
        -- right. exists (S k). split; [lia |]. split; [exact Hk |].
           split; [exact Hv |]. split; [exact Hd |]. split; [exact Hb |].
           intros [| j] w' Hj Hv'.
           ++ injection Hj as <-. unfold valid in Hv'. congruence.
           ++ destruct (Hmin j w' Hj Hv') as [M1 M2].
              split; [exact M1 | intros Hlt'; apply M2; lia].
      * destruct IH as [Eb Hnone]. split; [exact Eb |].
        intros [| j] w' Hj.
        -- injection Hj as <-. unfold valid. congruence.
        -- apply (Hnone j w' Hj).
Qed.

End GreedySelection.

(** ** Route optimizer: precedence in the greedy route *)

Section GreedyPrecedence.
Import RouteOptimizer.

Variable haversineDistance : Location -> Location -> Q.
Variable constraints : RouteConstraints.

(** Every dropoff of the sequence comes after a pickup of the same
    passenger. *)
Definition pickupBeforeDropoff (ws : list RoutePoint) : Prop :=
  forall (i : nat) (w : RoutePoint),
    ws !! i = Some w -> wp_type w = dropoff ->
    exists (j : nat) (w' : RoutePoint),
      (j < i)%nat /\ ws !! j = Some w' /\ wp_type w' = pickup
      /\ passenger_id w' = passenger_id w.

(** Every passenger on board has a pickup in the route built so far. *)
Definition boardedInRoute (st : GreedyState) : Prop :=
  forall pid : string,
    pid ∈ pickedUp st ->
    exists (j : nat) (w' : RoutePoint),
      route st !! j = Some w' /\ wp_type w' = pickup
      /\ passenger_id w' = pid.

Lemma greedyStep_keeps_precedence (st st' : GreedyState) :
  greedyStep haversineDistance constraints st = Some st' ->
  pickupBeforeDropoff (route st) /\ boardedInRoute st ->
  pickupBeforeDropoff (route st') /\ boardedInRoute st'.
Proof.
  unfold greedyStep. intros Hstep [Hprec Hboard].
  pose proof (findNearestValid_invariant haversineDistance (currentLocation st)
                (pickedUp st) (currentSeats st) (currentLuggage st)
                constraints (unvisited st) 0%nat None) as Inv.
  destruct (findNearestValid haversineDistance (currentLocation st)
              (pickedUp st) (currentSeats st) (currentLuggage st) constraints
              (unvisited st) 0 None) as [[[idx w] d] |]; [| discriminate].
  injection Hstep as <-. cbn [route pickedUp].
  destruct Inv as [[Eb _] | (k & _ & _ & Hvalid & _)]; [discriminate Eb |].
  split.
  - intros i x Hi Hx.
    destruct (decide (i < length (route st))%nat) as [Hlt | Hge].
    + rewrite lookup_app_l in Hi by exact Hlt.
      destruct (Hprec i x Hi Hx) as (j & w' & Hj & Hw' & Ht & Hid).
      exists j, w'. split; [exact Hj |]. split; [| tauto].
      rewrite lookup_app_l by lia. exact Hw'.
    + rewrite lookup_app_r in Hi by lia.
      destruct (i - length (route st))%nat as [| n] eqn:En;
        [| destruct n; discriminate Hi].
      injection Hi as <-.
      unfold isValidNextWaypoint in Hvalid. rewrite Hx in Hvalid.
      apply bool_decide_eq_true in Hvalid.
      destruct (Hboard _ Hvalid) as (j & w' & Hw' & Ht & Hid).
      exists j, w'. pose proof (lookup_lt_Some _ _ _ Hw') as Hj.
      split; [lia |]. split; [| tauto].
      rewrite lookup_app_l by exact Hj. exact Hw'.
  - intros pid Hpid. cbn [route pickedUp] in Hpid |- *.
    assert (Hcases :
      pid ∈ pickedUp st \/ (wp_type w = pickup /\ pid = passenger_id w)).
    { destruct (wp_type w).
      - apply elem_of_union in Hpid as [H | H]; [| left; exact H].
        apply elem_of_singleton in H. right. split; [reflexivity | exact H].
      - apply elem_of_difference in Hpid as [H _]. left. exact H. }
    destruct Hcases as [Hold | [Ht ->]].
    + destruct (Hboard pid Hold) as (j & w' & Hw' & Ht & Hid).
      exists j, w'. split; [| tauto].
      rewrite lookup_app_l by (eapply lookup_lt_Some; exact Hw'). exact Hw'.
    + exists (length (route st)), w. split; [| tauto].
      rewrite lookup_app_r by lia. rewrite Nat.sub_diag. reflexivity.
Qed.

Lemma greedyLoop_keeps_precedence (fuel : nat) :
  forall st st' : GreedyState,
    greedyLoop haversineDistance fuel constraints st = Some st' ->
    pickupBeforeDropoff (route st) /\ boardedInRoute st ->
    pickupBeforeDropoff (route st').
Proof.
  induction fuel as [| fuel IH]; intros st st' Hloop Hinv.
  - simpl in Hloop. destruct (unvisited st); [| discriminate Hloop].
    injection Hloop as <-. tauto.
  - simpl in Hloop. destruct (unvisited st) eqn:U.
    + injection Hloop as <-. tauto.
    + destruct (greedyStep haversineDistance constraints st) as [st1 |] eqn:S1;
        [| discriminate Hloop].
      apply (IH st1 st' Hloop).
      apply (greedyStep_keeps_precedence st st1 S1 Hinv).
Qed.

(** A step removes the selected waypoint and keeps the others in their
    order: the unvisited set is always a subsequence of the waypoints
    in the order [optimizeRoute] created them. *)
Lemma greedyStep_keeps_insertion_order (st st' : GreedyState) :
  greedyStep haversineDistance constraints st = Some st' ->
  unvisited st' `sublist_of` unvisited st.
Proof.
  unfold greedyStep. intros Hstep.
  destruct (findNearestValid haversineDistance (currentLocation st)
              (pickedUp st) (currentSeats st) (currentLuggage st) constraints
              (unvisited st) 0 None) as [[[idx w] d] |]; [| discriminate].
  injection Hstep as <-. cbn [unvisited]. apply sublist_delete.
Qed.

(** A step visits one waypoint: the unvisited set shrinks by one. *)
Lemma greedyStep_visits_one (st st' : GreedyState) :
  greedyStep haversineDistance constraints st = Some st' ->
  S (length (unvisited st')) = length (unvisited st).
Proof.
  unfold greedyStep. intros Hstep.
  pose proof (findNearestValid_invariant haversineDistance (currentLocation st)
                (pickedUp st) (currentSeats st) (currentLuggage st)
                constraints (unvisited st) 0%nat None) as Inv.
  destruct (findNearestValid haversineDistance (currentLocation st)
              (pickedUp st) (currentSeats st) (currentLuggage st) constraints
              (unvisited st) 0 None) as [[[idx w] d] |]; [| discriminate].
  injection Hstep as <-. cbn [unvisited].
  destruct Inv as [[Eb _] | (k & Hidx & Hk & _)]; [discriminate Eb |].
  simpl in Hidx. subst k.
  pose proof (lookup_lt_Some _ _ _ Hk) as Hlt.
  rewrite length_delete by (exists w; exact Hk). lia.
Qed.

(** The [while] loop of the greedy construction ends within
    [length unvisited] iterations: more fuel does not change the result,
    so the [None] of [greedyLoop] always means that some iteration found
    no valid waypoint. *)
Lemma greedyLoop_fuel_enough (fuel : nat) :
  forall (extra : nat) (st : GreedyState),
    (length (unvisited st) <= fuel)%nat ->
    greedyLoop haversineDistance (fuel + extra) constraints st
    = greedyLoop haversineDistance fuel constraints st.
Proof.
  induction fuel as [| fuel IH]; intros extra st Hlen.
  - destruct (unvisited st) eqn:U; [| simpl in Hlen; lia].
    destruct extra; simpl; rewrite U; reflexivity.
  - simpl. destruct (unvisited st) eqn:U; [reflexivity |].
    destruct (greedyStep haversineDistance constraints st) as [st1 |] eqn:S1;
      [| reflexivity].
    apply IH. pose proof (greedyStep_visits_one st st1 S1) as Hone.
    rewrite U in Hone. simpl in Hlen, Hone. lia.
Qed.

Lemma greedy_route_has_pickup_before_dropoff
  (waypoints0 : list RoutePoint) (startLocation : Location)
  (result : OptimizedRoute) :
  greedyRouteConstruction haversineDistance waypoints0 startLocation constraints
  = Some result ->
  pickupBeforeDropoff (waypoints result).
Proof.
  unfold greedyRouteConstruction. intros H.
  destruct (greedyLoop haversineDistance (length waypoints0) constraints _)
    as [st |] eqn:L; [| discriminate H].
  destruct (detoursWithinTolerance constraints _); [| discriminate H].
  injection H as <-. cbn [waypoints].
  apply (greedyLoop_keeps_precedence _ _ _ L). split.
  - intros i w Hi. discriminate Hi.
  - intros pid Hpid. cbn [pickedUp] in Hpid.
    apply elem_of_empty in Hpid. contradiction.
Qed.

End GreedyPrecedence.

(** ** Concrete passengers, all on the meridian 73.78 W *)

Definition mkPassenger (pid : string) (pickupLat dropoffLat : Q)
  (seats luggage : Z) (requestedAt : Z) : Passenger :=
  {| id := pid; user_id := "user_" +:+ pid;
     pickup_lat := pickupLat; pickup_lng := -73.78;
     dropoff_lat := dropoffLat; dropoff_lng := -73.78;
     luggage_count := luggage; seats_required := seats;
     max_detour_minutes := 15; detour_tolerance := 1.5;
     status := pending; pool_id := None; requested_at := requestedAt;
     matched_at := None; cancelled_at := None;
     cancellation_reason := None; base_price := Some 20;
     final_price := None; surge_multiplier := 1 |}.

(** The constraint record [tryFormPool] builds for a passenger. *)
Definition constraintFor (p : Passenger) : RouteOptimizer.PassengerConstraint :=
  let directDistance :=
    meridianDistance {| lat := pickup_lat p; lng := pickup_lng p |}
                     {| lat := dropoff_lat p; lng := dropoff_lng p |} in
  {| RouteOptimizer.maxDetourMinutes := max_detour_minutes p;
     RouteOptimizer.directDistance := directDistance;
     RouteOptimizer.directTime := estimateTravelTime directDistance;
     RouteOptimizer.seatsRequired := seats_required p;
     RouteOptimizer.luggageCount := luggage_count p |}.

Definition sedanConstraints (ps : list Passenger)
  : RouteOptimizer.RouteConstraints :=
  {| RouteOptimizer.maxSeats := 4;
     RouteOptimizer.maxLuggage := 3;
     RouteOptimizer.passengerConstraints :=
       foldl (fun m p => <[id p := constraintFor p]> m) ∅ ps |}.

(** Two riders whose trips overlap in opposite directions: A rides north
    from 40.600 to 40.620, B rides south from 40.635 to 40.610. *)
Definition riderA : Passenger := mkPassenger "A" 40.600 40.620 1 1 1000.
Definition riderB : Passenger := mkPassenger "B" 40.635 40.610 1 1 2000.
Definition depot : Location := {| lat := 40.595; lng := -73.78 |}.

(** Two riders waiting at the same kerb; [early] asked first. *)
Definition early : Passenger := mkPassenger "early" 40.600 40.620 1 1 1000.
Definition late : Passenger := mkPassenger "late" 40.600 40.630 1 1 2000.

Definition latePickup : RoutePoint :=
  {| rp_location := {| lat := 40.600; lng := -73.78 |};
     passenger_id := "late"; wp_type := pickup; time_window := 15 |}.

Definition stops (r : RouteOptimizer.OptimizedRoute)
  : list (string * WaypointType) :=
  (fun w => (passenger_id w, wp_type w)) <$> RouteOptimizer.waypoints r.

(** Along a meridian the initial bearing is 0 (north) or 180 (south). *)
Definition meridianBearing (loc1 loc2 : Location) : Q :=
  if Qle_bool (lat loc1) (lat loc2) then 0 else 180.

(** A database at time 2000 holding the given passengers only. *)
Definition emptyDb : Store.Db :=
  {| Store.db_passengers := []; Store.db_pools := ∅;
     Store.db_waypoints := []; Store.db_pool_locks := ∅;
     Store.clock := 2000; Store.entropy := 0; Store.sleeps := [] |}.

Definition dbOf (ps : list Passenger) : Store.Db :=
  Store.with_passengers (fun _ => ps) emptyDb.

(** The rows of the [waypoints] table: (passenger_id, sequence_order,
    waypoint_type). *)
Definition committedStops (db : Store.Db) : list (string * nat * WaypointType) :=
  (fun w => (Store.wp_passenger_id w, Store.sequence_order w,
             Store.waypoint_type w)) <$> Store.db_waypoints db.

Section RoutePlannerFacts.
Import RouteOptimizer.

(** C1, evaluated.  Every route built by [greedyRouteConstruction] has
    each dropoff after a pickup of the same passenger.  2-opt does not
    keep that: the greedy route of riders A and B visits [A pickup,
    A dropoff, B pickup, B dropoff]; 2-opt then adopts the reversal of
    positions 1..3 of [A pickup, B pickup, A dropoff, B dropoff], and
    [optimizeRoute] returns a route in which B is dropped off before
    being picked up: [calculateDetours] reads the missing pickup time as
    0 and the candidate passes the detour check.  A matching cycle over
    the two riders commits the same sequence to the [waypoints] table. *)
Theorem twoOpt_adopts_dropoff_before_pickup :
  (forall (haversineDistance : Location -> Location -> Q)
          (ws : list RoutePoint) (startLocation : Location)
          (constraints : RouteConstraints) (result : OptimizedRoute),
      greedyRouteConstruction haversineDistance ws startLocation constraints
      = Some result ->
      pickupBeforeDropoff (waypoints result))
  /\ (stops <$> greedyRouteConstruction meridianDistance
                  (flat_map passengerWaypoints [riderA; riderB]) depot
                  (sedanConstraints [riderA; riderB]))
     = Some [("A", pickup); ("A", dropoff); ("B", pickup); ("B", dropoff)]
  /\ (exists planned : OptimizedRoute,
       optimizeRoute meridianDistance [riderA; riderB] depot
         (sedanConstraints [riderA; riderB]) = Some planned
       /\ stops planned
          = [("A", pickup); ("B", dropoff); ("A", dropoff); ("B", pickup)]
       /\ ~ pickupBeforeDropoff (waypoints planned))
  /\ committedStops
       (RidePooling.matchPendingPassengers meridianDistance meridianBearing
          (dbOf [riderA; riderB])).2
     = [("A", 0%nat, pickup); ("B", 1%nat, dropoff);
        ("A", 2%nat, dropoff); ("B", 3%nat, pickup)].
Proof.
  split; [| split; [| split]]; [| | | vm_compute; reflexivity].
  - intros haversineDistance ws startLocation constraints result.
    apply greedy_route_has_pickup_before_dropoff.
  - vm_compute. reflexivity.
  - assert (Hstops :
      (stops <$> optimizeRoute meridianDistance [riderA; riderB] depot
                   (sedanConstraints [riderA; riderB]))
      = Some [("A", pickup); ("B", dropoff); ("A", dropoff); ("B", pickup)])
      by (vm_compute; reflexivity).
    destruct (optimizeRoute meridianDistance [riderA; riderB] depot
                (sedanConstraints [riderA; riderB])) as [planned |];
      [| discriminate Hstops].
    injection Hstops as Hstops.
    exists planned. split; [reflexivity |]. split; [exact Hstops |].
    unfold stops in Hstops.
    destruct (waypoints planned) as [| w0 [| w1 rest]];
      [discriminate Hstops | discriminate Hstops |].
    rewrite !fmap_cons in Hstops.
    injection Hstops as Hid0 Ht0 Hid1 Ht1 _.
    intros Hprec.
    destruct (Hprec 1%nat w1 eq_refl Ht1) as (j & w' & Hj & Hw' & _ & Hid).
    assert (j = 0%nat) by lia. subst j.
    injection Hw' as <-. congruence.
Qed.

(** C9 as stated fails: with the passenger list [late; early], both
    pickups are valid and at the same distance from the depot, [early]
    has the smaller request timestamp, and the greedy scan selects the
    pickup of [late], the first of the two in the unvisited set. *)
Lemma greedy_tie_ignores_request_time :
  let ws := flat_map passengerWaypoints [late; early] in
  let cs := sedanConstraints [late; early] in
  (requested_at early < requested_at late)%Z
  /\ (forall w : RoutePoint,
        w ∈ passengerWaypoints early -> wp_type w = pickup ->
        isValidNextWaypoint w ∅ 0 0 cs = true
        /\ meridianDistance depot w == 0.55595)
  /\ (exists w : RoutePoint,
        findNearestValid meridianDistance depot ∅ 0 0 cs ws 0 None
                = Some (0%nat, w, meridianDistance depot w)
                /\ passenger_id w = "late" /\ wp_type w = pickup
                /\ meridianDistance depot w == 0.55595)
  /\ (head <$> (stops <$> optimizeRoute meridianDistance [late; early]
                            depot cs))
     = Some (Some ("late", pickup)).
Proof.
  cbv zeta. split; [reflexivity |]. split.
  - intros w Hw Ht. unfold passengerWaypoints in Hw.
    apply elem_of_cons in Hw. destruct Hw as [-> | Hw].
    + split; vm_compute; reflexivity.
    + apply list_elem_of_singleton in Hw. subst w. discriminate Ht.
  - split.
    + exists latePickup. split; [vm_compute; reflexivity |].
      repeat split; vm_compute; reflexivity.
    + vm_compute. reflexivity.
Qed.

(** C9, amended.  When the greedy scan selects a waypoint, it is valid,
    no valid unvisited waypoint is nearer, and every valid unvisited
    waypoint at the same distance stands at the same or a later position
    of the unvisited set: ties go to the waypoint inserted first (the
    passenger list order, pickup before dropoff); request timestamps are
    not consulted. *)
Theorem greedy_ties_go_to_first_inserted
  (haversineDistance : Location -> Location -> Q)
  (currentLocation : Location) (pickedUp : gset string)
  (currentSeats currentLuggage : Z) (constraints : RouteConstraints)
  (unvisited : list RoutePoint) (i : nat) (w : RoutePoint) (d : Q) :
  findNearestValid haversineDistance currentLocation pickedUp currentSeats
    currentLuggage constraints unvisited 0 None = Some (i, w, d) ->
  unvisited !! i = Some w
  /\ isValidNextWaypoint w pickedUp currentSeats currentLuggage constraints
     = true
  /\ d = haversineDistance currentLocation w
  /\ forall (j : nat) (w' : RoutePoint),
       unvisited !! j = Some w' ->
       isValidNextWaypoint w' pickedUp currentSeats currentLuggage constraints
       = true ->
       d <= haversineDistance currentLocation w'
       /\ (haversineDistance currentLocation w' == d -> (i <= j)%nat).
Proof.
  intros Hsel.
  pose proof (findNearestValid_invariant haversineDistance currentLocation
                pickedUp currentSeats currentLuggage constraints unvisited
                0%nat None) as Inv.
  rewrite Hsel in Inv.
  destruct Inv as [[Eb _] | (k & Hi & Hk & Hv & Hd & _ & Hmin)];
    [discriminate Eb |].
  simpl in Hi. subst k.
  split; [exact Hk |]. split; [exact Hv |]. split; [exact Hd |].
  intros j w' Hj Hv'. destruct (Hmin j w' Hj Hv') as [M1 M2].
  split; [exact M1 |].
  intros Heq. destruct (le_lt_dec i j) as [Hle | Hlt]; [exact Hle |].
  specialize (M2 Hlt). lra.
Qed.

Lemma greedy_ties_go_to_first_inserted_witness :
  exists w : RoutePoint,
    findNearestValid meridianDistance depot ∅ 0 0
      (sedanConstraints [late; early])
      (flat_map passengerWaypoints [late; early]) 0 None
    = Some (0%nat, w, meridianDistance depot w)
    /\ flat_map passengerWaypoints [late; early] !! 0%nat = Some w.
Proof.
  exists latePickup.
  assert (Hsel :
    findNearestValid meridianDistance depot ∅ 0 0
      (sedanConstraints [late; early])
      (flat_map passengerWaypoints [late; early]) 0 None
    = Some (0%nat, latePickup, meridianDistance depot latePickup)).
  { vm_compute. reflexivity. }
  split; [exact Hsel |].
  exact (proj1 (greedy_ties_go_to_first_inserted _ _ _ _ _ _ _ _ _ _ Hsel)).
Defined.

End RoutePlannerFacts.

(** ** Route optimizer: the efficiency score *)

(** [w] is the first stop of kind [t] that the list has for passenger
    [pid]. *)
Definition firstStopOf (ws : list RoutePoint) (pid : string)
  (t : WaypointType) (w : RoutePoint) : Prop :=
  exists i : nat,
    ws !! i = Some w /\ passenger_id w = pid /\ wp_type w = t
    /\ forall (j : nat) (v : RoutePoint),
         (j < i)%nat -> ws !! j = Some v ->
         ~ (passenger_id v = pid /\ wp_type v = t).

Definition hasNoStopOf (ws : list RoutePoint) (pid : string)
  (t : WaypointType) : Prop :=
  forall w : RoutePoint,
    w ∈ ws -> ~ (passenger_id w = pid /\ wp_type w = t).

(** The distinct elements of a list in the order of their first
    appearance, which is the order a JavaScript [Set] iterates them in. *)
Definition firstAppearances (ids : list string) : list string :=
  reverse (remove_dups (reverse ids)).

Section EfficiencyScore.
Import RouteOptimizer.

Variable haversineDistance : Location -> Location -> Q.

Lemma isWaypointOf_spec (pid : string) (t : WaypointType) (w : RoutePoint) :
  isWaypointOf pid t w = true <-> passenger_id w = pid /\ wp_type w = t.
Proof.
  unfold isWaypointOf. rewrite andb_true_iff, bool_decide_eq_true.
  destruct (wp_type w), t; split; intros [H1 H2]; split;
    try exact H1; try reflexivity; discriminate.
Qed.

Lemma find_first_stop (pid : string) (t : WaypointType) (ws : list RoutePoint)
  (w : RoutePoint) :
  List.find (isWaypointOf pid t) ws = Some w -> firstStopOf ws pid t w.
Proof.
  induction ws as [| x ws IH]; intros Hfind; [discriminate Hfind |].
  simpl in Hfind. destruct (isWaypointOf pid t x) eqn:Ex.
  - injection Hfind as ->. apply isWaypointOf_spec in Ex as [Hid Ht].
    exists 0%nat. split; [reflexivity |]. split; [exact Hid |].
    split; [exact Ht |]. intros j v Hj. lia.
  - destruct (IH Hfind) as (i & Hi & Hid & Ht & Hfirst).
    exists (S i). split; [exact Hi |]. split; [exact Hid |].
    split; [exact Ht |].
    intros [| j] v Hj Hv.
    + injection Hv as <-. intros Hx. apply isWaypointOf_spec in Hx.
      rewrite Hx in Ex. discriminate Ex.
    + apply (Hfirst j v); [lia | exact Hv].
Qed.

Lemma find_no_stop (pid : string) (t : WaypointType) (ws : list RoutePoint) :
  List.find (isWaypointOf pid t) ws = None -> hasNoStopOf ws pid t.
Proof.
  intros Hfind w Hw Hstop.
  apply list_elem_of_In in Hw.
  pose proof (List.find_none _ _ Hfind w Hw) as Hnot.
  apply isWaypointOf_spec in Hstop. rewrite Hstop in Hnot. discriminate Hnot.
Qed.

Lemma firstStopOf_unique (ws : list RoutePoint) (pid : string)
  (t : WaypointType) (a b : RoutePoint) :
  firstStopOf ws pid t a -> firstStopOf ws pid t b -> a = b.
Proof.
  intros (i & Hi & Hida & Hta & Hfirsta) (j & Hj & Hidb & Htb & Hfirstb).
  destruct (Nat.lt_trichotomy i j) as [Hlt | [Heq | Hgt]].
  - destruct (Hfirstb i a Hlt Hi). split; assumption.
  - subst j. rewrite Hi in Hj. injection Hj as ->. reflexivity.
  - destruct (Hfirsta j b Hgt Hj). split; assumption.
Qed.

Lemma firstStopOf_elem (ws : list RoutePoint) (pid : string)
  (t : WaypointType) (a : RoutePoint) :
  firstStopOf ws pid t a ->
  a ∈ ws /\ passenger_id a = pid /\ wp_type a = t.
Proof.
  intros (i & Hi & Hid & Ht & _).
  split; [apply (list_elem_of_lookup_2 _ _ _ Hi) |]. split; assumption.
Qed.

(** What [find] returns for the two kinds of stop determines the
    passenger's contribution to the sum. *)
Lemma directLeg_spec (ws : list RoutePoint) (pid : string) :
  (forall a b : RoutePoint,
      firstStopOf ws pid pickup a -> firstStopOf ws pid dropoff b ->
      directLeg haversineDistance ws pid = haversineDistance a b)
  /\ (hasNoStopOf ws pid pickup \/ hasNoStopOf ws pid dropoff ->
      directLeg haversineDistance ws pid = 0).
Proof.
  unfold directLeg.
  destruct (List.find (isWaypointOf pid pickup) ws) as [a' |] eqn:Ea;
    destruct (List.find (isWaypointOf pid dropoff) ws) as [b' |] eqn:Eb.
  - apply find_first_stop in Ea. apply find_first_stop in Eb. split.
    + intros a b Ha Hb.
      rewrite (firstStopOf_unique _ _ _ _ _ Ha Ea),
        (firstStopOf_unique _ _ _ _ _ Hb Eb). reflexivity.
    + intros [Hnone | Hnone].
      * destruct (firstStopOf_elem _ _ _ _ Ea) as (Hin & Hid & Ht).
        destruct (Hnone a' Hin). split; assumption.
      * destruct (firstStopOf_elem _ _ _ _ Eb) as (Hin & Hid & Ht).
        destruct (Hnone b' Hin). split; assumption.
  - apply find_no_stop in Eb. split; [| reflexivity].
    intros a b _ Hb.
    destruct (firstStopOf_elem _ _ _ _ Hb) as (Hin & Hid & Ht).
    destruct (Eb b Hin). split; assumption.
  - apply find_no_stop in Ea. split; [| reflexivity].
    intros a b Ha _.
    destruct (firstStopOf_elem _ _ _ _ Ha) as (Hin & Hid & Ht).
    destruct (Ea a Hin). split; assumption.
  - apply find_no_stop in Ea. split; [| reflexivity].
    intros a b Ha _.
    destruct (firstStopOf_elem _ _ _ _ Ha) as (Hin & Hid & Ht).
    destruct (Ea a Hin). split; assumption.
Qed.

(** The [Set] filled by [add] lists the distinct passenger ids in the
    order of their first appearance. *)
Lemma passengerSet_firstAppearances (ids : list string) :
  foldl setAdd [] ids = firstAppearances ids.
Proof.
  unfold firstAppearances.
  induction ids as [| x ids IH] using rev_ind; [reflexivity |].
  rewrite foldl_app, reverse_app. cbn [foldl reverse app].
  rewrite IH. change (reverse [x]) with [x]. cbn [app remove_dups].
  unfold setAdd.
  destruct (decide_rel elem_of x (reverse ids)) as [Hin | Hout].
  - rewrite bool_decide_eq_true_2
      by (rewrite elem_of_reverse, elem_of_remove_dups; exact Hin).
    reflexivity.
  - rewrite bool_decide_eq_false_2
      by (rewrite elem_of_reverse, elem_of_remove_dups; exact Hout).
    rewrite reverse_cons. reflexivity.
Qed.

Lemma firstAppearances_spec (ids : list string) :
  NoDup (firstAppearances ids)
  /\ forall x : string, x ∈ firstAppearances ids <-> x ∈ ids.
Proof.
  unfold firstAppearances. split.
  - rewrite reverse_Permutation. apply NoDup_remove_dups.
  - intros x. rewrite elem_of_reverse, elem_of_remove_dups, elem_of_reverse.
    reflexivity.
Qed.

Lemma NoDup_fmap_elem_inj {A B : Type} (f : A -> B) (l : list A) (x y : A) :
  NoDup (f <$> l) -> x ∈ l -> y ∈ l -> f x = f y -> x = y.
Proof.
  induction l as [| a l IH]; intros Hnd Hx Hy E.
  - apply elem_of_nil in Hx. contradiction.
  - rewrite fmap_cons in Hnd. apply NoDup_cons in Hnd as [Hnotin Hnd].
    apply elem_of_cons in Hx as [-> | Hx];
      apply elem_of_cons in Hy as [-> | Hy].
    + reflexivity.
    + destruct Hnotin. rewrite E. apply list_elem_of_fmap. eauto.
    + destruct Hnotin. rewrite <- E. apply list_elem_of_fmap. eauto.
    + apply (IH Hnd Hx Hy E).
Qed.

(** The stops of a route built from [riders]. *)
Lemma stop_of_rider (riders : list Passenger) (w : RoutePoint) :
  w ∈ flat_map passengerWaypoints riders ->
  exists p : Passenger,
    p ∈ riders /\ passenger_id w = id p
    /\ (wp_type w = pickup ->
        rp_location w = {| lat := pickup_lat p; lng := pickup_lng p |})
    /\ (wp_type w = dropoff ->
        rp_location w = {| lat := dropoff_lat p; lng := dropoff_lng p |}).
Proof.
  intros Hw. apply list_elem_of_In, in_flat_map in Hw as (p & Hp & Hw).
  exists p. split; [apply list_elem_of_In; exact Hp |].
  destruct Hw as [<- | [<- | []]]; cbn;
    (split; [reflexivity |]); split; intros Ht;
    try reflexivity; discriminate Ht.
Qed.

Lemma stops_of_rider (riders : list Passenger) (p : Passenger) :
  p ∈ riders ->
  exists a b : RoutePoint,
    a ∈ flat_map passengerWaypoints riders
    /\ b ∈ flat_map passengerWaypoints riders
    /\ passenger_id a = id p /\ wp_type a = pickup
    /\ passenger_id b = id p /\ wp_type b = dropoff.
Proof.
  intros Hp. apply list_elem_of_In in Hp.
  eexists _, _. split; [| split].
  - apply list_elem_of_In, in_flat_map. exists p. split; [exact Hp |].
    left. reflexivity.
  - apply list_elem_of_In, in_flat_map. exists p. split; [exact Hp |].
    right. left. reflexivity.
  - cbn. auto.
Qed.

(** C10.  [calculateEfficiencyScore] returns 0 when the route's total
    distance is 0 and otherwise the sum of one direct distance per
    distinct passenger of the route, divided by the total distance; the
    division is never evaluated with a zero divisor (the result is never
    the [None] of [checkedDiv]).  The passengers are the distinct
    passenger ids of the stops, added up in the order of their first
    appearance.  A passenger's direct distance is the haversine distance
    from the passenger's first pickup stop to the passenger's first
    dropoff stop, and 0 when the route lacks one of the two.  For a route
    that consists of the stops of riders with distinct ids, the sum has
    one term per rider, the haversine distance from the rider's pickup
    location to the rider's dropoff location. *)
Theorem efficiency_score_is_guarded_ratio (route : OptimizedRoute) :
  let stops := waypoints route in
  let passengers := firstAppearances (passenger_id <$> stops) in
  exists direct : string -> Q,
    calculateEfficiencyScore haversineDistance route
    = Some (if Qeq_bool (total_distance route) 0 then 0
            else foldl (fun sum pid => sum + direct pid) 0 passengers
                 / total_distance route)
    /\ NoDup passengers
    /\ (forall pid : string,
           pid ∈ passengers
           <-> exists w : RoutePoint, w ∈ stops /\ passenger_id w = pid)
    /\ (forall (pid : string) (a b : RoutePoint),
           firstStopOf stops pid pickup a ->
           firstStopOf stops pid dropoff b ->
           direct pid = haversineDistance a b)
    /\ (forall pid : string,
           hasNoStopOf stops pid pickup \/ hasNoStopOf stops pid dropoff ->
           direct pid = 0)
    /\ (forall riders : list Passenger,
           NoDup (id <$> riders) ->
           stops ≡ₚ flat_map passengerWaypoints riders ->
           passengers ≡ₚ id <$> riders
           /\ forall p : Passenger,
                p ∈ riders ->
                direct (id p)
                = haversineDistance
                    {| lat := pickup_lat p; lng := pickup_lng p |}
                    {| lat := dropoff_lat p; lng := dropoff_lng p |}).
Proof.
  intros stops passengers.
  destruct (firstAppearances_spec (passenger_id <$> stops)) as [Hnd Hel].
  fold passengers in Hnd, Hel.
  assert (Hmem : forall pid : string,
             pid ∈ passengers
             <-> exists w : RoutePoint, w ∈ stops /\ passenger_id w = pid).
  { intros pid. rewrite Hel, list_elem_of_fmap. split.
    - intros (w & -> & Hw). exists w. split; [exact Hw | reflexivity].
    - intros (w & Hw & <-). exists w. split; [reflexivity | exact Hw]. }
  exists (directLeg haversineDistance stops).
  split.
  { unfold calculateEfficiencyScore, checkedDiv. fold stops.
    rewrite passengerSet_firstAppearances. fold passengers.
    destruct (Qeq_bool (total_distance route) 0); reflexivity. }
  split; [exact Hnd |]. split; [exact Hmem |].
  split; [intros pid; apply (proj1 (directLeg_spec stops pid)) |].
  split; [intros pid; apply (proj2 (directLeg_spec stops pid)) |].
  intros riders Hids Hstops. split.
  - apply NoDup_Permutation; [exact Hnd | exact Hids |].
    intros pid. rewrite Hmem, list_elem_of_fmap. split.
    + intros (w & Hw & <-). rewrite Hstops in Hw.
      destruct (stop_of_rider riders w Hw) as (p & Hp & Hid & _).
      exists p. split; [exact Hid | exact Hp].
    + intros (p & -> & Hp).
      destruct (stops_of_rider riders p Hp) as (a & _ & Ha & _ & Hid & _).
      exists a. split; [rewrite Hstops; exact Ha | exact Hid].
  - intros p Hp.
    destruct (stops_of_rider riders p Hp)
      as (a0 & b0 & Ha0 & Hb0 & Hida & Hta & Hidb & Htb).
    rewrite <- Hstops in Ha0, Hb0.
    assert (Hfirst : forall (t : WaypointType) (w0 : RoutePoint),
               w0 ∈ stops -> passenger_id w0 = id p -> wp_type w0 = t ->
               exists w : RoutePoint, firstStopOf stops (id p) t w).
    { intros t w0 Hin Hid Ht.
      destruct (List.find (isWaypointOf (id p) t) stops) as [w |] eqn:Ef.
      - exists w. apply find_first_stop. exact Ef.
      - apply find_no_stop in Ef. destruct (Ef w0 Hin). split; assumption. }
    destruct (Hfirst pickup a0 Ha0 Hida Hta) as (a & Ha).
    destruct (Hfirst dropoff b0 Hb0 Hidb Htb) as (b & Hb).
    rewrite (proj1 (directLeg_spec stops (id p)) a b Ha Hb).
    assert (Hloc : forall (t : WaypointType) (w : RoutePoint),
               firstStopOf stops (id p) t w ->
               exists q : Passenger,
                 q = p
                 /\ (wp_type w = pickup ->
                     rp_location w
                     = {| lat := pickup_lat q; lng := pickup_lng q |})
                 /\ (wp_type w = dropoff ->
                     rp_location w
                     = {| lat := dropoff_lat q; lng := dropoff_lng q |})).
    { intros t w Hw.
      destruct (firstStopOf_elem _ _ _ _ Hw) as (Hin & Hid & _).
      rewrite Hstops in Hin.
      destruct (stop_of_rider riders w Hin) as (q & Hq & Hidq & Hlocs).
      exists q. split; [| exact Hlocs].
      apply (NoDup_fmap_elem_inj id riders q p Hids Hq Hp).
      rewrite <- Hidq. exact Hid. }
    destruct (Hloc pickup a Ha) as (q & -> & Hpick & _).
    destruct (Hloc dropoff b Hb) as (q & -> & _ & Hdrop).
    destruct (firstStopOf_elem _ _ _ _ Ha) as (_ & _ & Hkind).
    destruct (firstStopOf_elem _ _ _ _ Hb) as (_ & _ & Hkind').
    rewrite (Hpick Hkind), (Hdrop Hkind'). reflexivity.
Qed.

End EfficiencyScore.

(** ** Pool leases *)

(** A lease on pool_1 taken by request A at time 1000 with the default
    time to live: it expires at 31000. *)
Definition leaseOfA : Store.PoolLock :=
  {| Store.locked_by := "req_A"; Store.locked_at := 1000;
     Store.expires_at := 31000; Store.lock_version := 1 |}.

Definition dbWithLeaseOfA : Store.Db :=
  Store.with_pool_locks (insert "pool_1" leaseOfA) emptyDb.

Section LeaseFacts.
Import Store Concurrency.
Local Open Scope js_scope.

Lemma acquirePoolLock_always_grants (poolId lockerId : string)
  (options : LockOptions) (db : Db) :
  exists (handle : string) (db' : Db),
    acquirePoolLock poolId lockerId options db = (Returned (Some handle), db').
Proof.
  unfold acquirePoolLock, bind, try_catch, Date_now, randomSuffix,
    insertLockOrIgnore, ret. simpl.
  destruct (_ !! poolId); simpl; eauto.
Qed.

(** C2, evaluated.  [run()] reports [success] for the
    [INSERT ... ON CONFLICT DO NOTHING] whether or not a row was
    inserted, so [acquirePoolLock] returns a handle in every state; at
    time 2000 request B is handed a handle for pool_1 although the lease
    of request A runs until 31000, and that lease stays in the table. *)
Theorem acquirePoolLock_grants_handle_over_live_lease :
  (forall (poolId lockerId : string) (options : LockOptions) (db : Db),
      exists (handle : string) (db' : Db),
        acquirePoolLock poolId lockerId options db
        = (Returned (Some handle), db'))
  /\ db_pool_locks dbWithLeaseOfA !! "pool_1" = Some leaseOfA
  /\ (clock dbWithLeaseOfA < expires_at leaseOfA)%Z
  /\ exists db' : Db,
       acquirePoolLock "pool_1" "req_B" noOptions dbWithLeaseOfA
       = (Returned (Some "pool_1_2000_0"), db')
       /\ db_pool_locks db' !! "pool_1" = Some leaseOfA.
Proof.
  split; [apply acquirePoolLock_always_grants |].
  split; [vm_compute; reflexivity |].
  split; [vm_compute; reflexivity |].
  eexists. split.
  - vm_compute. reflexivity.
  - vm_compute. reflexivity.
Qed.

(** [releasePoolLock] never throws and leaves no lease of the releasing
    holder on the pool; the other tables are untouched. *)
Lemma releasePoolLock_spec (poolId lockerId : string) (db : Db) :
  exists db' : Db,
    releasePoolLock poolId lockerId db = (Returned true, db')
    /\ (forall l, db_pool_locks db' !! poolId = Some l ->
                  locked_by l <> lockerId)
    /\ db_passengers db' = db_passengers db
    /\ db_pools db' = db_pools db
    /\ db_waypoints db' = db_waypoints db.
Proof.
  unfold releasePoolLock, try_catch, bind, deleteLock, ret.
  destruct (db_pool_locks db !! poolId) as [existing |] eqn:E.
  - case_bool_decide as Hown.
    + eexists. split; [reflexivity |]. simpl. split.
      * intros l Hl. rewrite lookup_delete_eq in Hl. discriminate Hl.
      * auto.
    + eexists. split; [reflexivity |]. simpl. split.
      * intros l Hl. rewrite E in Hl. injection Hl as <-. exact Hown.
      * auto.
  - eexists. split; [reflexivity |]. simpl. split.
    + intros l Hl. rewrite E in Hl. discriminate Hl.
    + auto.
Qed.

(** The delays slept when every attempt from [attempt] on fails and
    [pauses] pauses follow: [retryDelayMs * (attempt + 1)], then one
    [retryDelayMs] more each time. *)
Fixpoint linearDelays (retryDelay : Z) (attempt : Z) (pauses : nat) : list Z :=
  match pauses with
  | O => []
  | S pauses' =>
      (retryDelay * (attempt + 1))%Z
      :: linearDelays retryDelay (attempt + 1) pauses'
  end.

Definition afterSleeping (delays : list Z) (db : Db) : Db :=
  foldl (fun db ms => (sleep ms db).2) db delays.

Lemma afterSleeping_pool_locks (delays : list Z) (db : Db) :
  db_pool_locks (afterSleeping delays db) = db_pool_locks db.
Proof.
  revert db. induction delays as [| ms delays IH]; intros db; [reflexivity |].
  unfold afterSleeping in *. simpl. rewrite IH. reflexivity.
Qed.

Section WithAcquire.

Variable acquire : string -> string -> LockOptions -> M (option string).
Variables poolId lockerId : string.
Variable options : LockOptions.

Lemma acquireWithRetries_all_fail :
  (forall db, acquire poolId lockerId options db = (Returned None, db)) ->
  forall (remaining : nat) (attempt : Z) (db : Db),
    (remaining = 0%nat
     \/ (attempt + Z.of_nat remaining = opt_maxRetries options)%Z) ->
    acquireWithRetries acquire poolId lockerId options remaining attempt db
    = (Returned None,
       afterSleeping
         (linearDelays (opt_retryDelayMs options) attempt (remaining - 1)) db).
Proof.
  intros Hbusy remaining.
  induction remaining as [| remaining' IH]; intros attempt db Hcount.
  - reflexivity.
  - destruct Hcount as [Hcount | Hcount]; [discriminate Hcount |].
    cbn [acquireWithRetries]. unfold bind at 1. rewrite Hbusy.
    destruct remaining' as [| remaining''].
    + assert (L : (attempt <? opt_maxRetries options - 1)%Z = false)
        by (apply Z.ltb_ge; lia).
      rewrite L. reflexivity.
    + assert (L : (attempt <? opt_maxRetries options - 1)%Z = true)
        by (apply Z.ltb_lt; lia).
      rewrite L. unfold bind at 1. cbn [sleep].
      rewrite IH by (right; lia).
      replace (S (S remaining'') - 1)%nat with (S remaining'') by lia.
      replace (S remaining'' - 1)%nat with remaining'' by lia.
      reflexivity.
Qed.

(** The state in which the loop makes its next attempt after [failed]
    attempts in a row came back without a handle, the first of them with
    loop counter [attempt] in state [db]: each of them is followed by a
    pause of [retryDelayMs * (attempt + 1)] ms.  [None] when one of these
    attempts returned a handle or threw. *)
Fixpoint afterFailedAttempts (failed : nat) (attempt : Z) (db : Db)
  : option Db :=
  match failed with
  | O => Some db
  | S failed' =>
      match acquire poolId lockerId options db with
      | (Returned None, db') =>
          afterFailedAttempts failed' (attempt + 1)
            (sleep (opt_retryDelayMs options * (attempt + 1)) db').2
      | _ => None
      end
  end.

(** As long as another attempt is due, the loop goes through the failed
    attempts and their pauses. *)
Lemma acquireWithRetries_after_failed (failed : nat) :
  forall (rest : nat) (attempt : Z) (db s : Db),
    afterFailedAttempts failed attempt db = Some s ->
    (attempt + Z.of_nat failed <= opt_maxRetries options - 1)%Z ->
    acquireWithRetries acquire poolId lockerId options (failed + rest)
      attempt db
    = acquireWithRetries acquire poolId lockerId options rest
        (attempt + Z.of_nat failed) s.
Proof.
  induction failed as [| failed IH]; intros rest attempt db s Hstate Hdue.
  - injection Hstate as <-. rewrite Z.add_0_r. reflexivity.
  - cbn [afterFailedAttempts] in Hstate.
    cbn [Nat.add acquireWithRetries]. unfold bind at 1.
    destruct (acquire poolId lockerId options db) as [[[handle |] | error] db'];
      try discriminate Hstate.
    assert (L : (attempt <? opt_maxRetries options - 1)%Z = true)
      by (apply Z.ltb_lt; lia).
    rewrite L. unfold bind at 1.
    destruct (sleep (opt_retryDelayMs options * (attempt + 1)) db')
      as [[[] | error] db''] eqn:Esleep; [| discriminate Esleep].
    cbn [snd] in Hstate.
    rewrite (IH rest (attempt + 1)%Z db'' s Hstate) by lia.
    replace (attempt + 1 + Z.of_nat failed)%Z
      with (attempt + Z.of_nat (S failed))%Z by lia.
    reflexivity.
Qed.

End WithAcquire.

(** With a handle in hand the operation runs and the lease is released
    after it on both exits. *)
Lemma runThenRelease_outcome {T : Type} (poolId lockerId : string)
  (operation : M T) (db1 : Db) :
  try_finally
    (try_catch (result <- operation ;; ret (Some result))
               (fun error => throw error))
    (releasePoolLock poolId lockerId) db1
  = (match (operation db1).1 with
     | Returned value => Returned (Some value)
     | Thrown error => Thrown error
     end,
     (releasePoolLock poolId lockerId (operation db1).2).2).
Proof.
  unfold try_finally, try_catch, bind, throw, ret.
  destruct (operation db1) as [[value | error] db2]; simpl;
    destruct (releasePoolLock_spec poolId lockerId db2)
      as (db3 & -> & _); reflexivity.
Qed.

(** C5.  [withPoolLock], over any acquisition primitive; the attempts are
    numbered from 0 and [maxRetries] of them are made at most.
    - An attempt that comes back without a handle is followed by a pause
      of [retryDelayMs * (attempt + 1)] ms and by the next attempt, as
      long as one is due.  When attempt [k] returns a handle, the
      operation runs once, in the state that attempt left, and
      [releasePoolLock] runs after it, whether the operation returned
      (its value is returned) or threw (its exception is rethrown);
      afterwards no lease of this holder remains on the pool.
    - When the last attempt comes back without a handle as well, the
      result is the "lease unavailable" value [None] in the state that
      attempt left: no further pause, the operation is not run, nothing
      is thrown.
    - An exception of the acquisition primitive leaves [withPoolLock].
    - When every attempt fails and leaves the state alone, the delays are
      [retryDelayMs * 1, retryDelayMs * 2, ...], [maxRetries - 1] of them
      (with the defaults: 50 then 100), and the lock table is as it was.
    With the acquisition of the service itself and an expiry that is a
    valid time value, [withPoolLock] runs the operation after the first
    attempt and releases after it when [maxRetries >= 1]; it returns
    [None] at once when [maxRetries <= 0]. *)
Theorem withPoolLock_retries_then_runs_and_releases
  (T : Type) (acquire : string -> string -> LockOptions -> M (option string))
  (poolId lockerId : string) (operation : M T) (options : LockOptions)
  (db : Db) :
  let stateBeforeAttempt :=
    fun k : nat => afterFailedAttempts acquire poolId lockerId options k 0 db in
  (forall (k : nat) (s s1 : Db) (handle : string),
      (Z.of_nat k < opt_maxRetries options)%Z ->
      stateBeforeAttempt k = Some s ->
      acquire poolId lockerId options s = (Returned (Some handle), s1) ->
      handle <> EmptyString ->
      withPoolLockVia acquire poolId lockerId operation options db
      = (match (operation s1).1 with
         | Returned value => Returned (Some value)
         | Thrown error => Thrown error
         end,
         (releasePoolLock poolId lockerId (operation s1).2).2)
      /\ forall l,
           db_pool_locks
             (withPoolLockVia acquire poolId lockerId operation options db).2
           !! poolId = Some l ->
           locked_by l <> lockerId)
  /\ (forall s s1 : Db,
        (1 <= opt_maxRetries options)%Z ->
        stateBeforeAttempt (Z.to_nat (opt_maxRetries options) - 1)%nat
        = Some s ->
        acquire poolId lockerId options s = (Returned None, s1) ->
        withPoolLockVia acquire poolId lockerId operation options db
        = (Returned None, s1))
  /\ (forall (k : nat) (s s1 : Db) (error : string),
        (Z.of_nat k < opt_maxRetries options)%Z ->
        stateBeforeAttempt k = Some s ->
        acquire poolId lockerId options s = (Thrown error, s1) ->
        withPoolLockVia acquire poolId lockerId operation options db
        = (Thrown error, s1))
  /\ ((forall db0, acquire poolId lockerId options db0 = (Returned None, db0)) ->
      withPoolLockVia acquire poolId lockerId operation options db
      = (Returned None,
         afterSleeping
           (linearDelays (opt_retryDelayMs options) 0
              (Z.to_nat (opt_maxRetries options) - 1)) db)
      /\ db_pool_locks
           (withPoolLockVia acquire poolId lockerId operation options db).2
         = db_pool_locks db)
  /\ ((1 <= opt_maxRetries options)%Z ->
      validTimeValue (clock db + opt_ttlSeconds options * 1000) = true ->
      exists handle db1,
        acquirePoolLock poolId lockerId options db
        = (Returned (Some handle), db1)
        /\ withPoolLock poolId lockerId operation options db
           = (match (operation db1).1 with
              | Returned value => Returned (Some value)
              | Thrown error => Thrown error
              end,
              (releasePoolLock poolId lockerId (operation db1).2).2))
  /\ ((opt_maxRetries options <= 0)%Z ->
      withPoolLock poolId lockerId operation options db = (Returned None, db))
  /\ linearDelays (opt_retryDelayMs noOptions) 0
       (Z.to_nat (opt_maxRetries noOptions) - 1) = [50; 100]%Z.
Proof.
  intros stateBeforeAttempt.
  assert (Hloop : forall (k rest : nat) (s : Db),
             stateBeforeAttempt k = Some s ->
             Z.to_nat (opt_maxRetries options) = (k + S rest)%nat ->
             acquireWithRetries acquire poolId lockerId options
               (Z.to_nat (opt_maxRetries options)) 0 db
             = acquireWithRetries acquire poolId lockerId options (S rest)
                 (Z.of_nat k) s).
  { intros k rest s Hstate Hcount. rewrite Hcount.
    rewrite (acquireWithRetries_after_failed acquire poolId lockerId options
               k (S rest) 0 db s Hstate) by lia.
    reflexivity. }
  split; [| split; [| split; [| split; [| split; [| split]]]]].
  - intros k s s1 handle Hk Hstate Hacquire _.
    assert (E : withPoolLockVia acquire poolId lockerId operation options db
                = (match (operation s1).1 with
                   | Returned value => Returned (Some value)
                   | Thrown error => Thrown error
                   end,
                   (releasePoolLock poolId lockerId (operation s1).2).2)).
    { unfold withPoolLockVia. unfold bind at 1.
      rewrite (Hloop k (Z.to_nat (opt_maxRetries options) - k - 1)%nat s
                 Hstate) by lia.
      cbn [acquireWithRetries]. unfold bind at 1. rewrite Hacquire.
      cbn [ret]. apply runThenRelease_outcome. }
    split; [exact E |]. rewrite E. simpl.
    destruct (releasePoolLock_spec poolId lockerId (operation s1).2)
      as (db3 & -> & Hfree & _).
    exact Hfree.
  - intros s s1 Hn Hstate Hacquire.
    unfold withPoolLockVia. unfold bind at 1.
    rewrite (Hloop (Z.to_nat (opt_maxRetries options) - 1)%nat 0%nat s Hstate)
      by lia.
    cbn [acquireWithRetries]. unfold bind at 1. rewrite Hacquire.
    assert (L : (Z.of_nat (Z.to_nat (opt_maxRetries options) - 1)
                 <? opt_maxRetries options - 1)%Z = false)
      by (apply Z.ltb_ge; lia).
    rewrite L. reflexivity.
  - intros k s s1 error Hk Hstate Hacquire.
    unfold withPoolLockVia. unfold bind at 1.
    rewrite (Hloop k (Z.to_nat (opt_maxRetries options) - k - 1)%nat s
               Hstate) by lia.
    cbn [acquireWithRetries]. unfold bind at 1. rewrite Hacquire.
    reflexivity.
  - intros Hbusy.
    assert (E : withPoolLockVia acquire poolId lockerId operation options db
                = (Returned None,
                   afterSleeping
                     (linearDelays (opt_retryDelayMs options) 0
                        (Z.to_nat (opt_maxRetries options) - 1)) db)).
    { unfold withPoolLockVia, bind.
      rewrite (acquireWithRetries_all_fail acquire poolId lockerId options
                 Hbusy).
      - reflexivity.
      - destruct (Z.to_nat (opt_maxRetries options)) eqn:N; [left | right];
          lia. }
    split; [exact E |]. rewrite E. apply afterSleeping_pool_locks.
  - intros Hretries _.
    destruct (acquirePoolLock_always_grants poolId lockerId options db)
      as (handle & db1 & Hacq).
    exists handle, db1. split; [exact Hacq |].
    unfold withPoolLock, withPoolLockVia.
    destruct (Z.to_nat (opt_maxRetries options)) as [| n] eqn:N; [lia |].
    cbn [acquireWithRetries]. unfold bind at 1. unfold bind at 1.
    rewrite Hacq. cbn [ret]. apply runThenRelease_outcome.
  - intros Hnone. unfold withPoolLock, withPoolLockVia.
    replace (Z.to_nat (opt_maxRetries options)) with 0%nat by lia.
    reflexivity.
  - reflexivity.
Qed.

(** A pool whose lease is never available. *)
Definition alwaysBusy (poolId lockerId : string) (options : LockOptions)
  : M (option string) := ret None.

(** The same, counting the attempts in the [entropy] field. *)
Definition busyCountingAttempts (poolId lockerId : string)
  (options : LockOptions) : M (option string) :=
  _ <- randomSuffix ;; ret None.

(** A lease that is handed out at the third attempt; the attempts are
    counted in the [entropy] field. *)
Definition grantedAtThirdAttempt (poolId lockerId : string)
  (options : LockOptions) : M (option string) :=
  _ <- randomSuffix ;;
  fun db =>
    (Returned (if (entropy db <? 3)%nat then None else Some "lease"), db).

(** With the default options a busy lease is tried three times, with
    pauses of 50 and 100 ms, and the operation (here a release of
    somebody else's lease, which would show) is not run. *)
Example withPoolLock_default_attempts :
  let outcome :=
    withPoolLockVia busyCountingAttempts "pool_1" "req_B"
      (deleteLock "pool_1" "req_A") noOptions dbWithLeaseOfA in
  outcome.1 = Returned None
  /\ entropy outcome.2 = 3%nat
  /\ sleeps outcome.2 = [50; 100]%Z
  /\ clock outcome.2 = (clock dbWithLeaseOfA + 150)%Z
  /\ db_pool_locks outcome.2 !! "pool_1" = Some leaseOfA.
Proof.
  cbv zeta. repeat split; vm_compute; reflexivity.
Qed.

(** Two failed attempts, pauses of 50 and 100 ms, a third attempt that
    succeeds: the operation (the removal of the lease of request A) has
    run. *)
Lemma withPoolLock_retries_then_runs_and_releases_witness :
  let outcome :=
    withPoolLockVia grantedAtThirdAttempt "pool_1" "req_B"
      (deleteLock "pool_1" "req_A") noOptions dbWithLeaseOfA in
  outcome.1 = Returned (Some {| success := true; changes := 1 |})
  /\ entropy outcome.2 = 3%nat
  /\ sleeps outcome.2 = [50; 100]%Z
  /\ db_pool_locks outcome.2 !! "pool_1" = None.
Proof.
  cbv zeta.
  set (s := default dbWithLeaseOfA
              (afterFailedAttempts grantedAtThirdAttempt "pool_1" "req_B"
                 noOptions 2 0 dbWithLeaseOfA)).
  set (s1 := (grantedAtThirdAttempt "pool_1" "req_B" noOptions s).2).
  destruct (withPoolLock_retries_then_runs_and_releases D1Result
              grantedAtThirdAttempt "pool_1" "req_B"
              (deleteLock "pool_1" "req_A") noOptions dbWithLeaseOfA)
    as [Hsuccess _].
  destruct (Hsuccess 2%nat s s1 "lease") as [Hrun _].
  - vm_compute. reflexivity.
  - vm_compute. reflexivity.
  - vm_compute. reflexivity.
  - discriminate.
  - rewrite Hrun. repeat split; vm_compute; reflexivity.
Defined.

End LeaseFacts.

(** ** The dispatch service *)

(** One rider with five pieces of luggage. *)
Definition heavy : Passenger := mkPassenger "heavy" 40.6413 40.7580 1 5 1000.

(** Three riders from the same terminal, luggage 1, 0 and 2. *)
Definition rider1 : Passenger := mkPassenger "rider_1" 40.6413 40.7580 1 1 1000.
Definition rider2 : Passenger := mkPassenger "rider_2" 40.6420 40.7585 1 0 2000.
Definition rider3 : Passenger := mkPassenger "rider_3" 40.6425 40.7590 1 2 3000.

(** Two parties of three seats each. *)
Definition party1 : Passenger := mkPassenger "party_1" 40.6413 40.7580 3 1 1000.
Definition party2 : Passenger := mkPassenger "party_2" 40.6420 40.7585 3 1 2000.

(** What a persisted pool says about its vehicle and its load:
    (vehicle_type, max_seats, max_luggage, current_seats,
    current_luggage). *)
Definition poolLoad (pool : Store.Pool)
  : VehicleType * Z * Z * Z * Z :=
  (Store.vehicle_type pool, Store.max_seats pool, Store.max_luggage pool,
   Store.current_seats pool, Store.current_luggage pool).

Definition totalSeatsOf (ps : list Passenger) : Z :=
  foldr Z.add 0%Z (seats_required <$> ps).
Definition totalLuggageOf (ps : list Passenger) : Z :=
  foldr Z.add 0%Z (luggage_count <$> ps).

(** The vehicle class table: Sedan (4, 3) < SUV (6, 5) < Van (8, 8). *)
Definition classRank (v : VehicleType) : nat :=
  match v with sedan => 0 | suv => 1 | van => 2 end.

Definition dominates (v : VehicleType) (seats luggage : Z) : Prop :=
  (seats <= (Matcher.getVehicleCapacity v).1)%Z
  /\ (luggage <= (Matcher.getVehicleCapacity v).2)%Z.

Section DispatchFacts.
Import Store Concurrency RidePooling.
Local Open Scope js_scope.

(** The selection of matcher.ts: the smallest class that holds both
    totals, and none when even the van does not. *)
Lemma matcher_picks_smallest_dominating_class (seats luggage : Z) :
  match Matcher.determineVehicleType seats luggage with
  | Some v =>
      dominates v seats luggage
      /\ forall v', dominates v' seats luggage ->
                    (classRank v <= classRank v')%nat
  | None => forall v', ~ dominates v' seats luggage
  end.
Proof.
  unfold Matcher.determineVehicleType, dominates.
  repeat match goal with
         | |- context [(?a <=? ?b)%Z] => destruct (Z.leb_spec a b)
         end; simpl;
    try (split; [simpl; lia | intros []; simpl; lia]);
    try (intros []; simpl; lia).
Qed.

Lemma both_services_share_the_capacity_table (v : VehicleType) :
  getVehicleCapacity v = Matcher.getVehicleCapacity v.
Proof. destruct v; reflexivity. Qed.

(** C3, evaluated.  A matching cycle over the single rider [heavy]
    (1 seat, 5 pieces of luggage) commits a pool of class sedan with
    [max_luggage = 3] and [current_luggage = 5]: the pool breaks
    [currentLuggage <= maxLuggage] right after the commit.  The matcher
    had planned the route for an SUV. *)
Theorem match_commit_overfills_sedan_luggage :
  let outcome :=
    matchPendingPassengers meridianDistance meridianBearing (dbOf [heavy]) in
  outcome.1 = Returned {| matched_count := 1; pools_created := 1 |}
  /\ poolLoad <$> db_pools outcome.2 !! "pool_2000_0"
     = Some (sedan, 4, 3, 1, 5)%Z
  /\ Matcher.determineVehicleType (totalSeatsOf [heavy])
       (totalLuggageOf [heavy]) = Some suv.
Proof.
  cbv zeta. split; [| split].
  - vm_compute. reflexivity.
  - vm_compute. reflexivity.
  - reflexivity.
Qed.

(** C4, evaluated.  The matcher selects the smallest class that holds
    the totals, but the commit does not persist that class.  For the
    three riders (3 seats, 3 pieces of luggage in all) the smallest
    dominating class is sedan, and the committed pool is an SUV with
    capacity (6, 5); for the two parties (6 seats in all) the smallest
    dominating class is SUV, and the committed pool is a sedan with
    capacity (4, 3), which does not even hold them.  The service picks
    the class from the number of passengers alone. *)
Theorem match_commit_picks_class_by_head_count :
  let trio :=
    matchPendingPassengers meridianDistance meridianBearing
      (dbOf [rider1; rider2; rider3]) in
  let pair :=
    matchPendingPassengers meridianDistance meridianBearing
      (dbOf [party1; party2]) in
  (forall (seats luggage : Z) (v : VehicleType),
      Matcher.determineVehicleType seats luggage = Some v ->
      dominates v seats luggage
      /\ forall v', dominates v' seats luggage ->
                    (classRank v <= classRank v')%nat)
  /\ (Matcher.determineVehicleType (totalSeatsOf [rider1; rider2; rider3])
        (totalLuggageOf [rider1; rider2; rider3]) = Some sedan
      /\ trio.1 = Returned {| matched_count := 3; pools_created := 1 |}
      /\ poolLoad <$> db_pools trio.2 !! "pool_2000_0"
         = Some (suv, 6, 5, 3, 3)%Z)
  /\ (Matcher.determineVehicleType (totalSeatsOf [party1; party2])
        (totalLuggageOf [party1; party2]) = Some suv
      /\ pair.1 = Returned {| matched_count := 2; pools_created := 1 |}
      /\ poolLoad <$> db_pools pair.2 !! "pool_2000_0"
         = Some (sedan, 4, 3, 2, 2)%Z
      /\ ~ dominates sedan (totalSeatsOf [party1; party2])
            (totalLuggageOf [party1; party2]))
  /\ forall n : Z,
       determineVehicleType n
       = if (n <=? 2)%Z then sedan else if (n <=? 4)%Z then suv else van.
Proof.
  cbv zeta. split; [| split; [| split]].
  - intros seats luggage v Hv.
    pose proof (matcher_picks_smallest_dominating_class seats luggage) as H.
    rewrite Hv in H. exact H.
  - split; [reflexivity |]. split; vm_compute; reflexivity.
  - split; [reflexivity |]. split; [vm_compute; reflexivity |].
    split; [vm_compute; reflexivity |].
    intros [Hseats _]. vm_compute in Hseats. apply Hseats. reflexivity.
  - intros n. reflexivity.
Qed.

(** C8.  When the passenger row read by [cancelRideRequest] is in state
    Cancelled or Completed, the call returns [{ success: false }] as a
    value and every table, the clock and the sleep log are as before. *)
Theorem cancel_of_terminal_passenger_is_refused
  (db : Db) (passengerId : string) (reason : option string) (p : Passenger) :
  List.find (fun q => bool_decide (id q = passengerId)) (db_passengers db)
  = Some p ->
  status p = cancelled \/ status p = completed ->
  exists db' : Db,
    cancelRideRequest passengerId reason db
    = (Returned {| cancel_success := false; refund_amount := None |}, db')
    /\ db_passengers db' = db_passengers db
    /\ db_pools db' = db_pools db
    /\ db_waypoints db' = db_waypoints db
    /\ db_pool_locks db' = db_pool_locks db
    /\ clock db' = clock db
    /\ sleeps db' = sleeps db.
Proof.
  intros Hrow Hstate.
  unfold cancelRideRequest, generateRequestId, selectPassenger, bind,
    Date_now, randomSuffix, ret.
  cbn [db_passengers]. rewrite Hrow.
  destruct Hstate as [-> | ->]; eexists; (split; [reflexivity |]);
    simpl; auto 10.
Qed.

Definition gone : Passenger :=
  {| id := "gone"; user_id := "user_gone";
     pickup_lat := 40.6413; pickup_lng := -73.78;
     dropoff_lat := 40.7580; dropoff_lng := -73.78;
     luggage_count := 1; seats_required := 1;
     max_detour_minutes := 15; detour_tolerance := 1.5;
     status := cancelled; pool_id := None; requested_at := 1000;
     matched_at := None; cancelled_at := Some 1500%Z;
     cancellation_reason := Some "User cancelled"; base_price := Some 20;
     final_price := None; surge_multiplier := 1 |}.

Lemma cancel_of_terminal_passenger_is_refused_witness :
  exists db' : Db,
    cancelRideRequest "gone" None (dbOf [gone])
    = (Returned {| cancel_success := false; refund_amount := None |}, db')
    /\ db_passengers db' = [gone].
Proof.
  destruct (cancel_of_terminal_passenger_is_refused (dbOf [gone]) "gone"
              None gone eq_refl (or_introl eq_refl))
    as (db' & Hres & Hps & _).
  exists db'. split; [exact Hres | exact Hps].
Defined.

End DispatchFacts.

(** * Further properties of the modelled code *)

(** ** Route planner: what the greedy construction guarantees *)

(** The load on board after a sequence of stops, read from the
    constraint table as [greedyRouteConstruction] does: (seats,
    luggage). *)
Definition boardStep (constraints : RouteOptimizer.RouteConstraints)
  (load : Z * Z) (w : RoutePoint) : Z * Z :=
  let constraint :=
    RouteOptimizer.passengerConstraints constraints !! passenger_id w in
  let seats := default 0%Z (RouteOptimizer.seatsRequired <$> constraint) in
  let luggage := default 0%Z (RouteOptimizer.luggageCount <$> constraint) in
  match wp_type w with
  | pickup => (load.1 + seats, load.2 + luggage)%Z
  | dropoff => (load.1 - seats, load.2 - luggage)%Z
  end.

Definition loadAfter (constraints : RouteOptimizer.RouteConstraints)
  (ws : list RoutePoint) : Z * Z :=
  foldl (boardStep constraints) (0, 0)%Z ws.

Section GreedyGuarantees.
Import RouteOptimizer.

Variable haversineDistance : Location -> Location -> Q.
Variable constraints : RouteConstraints.

(** The legs of the tour that starts at [from] and visits [ws], in the
    order they are driven. *)
Fixpoint legDistances (from : Location) (ws : list RoutePoint) : list Q :=
  match ws with
  | [] => []
  | w :: rest => haversineDistance from w :: legDistances w rest
  end.

Definition lastStop (from : Location) (ws : list RoutePoint) : Location :=
  match last ws with
  | Some w => rp_location w
  | None => from
  end.

Lemma legDistances_snoc (ws : list RoutePoint) :
  forall (from : Location) (w : RoutePoint),
    legDistances from (ws ++ [w])
    = legDistances from ws ++ [haversineDistance (lastStop from ws) w].
Proof.
  induction ws as [| x ws IH]; intros from w.
  - reflexivity.
  - cbn [app legDistances]. rewrite IH.
    replace (lastStop from (x :: ws)) with (lastStop x ws); [reflexivity |].
    unfold lastStop. destruct ws as [| y ws']; [reflexivity |].
    rewrite (last_cons_cons x y ws').
    destruct (last (y :: ws')) eqn:E; [reflexivity |].
    apply last_None in E. discriminate E.
Qed.

Lemma lastStop_snoc (from : Location) (ws : list RoutePoint) (w : RoutePoint) :
  lastStop from (ws ++ [w]) = rp_location w.
Proof. unfold lastStop. rewrite last_snoc. reflexivity. Qed.

(** What one iteration of the greedy loop selects. *)
Lemma greedyStep_selected (st st' : GreedyState) :
  greedyStep haversineDistance constraints st = Some st' ->
  exists (idx : nat) (w : RoutePoint),
    unvisited st !! idx = Some w
    /\ isValidNextWaypoint w (pickedUp st) (currentSeats st)
         (currentLuggage st) constraints = true
    /\ route st' = route st ++ [w]
    /\ unvisited st' = delete idx (unvisited st)
    /\ currentLocation st' = rp_location w
    /\ (currentSeats st', currentLuggage st')
       = boardStep constraints (currentSeats st, currentLuggage st) w
    /\ totalDistance st'
       = totalDistance st + haversineDistance (currentLocation st) w
    /\ totalTime st'
       = totalTime st
         + estimateTravelTime (haversineDistance (currentLocation st) w).
Proof.
  unfold greedyStep. intros Hstep.
  pose proof (findNearestValid_invariant haversineDistance (currentLocation st)
                (pickedUp st) (currentSeats st) (currentLuggage st)
                constraints (unvisited st) 0%nat None) as Inv.
  destruct (findNearestValid haversineDistance (currentLocation st)
              (pickedUp st) (currentSeats st) (currentLuggage st) constraints
              (unvisited st) 0 None) as [[[idx w] d] |]; [| discriminate].
  injection Hstep as <-.
  destruct Inv as [[Eb _] | (k & Hidx & Hk & Hvalid & Hd & _)];
    [discriminate Eb |].
  simpl in Hidx. subst k. subst d.
  exists idx, w. cbn.
  split; [exact Hk |]. split; [exact Hvalid |].
  split; [reflexivity |]. split; [reflexivity |]. split; [reflexivity |].
  split; [| split; reflexivity].
  unfold boardStep. cbn. destruct (wp_type w); reflexivity.
Qed.

(** The state kept by the loop, as a statement about the route built so
    far. *)
Record GreedyInvariant (start : Location) (ws0 : list RoutePoint)
  (st : GreedyState) : Prop := {
  inv_visits : route st ++ unvisited st ≡ₚ ws0;
  inv_location : currentLocation st = lastStop start (route st);
  inv_load : (currentSeats st, currentLuggage st)
             = loadAfter constraints (route st);
  inv_distance :
    totalDistance st = foldl Qplus 0 (legDistances start (route st));
  inv_time :
    totalTime st
    = foldl (fun time leg => time + estimateTravelTime leg) 0
        (legDistances start (route st));
  inv_constrained :
    forall w, w ∈ route st -> wp_type w = pickup ->
      is_Some (passengerConstraints constraints !! passenger_id w);
  inv_capacity :
    (forall pid c, passengerConstraints constraints !! pid = Some c ->
                   (0 <= seatsRequired c)%Z /\ (0 <= luggageCount c)%Z) ->
    forall k, (0 < k <= length (route st))%nat ->
      ((loadAfter constraints (take k (route st))).1 <= maxSeats constraints)%Z
      /\ ((loadAfter constraints (take k (route st))).2
          <= maxLuggage constraints)%Z
}.

Lemma greedyStep_keeps_invariant (start : Location) (ws0 : list RoutePoint)
  (st st' : GreedyState) :
  greedyStep haversineDistance constraints st = Some st' ->
  boardedInRoute st ->
  GreedyInvariant start ws0 st ->
  GreedyInvariant start ws0 st'.
Proof.
  intros Hstep Hboard [Hvis Hloc Hload Hdist Htime Hcons Hcap].
  destruct (greedyStep_selected st st' Hstep)
    as (idx & w & Hw & Hvalid & Hroute & Hunv & Hloc' & Hload' & Hd' & Ht').
  split.
  - rewrite Hroute, Hunv, <- Hvis, <- app_assoc. simpl.
    apply Permutation_app_head. symmetry. apply delete_Permutation. exact Hw.
  - rewrite Hloc', Hroute, lastStop_snoc. reflexivity.
  - rewrite Hload', Hroute. unfold loadAfter. rewrite foldl_app. simpl.
    fold (loadAfter constraints (route st)). rewrite <- Hload. reflexivity.
  - rewrite Hd', Hroute, legDistances_snoc, foldl_app, Hdist, Hloc.
    reflexivity.
  - rewrite Ht', Hroute, legDistances_snoc, foldl_app, Htime, Hloc.
    reflexivity.
  - intros x Hx Hpick. rewrite Hroute in Hx.
    apply elem_of_app in Hx as [Hx | Hx]; [apply (Hcons x Hx Hpick) |].
    apply list_elem_of_singleton in Hx. subst x.
    unfold isValidNextWaypoint in Hvalid. rewrite Hpick in Hvalid.
    destruct (passengerConstraints constraints !! passenger_id w);
      [eexists; reflexivity | discriminate Hvalid].
  - intros Hnonneg k Hk. rewrite Hroute in Hk |- *.
    rewrite length_app in Hk. simpl in Hk.
    destruct (decide (k <= length (route st))%nat) as [Hle | Hgt].
    + rewrite take_app_le by exact Hle. apply (Hcap Hnonneg). lia.
    + assert (k = (length (route st) + 1)%nat) by lia. subst k.
      rewrite take_ge by (rewrite length_app; simpl; lia).
      unfold loadAfter. rewrite foldl_app. simpl.
      fold (loadAfter constraints (route st)). rewrite <- Hload.
      unfold isValidNextWaypoint in Hvalid. unfold boardStep. simpl.
      destruct (wp_type w) eqn:Ht.
      * destruct (passengerConstraints constraints !! passenger_id w)
          as [c |]; [| discriminate Hvalid]. simpl.
        destruct (Z.ltb_spec (maxSeats constraints)
                    (currentSeats st + seatsRequired c));
          [discriminate Hvalid |].
        destruct (Z.ltb_spec (maxLuggage constraints)
                    (currentLuggage st + luggageCount c));
          [discriminate Hvalid |].
        split; lia.
      * apply bool_decide_eq_true in Hvalid.
        destruct (Hboard _ Hvalid) as (j & w' & Hj & _).
        pose proof (lookup_lt_Some _ _ _ Hj) as Hlen.
        destruct (Hcap Hnonneg (length (route st))) as [Hs Hl]; [lia |].
        rewrite take_ge in Hs, Hl by lia. rewrite <- Hload in Hs, Hl.
        simpl in Hs, Hl.
        destruct (passengerConstraints constraints !! passenger_id w)
          as [c |] eqn:Ec; simpl; [| split; lia].
        destruct (Hnonneg _ _ Ec). split; lia.
Qed.

Lemma greedyLoop_keeps_invariant (start : Location) (ws0 : list RoutePoint)
  (fuel : nat) :
  forall st st' : GreedyState,
    greedyLoop haversineDistance fuel constraints st = Some st' ->
    pickupBeforeDropoff (route st) /\ boardedInRoute st ->
    GreedyInvariant start ws0 st ->
    GreedyInvariant start ws0 st' /\ unvisited st' = [].
Proof.
  induction fuel as [| fuel IH]; intros st st' Hloop Hprec Hinv.
  - simpl in Hloop. destruct (unvisited st) eqn:U; [| discriminate Hloop].
    injection Hloop as <-. split; [exact Hinv | exact U].
  - simpl in Hloop. destruct (unvisited st) eqn:U.
    + injection Hloop as <-. split; [exact Hinv | exact U].
    + destruct (greedyStep haversineDistance constraints st) as [st1 |] eqn:S1;
        [| discriminate Hloop].
      apply (IH st1 st' Hloop).
      * apply (greedyStep_keeps_precedence haversineDistance constraints
                 st st1 S1 Hprec).
      * apply (greedyStep_keeps_invariant start ws0 st st1 S1);
          [apply Hprec | exact Hinv].
Qed.

Lemma greedy_result_invariant (ws0 : list RoutePoint) (start : Location)
  (result : OptimizedRoute) :
  greedyRouteConstruction haversineDistance ws0 start constraints
  = Some result ->
  exists st : GreedyState,
    GreedyInvariant start ws0 st /\ unvisited st = []
    /\ waypoints result = route st
    /\ total_distance result = totalDistance st
    /\ total_time result = totalTime st
    /\ detours result
       = calculateDetours haversineDistance (route st) constraints
    /\ detoursWithinTolerance constraints (detours result) = true.
Proof.
  unfold greedyRouteConstruction. intros H.
  destruct (greedyLoop haversineDistance (length ws0) constraints _)
    as [st |] eqn:L; [| discriminate H].
  destruct (detoursWithinTolerance constraints _) eqn:D; [| discriminate H].
  injection H as <-. exists st. cbn.
  assert (Hprec0 : pickupBeforeDropoff [] /\ boardedInRoute
            {| route := []; unvisited := ws0; pickedUp := ∅;
               currentLocation := start; currentSeats := 0;
               currentLuggage := 0; totalDistance := 0; totalTime := 0 |}).
  { split.
    + intros i w Hi. discriminate Hi.
    + intros pid Hpid. cbn in Hpid. apply elem_of_empty in Hpid.
      contradiction. }
  assert (Hinv0 : GreedyInvariant start ws0
            {| route := []; unvisited := ws0; pickedUp := ∅;
               currentLocation := start; currentSeats := 0;
               currentLuggage := 0; totalDistance := 0; totalTime := 0 |}).
  { split; cbn.
    + reflexivity.
    + reflexivity.
    + reflexivity.
    + reflexivity.
    + reflexivity.
    + intros w Hw. apply elem_of_nil in Hw. contradiction.
    + intros _ k Hk. simpl in Hk. lia. }
  destruct (greedyLoop_keeps_invariant start ws0 _ _ _ L Hprec0 Hinv0)
    as [Hinv Hunv].
  split; [exact Hinv |]. split; [exact Hunv |].
  split; [reflexivity |]. split; [reflexivity |]. split; [reflexivity |].
  split; [reflexivity | exact D].
Qed.

End GreedyGuarantees.

(** ** Route planner: what 2-opt keeps *)

Lemma foldl_invariant {A B : Type} (Inv : A -> Prop) (f : A -> B -> A)
  (l : list B) :
  (forall acc x, x ∈ l -> Inv acc -> Inv (f acc x)) ->
  forall a, Inv a -> Inv (foldl f a l).
Proof.
  induction l as [| x l IH]; intros Hstep a Ha; [exact Ha |].
  simpl. apply IH.
  - intros acc y Hy. apply Hstep. apply elem_of_cons. right. exact Hy.
  - apply Hstep; [apply elem_of_cons; left; reflexivity | exact Ha].
Qed.

Section TwoOptGuarantees.
Import RouteOptimizer.

Variable haversineDistance : Location -> Location -> Q.
Variable constraints : RouteConstraints.

Lemma reverseSegment_Permutation (ws : list RoutePoint) (i j : nat) :
  (i <= j)%nat -> reverseSegment ws i j ≡ₚ ws.
Proof.
  intros Hij. unfold reverseSegment.
  replace (drop (j + 1) ws) with (drop (j - i) (drop (i + 1) ws))
    by (rewrite drop_drop; f_equal; lia).
  rewrite reverse_Permutation, take_drop, take_drop. reflexivity.
Qed.

Lemma reverseSegment_head (ws : list RoutePoint) (i j : nat) :
  head (reverseSegment ws i j) = head ws.
Proof.
  unfold reverseSegment. replace (i + 1)%nat with (S i) by lia.
  destruct ws as [| w ws].
  - rewrite !take_nil, !drop_nil, take_nil. reflexivity.
  - reflexivity.
Qed.

(** A route that 2-opt has adopted carries its own path length (the leg
    from the start location is not part of it), the time of that length
    and the detours computed on it, all within tolerance. *)
Definition adopted (r : OptimizedRoute) : Prop :=
  total_distance r = pathDistance haversineDistance (waypoints r)
  /\ total_time r = estimateTravelTime (total_distance r)
  /\ detours r = calculateDetours haversineDistance (waypoints r) constraints
  /\ detoursWithinTolerance constraints (detours r) = true.

(** [r] is what 2-opt may turn [r0] into. *)
Definition refines (r0 r : OptimizedRoute) : Prop :=
  waypoints r ≡ₚ waypoints r0
  /\ head (waypoints r) = head (waypoints r0)
  /\ (r = r0 \/ (adopted r /\ total_distance r < total_distance r0)).

Lemma refines_refl (r : OptimizedRoute) : refines r r.
Proof. split; [reflexivity |]. split; [reflexivity | left; reflexivity]. Qed.

Lemma tryReversal_refines (r0 best better : OptimizedRoute) (i j : nat) :
  (i <= j)%nat ->
  tryReversal haversineDistance constraints best i j = Some better ->
  refines r0 best -> refines r0 better.
Proof.
  unfold tryReversal. intros Hij Htry (Hperm & Hhead & Hcase).
  destruct (Qltb (pathDistance haversineDistance
                    (reverseSegment (waypoints best) i j))
              (total_distance best)) eqn:L; [| discriminate Htry].
  destruct (detoursWithinTolerance constraints _) eqn:D; [| discriminate Htry].
  injection Htry as <-. apply Qltb_lt in L.
  split; [| split].
  - cbn. rewrite reverseSegment_Permutation by exact Hij. exact Hperm.
  - cbn. rewrite reverseSegment_head. exact Hhead.
  - right. split.
    + unfold adopted. cbn. repeat split; try reflexivity; exact D.
    + cbn. destruct Hcase as [-> | [_ Hlt]]; [exact L | lra].
Qed.

Lemma twoOptPass_refines (r0 best : OptimizedRoute) :
  refines r0 best ->
  refines r0 (twoOptPass haversineDistance constraints best).1
  /\ ((twoOptPass haversineDistance constraints best).2 = false ->
      (twoOptPass haversineDistance constraints best).1 = best).
Proof.
  intros Hbest. unfold twoOptPass.
  set (n := length (waypoints best)).
  apply (foldl_invariant
           (fun acc : OptimizedRoute * bool =>
              refines r0 acc.1 /\ (acc.2 = false -> acc.1 = best))).
  - intros acc i Hi Hacc.
    apply (foldl_invariant
             (fun acc : OptimizedRoute * bool =>
                refines r0 acc.1 /\ (acc.2 = false -> acc.1 = best)));
      [| exact Hacc].
    intros acc' j Hj [Href Hflag]. apply elem_of_seq in Hj.
    unfold twoOptInner.
    destruct (tryReversal haversineDistance constraints acc'.1 i j)
      as [better |] eqn:T.
    + split; [| intros Hf; discriminate Hf].
      apply (tryReversal_refines r0 acc'.1 better i j); [lia | exact T |].
      exact Href.
    + split; assumption.
  - split; [exact Hbest | reflexivity].
Qed.

Lemma twoOptLoop_refines (iterationsLeft : nat) :
  forall r0 best : OptimizedRoute,
    refines r0 best ->
    refines r0 (twoOptLoop haversineDistance iterationsLeft constraints best).
Proof.
  induction iterationsLeft as [| k IH]; intros r0 best Hbest; [exact Hbest |].
  simpl.
  destruct (twoOptPass_refines r0 best Hbest) as [Href _].
  destruct (twoOptPass haversineDistance constraints best) as [best' improved].
  simpl in Href. destruct improved; [apply IH |]; exact Href.
Qed.

End TwoOptGuarantees.

(** ** Route planner: the returned routes *)

Section RoutePlannerGuarantees.
Import RouteOptimizer.

Variable haversineDistance : Location -> Location -> Q.
Variable constraints : RouteConstraints.

(** X1.  A successful greedy construction visits every waypoint it was given
    exactly once: the route is a rearrangement of the input.  It can only
    succeed when every pickup's passenger has an entry in
    [passengerConstraints]; one passenger without constraints makes the
    whole construction return [null]. *)
Theorem greedy_route_visits_every_waypoint_once
  (ws0 : list RoutePoint) (startLocation : Location) (result : OptimizedRoute) :
  greedyRouteConstruction haversineDistance ws0 startLocation constraints
  = Some result ->
  waypoints result ≡ₚ ws0
  /\ forall w : RoutePoint,
       w ∈ ws0 -> wp_type w = pickup ->
       is_Some (passengerConstraints constraints !! passenger_id w).
Proof.
  intros H.
  destruct (greedy_result_invariant haversineDistance constraints ws0
              startLocation result H)
    as (st & Hinv & Hunv & Hway & _).
  destruct Hinv as [Hvis _ _ _ _ Hcons _].
  rewrite Hunv, app_nil_r in Hvis. rewrite Hway.
  split; [exact Hvis |].
  intros w Hw. apply Hcons. rewrite Hvis. exact Hw.
Qed.

(** X2.  With seat and luggage counts that are not negative, the load on
    board after every stop of a greedy route is within [maxSeats] and
    [maxLuggage]. *)
Theorem greedy_route_respects_vehicle_capacity
  (ws0 : list RoutePoint) (startLocation : Location) (result : OptimizedRoute) :
  greedyRouteConstruction haversineDistance ws0 startLocation constraints
  = Some result ->
  (forall (pid : string) (c : PassengerConstraint),
      passengerConstraints constraints !! pid = Some c ->
      (0 <= seatsRequired c)%Z /\ (0 <= luggageCount c)%Z) ->
  forall k : nat,
    (0 < k <= length (waypoints result))%nat ->
    ((loadAfter constraints (take k (waypoints result))).1
     <= maxSeats constraints)%Z
    /\ ((loadAfter constraints (take k (waypoints result))).2
        <= maxLuggage constraints)%Z.
Proof.
  intros H Hnonneg.
  destruct (greedy_result_invariant haversineDistance constraints ws0
              startLocation result H)
    as (st & Hinv & _ & Hway & _).
  destruct Hinv as [_ _ _ _ _ _ Hcap].
  rewrite Hway. exact (Hcap Hnonneg).
Qed.

(** X3.  The totals of a greedy route are accumulated leg by leg, from
    zero and in the order the legs are driven, the leg from the start
    location to the first stop included: [total_distance] adds up the
    distances of the legs, and [total_time] adds up the travel time of
    each leg. *)
Theorem greedy_route_totals
  (ws0 : list RoutePoint) (startLocation : Location) (result : OptimizedRoute) :
  greedyRouteConstruction haversineDistance ws0 startLocation constraints
  = Some result ->
  let legs := legDistances haversineDistance startLocation (waypoints result) in
  total_distance result = foldl Qplus 0 legs
  /\ total_time result
     = foldl (fun time leg => time + estimateTravelTime leg) 0 legs.
Proof.
  intros H.
  destruct (greedy_result_invariant haversineDistance constraints ws0
              startLocation result H)
    as (st & Hinv & _ & Hway & Hd & Ht & _).
  destruct Hinv as [_ _ _ Hdist Htime _ _].
  rewrite Hway, Hd, Ht. split; [exact Hdist | exact Htime].
Qed.

(** X4.  2-opt returns a rearrangement of the route it was given with the
    same first stop.  Either it returns the route unchanged, or the
    result is strictly shorter than the [total_distance] it started
    from and carries the figures of an adopted candidate: the sum of the
    legs between its waypoints (without the leg from the start
    location), the travel time of that sum, and the detours computed on
    its own order, all within tolerance. *)
Theorem twoOpt_keeps_stops_and_never_lengthens
  (route0 : OptimizedRoute) :
  let improved := twoOptOptimization haversineDistance route0 constraints in
  waypoints improved ≡ₚ waypoints route0
  /\ head (waypoints improved) = head (waypoints route0)
  /\ total_distance improved <= total_distance route0
  /\ (improved = route0
      \/ (total_distance improved < total_distance route0
          /\ total_distance improved
             = pathDistance haversineDistance (waypoints improved)
          /\ total_time improved = estimateTravelTime (total_distance improved)
          /\ detours improved
             = calculateDetours haversineDistance (waypoints improved)
                 constraints
          /\ detoursWithinTolerance constraints (detours improved) = true)).
Proof.
  cbv zeta. unfold twoOptOptimization.
  destruct (twoOptLoop_refines haversineDistance constraints MAX_ITERATIONS
              route0 route0 (refines_refl haversineDistance constraints route0))
    as (Hperm & Hhead & Hcase).
  split; [exact Hperm |]. split; [exact Hhead |].
  destruct Hcase as [-> | [(A1 & A2 & A3 & A4) Hlt]].
  - split; [lra | left; reflexivity].
  - split; [lra | right]. tauto.
Qed.

Lemma flat_map_passengerWaypoints_length (passengers : list Passenger) :
  length (flat_map passengerWaypoints passengers)
  = (2 * length passengers)%nat.
Proof.
  induction passengers as [| p ps IH]; [reflexivity |].
  simpl. rewrite IH. lia.
Qed.

Lemma detoursWithinTolerance_spec (ds : gmap string Q) :
  detoursWithinTolerance constraints ds = true ->
  forall (pid : string) (d : Q) (c : PassengerConstraint),
    ds !! pid = Some d ->
    passengerConstraints constraints !! pid = Some c ->
    d <= maxDetourMinutes c.
Proof.
  unfold detoursWithinTolerance. intros H pid d c Hd Hc.
  rewrite forallb_forall in H.
  specialize (H (pid, d)). simpl in H. rewrite Hc in H.
  assert (Hin : In (pid, d) (map_to_list ds)).
  { apply list_elem_of_In. apply elem_of_map_to_list. exact Hd. }
  specialize (H Hin). apply negb_true_iff in H.
  unfold Qgtb in H. apply Qltb_ge in H. exact H.
Qed.

Lemma optimizeRoute_checked
  (passengers : list Passenger) (startLocation : Location)
  (planned : OptimizedRoute) :
  optimizeRoute haversineDistance passengers startLocation constraints
  = Some planned ->
  waypoints planned ≡ₚ flat_map passengerWaypoints passengers
  /\ length (waypoints planned) = (2 * length passengers)%nat
  /\ (forall w : RoutePoint,
        head (waypoints planned) = Some w -> wp_type w = pickup)
  /\ detours planned
     = calculateDetours haversineDistance (waypoints planned) constraints
  /\ forall (pid : string) (d : Q) (c : PassengerConstraint),
       detours planned !! pid = Some d ->
       passengerConstraints constraints !! pid = Some c ->
       d <= maxDetourMinutes c.
Proof.
  unfold optimizeRoute. intros H.
  destruct (greedyRouteConstruction haversineDistance
              (flat_map passengerWaypoints passengers) startLocation
              constraints) as [result |] eqn:G; [| discriminate H].
  injection H as <-.
  destruct (greedy_result_invariant haversineDistance constraints _ _ _ G)
    as (st & Hinv & Hunv & Hway & _ & _ & Hdet & Hwithin).
  destruct Hinv as [Hvis _ _ _ _ _ _].
  rewrite Hunv, app_nil_r, <- Hway in Hvis. rewrite <- Hway in Hdet.
  pose proof (greedy_route_has_pickup_before_dropoff haversineDistance
                constraints _ _ _ G) as Hprec.
  unfold twoOptOptimization.
  destruct (twoOptLoop_refines haversineDistance constraints MAX_ITERATIONS
              result result (refines_refl haversineDistance constraints result))
    as (Hperm & Hhead & Hcase).
  set (planned := twoOptLoop haversineDistance MAX_ITERATIONS constraints
                    result) in *.
  assert (Hall : waypoints planned ≡ₚ flat_map passengerWaypoints passengers).
  { rewrite Hperm. exact Hvis. }
  split; [exact Hall |].
  split; [rewrite Hall; apply flat_map_passengerWaypoints_length |].
  split.
  { intros w Hw. rewrite Hhead in Hw.
    destruct (wp_type w) eqn:Ht; [reflexivity |].
    assert (H0 : waypoints result !! 0%nat = Some w).
    { destruct (waypoints result); [discriminate Hw | exact Hw]. }
    destruct (Hprec 0%nat w H0 Ht) as (j & _ & Hj & _). lia. }
  assert (Hfigures :
    detours planned
    = calculateDetours haversineDistance (waypoints planned) constraints
    /\ detoursWithinTolerance constraints (detours planned) = true).
  { destruct Hcase as [-> | [(_ & _ & A3 & A4) _]]; split; assumption. }
  destruct Hfigures as [F1 F2].
  split; [exact F1 |].
  apply detoursWithinTolerance_spec. exact F2.
Qed.

(** X5.  What [optimizeRoute] returns when it returns a route: two stops per
    passenger, a rearrangement of the passengers' pickups and dropoffs;
    the first stop is a pickup; the detours are those of the returned
    order, and no passenger's detour exceeds that passenger's
    [maxDetourMinutes]. *)
Theorem optimizeRoute_returns_checked_rearrangement
  (passengers : list Passenger) (startLocation : Location)
  (planned : OptimizedRoute) :
  optimizeRoute haversineDistance passengers startLocation constraints
  = Some planned ->
  waypoints planned ≡ₚ flat_map passengerWaypoints passengers
  /\ length (waypoints planned) = (2 * length passengers)%nat
  /\ (forall w : RoutePoint,
        head (waypoints planned) = Some w -> wp_type w = pickup)
  /\ detours planned
     = calculateDetours haversineDistance (waypoints planned) constraints
  /\ forall (pid : string) (d : Q) (c : PassengerConstraint),
       detours planned !! pid = Some d ->
       passengerConstraints constraints !! pid = Some c ->
       d <= maxDetourMinutes c.
Proof. apply optimizeRoute_checked. Qed.

(** X6.  Without passengers [optimizeRoute] returns the empty route with
    zero totals and no detours, whatever the start location and the
    constraints. *)
Theorem optimizeRoute_without_passengers (startLocation : Location) :
  optimizeRoute haversineDistance [] startLocation constraints
  = Some {| waypoints := []; total_distance := 0; total_time := 0;
            detours := ∅ |}.
Proof.
  unfold optimizeRoute, greedyRouteConstruction. cbn [flat_map length greedyLoop
    unvisited route totalDistance totalTime].
  unfold calculateDetours. cbn [detoursLoop].
  unfold detoursWithinTolerance. rewrite map_to_list_empty. cbn [forallb].
  reflexivity.
Qed.

Lemma detoursLoop_domain (pid : string) (rest : list RoutePoint) :
  forall (prev : option RoutePoint) (currentTime : Q)
         (pickupTimes ds : gmap string Q),
    is_Some (detoursLoop haversineDistance constraints prev rest currentTime
               pickupTimes ds !! pid)
    <-> is_Some (ds !! pid)
        \/ (is_Some (passengerConstraints constraints !! pid)
            /\ exists w : RoutePoint,
                 w ∈ rest /\ wp_type w = dropoff /\ passenger_id w = pid).
Proof.
  induction rest as [| w rest IH]; intros prev currentTime pickupTimes ds.
  - simpl. split; [intros H; left; exact H |].
    intros [H | (_ & w & Hw & _)]; [exact H |].
    apply elem_of_nil in Hw. contradiction.
  - cbn [detoursLoop]. destruct (wp_type w) eqn:Ht.
    + rewrite IH. split.
      * intros [H | (Hc & x & Hx & Hd & Hid)]; [left; exact H |].
        right. split; [exact Hc |]. exists x.
        split; [apply elem_of_cons; right; exact Hx | tauto].
      * intros [H | (Hc & x & Hx & Hd & Hid)]; [left; exact H |].
        apply elem_of_cons in Hx as [-> | Hx]; [congruence |].
        right. split; [exact Hc |]. exists x. tauto.
    + rewrite IH. split.
      * intros [H | (Hc & x & Hx & Hd & Hid)].
        -- destruct (passengerConstraints constraints !! passenger_id w)
             as [c |] eqn:Ec; [| left; exact H].
           apply lookup_insert_is_Some in H as [E | [_ H]];
             [| left; exact H].
           right. split; [rewrite <- E, Ec; eexists; reflexivity |].
           exists w. split; [apply elem_of_cons; left; reflexivity |].
           split; [exact Ht | exact E].
        -- right. split; [exact Hc |]. exists x.
           split; [apply elem_of_cons; right; exact Hx | tauto].
      * assert (Hkeep : is_Some (ds !! pid) ->
          is_Some (match passengerConstraints constraints !! passenger_id w with
                   | Some constraint =>
                       <[passenger_id w :=
                           (match prev with
                            | Some prev0 =>
                                currentTime
                                + estimateTravelTime
                                    (haversineDistance prev0 w)
                            | None => currentTime
                            end
                            - default 0 (pickupTimes !! passenger_id w))
                           - directTime constraint]> ds
                   | None => ds
                   end !! pid)).
        { intros H.
          destruct (passengerConstraints constraints !! passenger_id w);
            [| exact H].
          apply lookup_insert_is_Some.
          destruct (decide (passenger_id w = pid)); [left | right]; tauto. }
        intros [H | (Hc & x & Hx & Hd & Hid)]; [left; apply Hkeep, H |].
        apply elem_of_cons in Hx as [-> | Hx].
        -- left. rewrite Hid. destruct Hc as [c Hc]. rewrite Hc.
           apply lookup_insert_is_Some. left. reflexivity.
        -- right. split; [exact Hc |]. exists x. tauto.
Qed.

(** X7.  [calculateDetours] records a detour for exactly the passengers that
    have a dropoff in the route and an entry in [passengerConstraints];
    a pickup is not needed for it (a missing pickup time is read as 0). *)
Theorem calculateDetours_records_constrained_dropoffs
  (ws : list RoutePoint) (pid : string) :
  is_Some (calculateDetours haversineDistance ws constraints !! pid)
  <-> is_Some (passengerConstraints constraints !! pid)
      /\ exists w : RoutePoint,
           w ∈ ws /\ wp_type w = dropoff /\ passenger_id w = pid.
Proof.
  unfold calculateDetours. rewrite detoursLoop_domain. split.
  - intros [H | H]; [| exact H].
    rewrite lookup_empty in H. destruct H as [x Hx]. discriminate Hx.
  - intros H. right. exact H.
Qed.

End RoutePlannerGuarantees.

(** Riders A and B from the depot, by the greedy construction. *)
Definition greedyOfAB : option RouteOptimizer.OptimizedRoute :=
  RouteOptimizer.greedyRouteConstruction meridianDistance
    (flat_map RouteOptimizer.passengerWaypoints [riderA; riderB]) depot
    (sedanConstraints [riderA; riderB]).

Lemma greedy_route_visits_every_waypoint_once_witness :
  exists result : RouteOptimizer.OptimizedRoute,
    greedyOfAB = Some result
    /\ RouteOptimizer.waypoints result
       ≡ₚ flat_map RouteOptimizer.passengerWaypoints [riderA; riderB].
Proof.
  destruct greedyOfAB as [result |] eqn:E.
  - exists result. split; [reflexivity |].
    exact (proj1 (greedy_route_visits_every_waypoint_once _ _ _ _ _ E)).
  - vm_compute in E. discriminate E.
Defined.

Lemma sedanConstraints_AB_nonneg (pid : string)
  (c : RouteOptimizer.PassengerConstraint) :
  RouteOptimizer.passengerConstraints (sedanConstraints [riderA; riderB]) !! pid
  = Some c ->
  (0 <= RouteOptimizer.seatsRequired c)%Z
  /\ (0 <= RouteOptimizer.luggageCount c)%Z.
Proof.
  unfold sedanConstraints. cbn [RouteOptimizer.passengerConstraints foldl].
  intros H.
  apply lookup_insert_Some in H as [[_ <-] | [_ H]]; [split; discriminate |].
  apply lookup_insert_Some in H as [[_ <-] | [_ H]]; [split; discriminate |].
  rewrite lookup_empty in H. discriminate H.
Qed.

Lemma greedy_route_respects_vehicle_capacity_witness :
  exists result : RouteOptimizer.OptimizedRoute,
    greedyOfAB = Some result
    /\ ((loadAfter (sedanConstraints [riderA; riderB])
           (take 3 (RouteOptimizer.waypoints result))).1 <= 4)%Z.
Proof.
  destruct greedyOfAB as [result |] eqn:E.
  - exists result. split; [reflexivity |].
    assert (Hlen : length (RouteOptimizer.waypoints result) = 4%nat).
    { assert (Hl : (length <$> (RouteOptimizer.waypoints <$> greedyOfAB))
                   = Some 4%nat) by (vm_compute; reflexivity).
      rewrite E in Hl. injection Hl as Hl. exact Hl. }
    refine (proj1 (greedy_route_respects_vehicle_capacity _ _ _ _ _ E
                     sedanConstraints_AB_nonneg 3%nat _)).
    rewrite Hlen. lia.
  - vm_compute in E. discriminate E.
Defined.

Lemma greedy_route_totals_witness :
  exists result : RouteOptimizer.OptimizedRoute,
    greedyOfAB = Some result
    /\ RouteOptimizer.total_distance result
       = foldl Qplus 0
           (legDistances meridianDistance depot
              (RouteOptimizer.waypoints result)).
Proof.
  destruct greedyOfAB as [result |] eqn:E.
  - exists result. split; [reflexivity |].
    exact (proj1 (greedy_route_totals _ _ _ _ _ E)).
  - vm_compute in E. discriminate E.
Defined.

Lemma optimizeRoute_returns_checked_rearrangement_witness :
  exists planned : RouteOptimizer.OptimizedRoute,
    RouteOptimizer.optimizeRoute meridianDistance [riderA; riderB] depot
      (sedanConstraints [riderA; riderB]) = Some planned
    /\ length (RouteOptimizer.waypoints planned) = 4%nat.
Proof.
  destruct (RouteOptimizer.optimizeRoute meridianDistance [riderA; riderB]
              depot (sedanConstraints [riderA; riderB]))
    as [planned |] eqn:E.
  - exists planned. split; [reflexivity |].
    exact (proj1 (proj2
             (optimizeRoute_returns_checked_rearrangement _ _ _ _ _ E))).
  - vm_compute in E. discriminate E.
Defined.

(** ** Pricing: the returned record *)

Section PricingGuarantees.
Import Pricing.

Lemma round2_at_least (x : Q) (lo : Z) :
  inject_Z lo / 100 <= x -> inject_Z lo / 100 <= round2 x.
Proof.
  intros Hlo. unfold round2. rewrite Qdiv_100 in Hlo.
  assert (L : (lo <= Math_round (x * 100))%Z).
  { apply Math_round_lower. lra. }
  rewrite Zle_Qle in L. rewrite !Qdiv_100. lra.
Qed.

Lemma calculateBasePrice_at_least_minimum (dist time : Q) (v : VehicleType) :
  MINIMUM_FARE v <= calculateBasePrice dist time v.
Proof. unfold calculateBasePrice. apply Q.le_max_r. Qed.

(** X8.  The fields of the record returned by [calculateDynamicPrice], for
    every input: the base price is at least the minimum fare of the
    vehicle class, the surge multiplier lies in [1, 3.5], the pool
    discount in [0.5, 1], the final price is at least half the minimum
    fare, and neither the surge amount nor the pool savings of the
    breakdown is negative. *)
Theorem calculateDynamicPrice_fields_in_range (f : PricingFactors) :
  let result := calculateDynamicPrice f in
  MINIMUM_FARE (vehicleType f) <= basePrice result
  /\ 1 <= surgeMultiplier result <= 3.5
  /\ 0.5 <= poolDiscount result <= 1
  /\ 0.5 * MINIMUM_FARE (vehicleType f) <= finalPrice result
  /\ 0 <= surgeAmount (breakdown result)
  /\ 0 <= poolSavings (breakdown result)
  /\ baseAmount (breakdown result) = basePrice result
  /\ totalAmount (breakdown result) = finalPrice result.
Proof.
  cbv zeta. unfold calculateDynamicPrice.
  cbn [basePrice surgeMultiplier poolDiscount finalPrice breakdown
       surgeAmount poolSavings baseAmount totalAmount].
  pose proof (calculateBasePrice_at_least_minimum (distance f)
                (estimatedTime f) (vehicleType f)) as Hb.
  pose proof (calculateBasePrice_positive (distance f) (estimatedTime f)
                (vehicleType f)) as Hb8.
  destruct (calculateSurgeMultiplier_range f) as [Hs1 Hs2].
  destruct (calculatePoolDiscount_range (poolSize f) (detourMinutes f))
    as [Hd1 Hd2].
  set (base := calculateBasePrice (distance f) (estimatedTime f)
                 (vehicleType f)) in *.
  set (surge := calculateSurgeMultiplier f) in *.
  set (disc := calculatePoolDiscount (poolSize f) (detourMinutes f)) in *.
  assert (Hbs : base <= base * surge) by nra.
  assert (Hfin : 0.5 * base <= base * surge * disc) by nra.
  assert (Hsav : 0 <= base * surge - base * surge * disc) by nra.
  assert (Hmin : exists m : Z,
             MINIMUM_FARE (vehicleType f) == inject_Z (2 * m) / 100).
  { destruct (vehicleType f);
      [exists 400%Z | exists 600%Z | exists 750%Z]; reflexivity. }
  destruct Hmin as [m Hm].
  assert (Hhalf : 0.5 * MINIMUM_FARE (vehicleType f) == inject_Z m / 100).
  { rewrite Hm, !Qdiv_100, inject_Z_mult. change (inject_Z 2) with 2. ring. }
  split.
  { rewrite Hm. apply round2_at_least. rewrite <- Hm. exact Hb. }
  split.
  { destruct (round2_between surge 100 350) as [R1 R2].
    - rewrite Qdiv_100. change (inject_Z 100) with 100. lra.
    - rewrite Qdiv_100. change (inject_Z 350) with 350. lra.
    - rewrite Qdiv_100 in R1, R2. change (inject_Z 100) with 100 in R1.
      change (inject_Z 350) with 350 in R2. split; lra. }
  split.
  { destruct (round2_between disc 50 100) as [R1 R2].
    - rewrite Qdiv_100. change (inject_Z 50) with 50. lra.
    - rewrite Qdiv_100. change (inject_Z 100) with 100. lra.
    - rewrite Qdiv_100 in R1, R2. change (inject_Z 50) with 50 in R1.
      change (inject_Z 100) with 100 in R2. split; lra. }
  split.
  { rewrite Hhalf. apply round2_at_least. rewrite <- Hhalf. lra. }
  split.
  { assert (R : inject_Z 0 / 100 <= round2 (base * surge - base)).
    { apply round2_at_least. rewrite Qdiv_100. change (inject_Z 0) with 0.
      lra. }
    rewrite Qdiv_100 in R. change (inject_Z 0) with 0 in R. lra. }
  split.
  { assert (R : inject_Z 0 / 100
                <= round2 (base * surge - base * surge * disc)).
    { apply round2_at_least. rewrite Qdiv_100. change (inject_Z 0) with 0.
      lra. }
    rewrite Qdiv_100 in R. change (inject_Z 0) with 0 in R. lra. }
  split; reflexivity.
Qed.

(** X9.  Without a surge zone the multiplier is the product of the peak-hour
    factor (1.3 on weekdays from 7 to 10 and from 17 to 20, else 1) and
    the weather factor (1 when no weather is given); the product lies
    between 1 and 2, so the clamp to [1, 3.5] never acts. *)
Theorem calculateSurgeMultiplier_without_zone (f : PricingFactors) :
  surgeZone f = None ->
  calculateSurgeMultiplier f
  == (if isPeakHour (timeOfDay f) (dayOfWeek f) then 1.3 else 1)
     * match weatherCondition f with
       | Some w => WEATHER_MULTIPLIER w
       | None => 1
       end
  /\ 1 <= calculateSurgeMultiplier f
  /\ calculateSurgeMultiplier f < 2.
Proof.
  intros Hz. unfold calculateSurgeMultiplier. rewrite Hz.
  unfold PEAK_HOUR_MULTIPLIER, SURGE_MIN, SURGE_MAX.
  destruct (isPeakHour (timeOfDay f) (dayOfWeek f));
    destruct (weatherCondition f) as [[| |] |]; unfold WEATHER_MULTIPLIER;
    (split; [| split]); minmax_lra.
Qed.

Lemma calculateSurgeMultiplier_without_zone_witness :
  calculateSurgeMultiplier soloFactors < 2.
Proof.
  exact (proj2 (proj2
           (calculateSurgeMultiplier_without_zone soloFactors eq_refl))).
Defined.

(** X10.  The pool discount multiplier never grows with the pool size and
    never shrinks with the detour: a larger pool pays the same or less,
    a longer detour the same or more (the detour penalty is taken off
    the discount). *)
Theorem calculatePoolDiscount_monotone (p p' d d' : Q) :
  p <= p' -> d <= d' ->
  calculatePoolDiscount (Some p') (Some d)
  <= calculatePoolDiscount (Some p) (Some d)
  /\ calculatePoolDiscount (Some p) (Some d)
     <= calculatePoolDiscount (Some p) (Some d').
Proof.
  intros Hp Hd. rewrite !calculatePoolDiscount_closed_form.
  split; minmax_lra.
Qed.

Lemma calculatePoolDiscount_monotone_witness :
  calculatePoolDiscount (Some 3) (Some 0)
  <= calculatePoolDiscount (Some 2) (Some 0).
Proof.
  refine (proj1 (calculatePoolDiscount_monotone 2 3 0 5 _ _)); lra.
Defined.

Lemma surge_raw_monotone (r r' : Q) :
  r <= r' ->
  (if Qltb r 1.5 then 1.0
   else if Qltb r 3.0 then 1.0 + (r - 1.5) * 0.4
   else 1.6 + (r - 3.0) * 0.3)
  <= (if Qltb r' 1.5 then 1.0
      else if Qltb r' 3.0 then 1.0 + (r' - 1.5) * 0.4
      else 1.6 + (r' - 3.0) * 0.3).
Proof.
  intros H.
  destruct (Qltb r 1.5) eqn:A; destruct (Qltb r' 1.5) eqn:A';
    destruct (Qltb r 3.0) eqn:B; destruct (Qltb r' 3.0) eqn:B';
    rewrite ?Qltb_lt, ?Qltb_ge in *; lra.
Qed.

Lemma updateSurgeZone_newSurge (activeRequests availableDrivers prevSurge : Q) :
  newSurge (updateSurgeZone activeRequests availableDrivers prevSurge)
  = round2
      (Qmax (Qmin (0.3
                   * (let r := activeRequests / Qmax availableDrivers 1 in
                      if Qltb r 1.5 then 1.0
                      else if Qltb r 3.0 then 1.0 + (r - 1.5) * 0.4
                      else 1.6 + (r - 3.0) * 0.3)
                   + (1 - 0.3) * prevSurge) SURGE_MAX) SURGE_MIN).
Proof.
  unfold updateSurgeZone. cbv zeta.
  set (r := activeRequests / Qmax availableDrivers 1).
  destruct (Qltb r 0.5) eqn:L1.
  - assert (L2 : Qltb r 1.5 = true).
    { apply Qltb_lt. apply Qltb_lt in L1. lra. }
    rewrite L2. reflexivity.
  - destruct (Qltb r 1.5); [reflexivity |].
    destruct (Qltb r 3.0); reflexivity.
Qed.

(** X11.  The multiplier returned by [updateSurgeZone] is monotone: with the
    same number of drivers, more active requests or a higher previous
    multiplier never give a lower new multiplier. *)
Theorem updateSurgeZone_monotone
  (activeRequests activeRequests' availableDrivers prevSurge prevSurge' : Q) :
  activeRequests <= activeRequests' -> prevSurge <= prevSurge' ->
  newSurge (updateSurgeZone activeRequests availableDrivers prevSurge)
  <= newSurge (updateSurgeZone activeRequests' availableDrivers prevSurge').
Proof.
  intros Ha Hs. rewrite !updateSurgeZone_newSurge. cbv zeta.
  apply round2_mono.
  assert (Hm : 1 <= Qmax availableDrivers 1) by apply Q.le_max_r.
  set (m := Qmax availableDrivers 1) in *.
  assert (Hr : activeRequests / m <= activeRequests' / m).
  { unfold Qdiv. apply Qmult_le_compat_r; [exact Ha |].
    apply Qinv_le_0_compat. lra. }
  pose proof (surge_raw_monotone _ _ Hr) as Hraw.
  set (raw := if Qltb (activeRequests / m) 1.5 then _ else _) in *.
  set (raw' := if Qltb (activeRequests' / m) 1.5 then _ else _) in *.
  clearbody raw raw'. unfold SURGE_MAX, SURGE_MIN. minmax_lra.
Qed.

Lemma updateSurgeZone_monotone_witness :
  newSurge (updateSurgeZone 10 5 1.0) <= newSurge (updateSurgeZone 30 5 1.2).
Proof.
  refine (updateSurgeZone_monotone 10 30 5 1.0 1.2 _ _); lra.
Defined.

End PricingGuarantees.

(** ** Leases, optimistic updates, retries and batches *)

(** The delays slept by [retryWithBackoff] when every attempt from
    [attempt] on fails and [pauses] pauses follow:
    [baseDelayMs * 2 ^ attempt], then twice as much each time. *)
Fixpoint doublingDelays (baseDelay : Z) (attempt : Z) (pauses : nat) : list Z :=
  match pauses with
  | O => []
  | S pauses' =>
      (baseDelay * 2 ^ attempt)%Z
      :: doublingDelays baseDelay (attempt + 1) pauses'
  end.

(** The state after running the statements one after the other. *)
Definition stateAfter (operations : list (Store.M Store.D1Result))
  (db : Store.Db) : Store.Db :=
  foldl (fun db op => (op db).2) db operations.

(** A forming sedan pool with two riders, at version 4. *)
Definition poolOne : Store.Pool :=
  {| Store.pool_ident := "pool_1"; Store.driver_id := None;
     Store.vehicle_type := sedan; Store.max_seats := 4;
     Store.max_luggage := 3; Store.current_seats := 2;
     Store.current_luggage := 1; Store.pool_status := Store.forming;
     Store.pool_total_distance := 12; Store.optimized_route := None;
     Store.created_at := 1000; Store.version := 4 |}.

Definition dbWithPoolOne : Store.Db :=
  Store.with_pools (insert "pool_1" poolOne) emptyDb.

Section ConcurrencyGuarantees.
Import Store Concurrency.
Local Open Scope js_scope.

(** X12.  On a pool without a lease [acquirePoolLock], called with a
    [ttlSeconds] whose expiry time is a valid time value, records a lease
    of the caller that expires [ttlSeconds] after the current time, with
    lock version 1, and returns the handle [<poolId>_<now>_<random>];
    nothing else changes. *)
Theorem acquirePoolLock_on_free_pool_records_lease
  (poolId lockerId : string) (options : LockOptions) (db : Db) :
  validTimeValue (clock db + opt_ttlSeconds options * 1000) = true ->
  db_pool_locks db !! poolId = None ->
  exists db' : Db,
    acquirePoolLock poolId lockerId options db
    = (Returned (Some (poolId +:+ "_" +:+ pretty (clock db) +:+ "_"
                       +:+ pretty (entropy db))), db')
    /\ db_pool_locks db'
       = <[poolId := {| locked_by := lockerId; locked_at := clock db;
                        expires_at :=
                          (clock db + opt_ttlSeconds options * 1000)%Z;
                        lock_version := 1 |}]> (db_pool_locks db)
    /\ db_passengers db' = db_passengers db
    /\ db_pools db' = db_pools db
    /\ db_waypoints db' = db_waypoints db
    /\ clock db' = clock db.
Proof.
  intros _ Hfree.
  unfold acquirePoolLock, bind, try_catch, Date_now, randomSuffix,
    insertLockOrIgnore, ret. simpl. rewrite Hfree. simpl.
  eexists. split; [reflexivity |]. simpl. auto.
Qed.

Lemma acquirePoolLock_on_free_pool_records_lease_witness :
  exists db' : Db,
    acquirePoolLock "pool_1" "req_A" noOptions emptyDb
    = (Returned (Some "pool_1_2000_0"), db')
    /\ (expires_at <$> db_pool_locks db' !! "pool_1") = Some 32000%Z.
Proof.
  destruct (acquirePoolLock_on_free_pool_records_lease "pool_1" "req_A"
              noOptions emptyDb eq_refl eq_refl) as (db' & Hrun & Hlocks & _).
  exists db'. split; [exact Hrun |].
  rewrite Hlocks, lookup_insert_eq. reflexivity.
Defined.

(** X13.  Acquiring, with a [ttlSeconds] whose expiry time is a valid
    time value, and then releasing restores the lock table, provided the
    caller held no lease on the pool before: a lease of another holder
    is neither replaced nor removed.  A caller that already held a lease
    on the pool loses it by the release. *)
Theorem acquire_then_release_restores_lock_table
  (poolId lockerId : string) (options : LockOptions) (db : Db) :
  validTimeValue (clock db + opt_ttlSeconds options * 1000) = true ->
  exists (handle : string) (db1 db2 : Db),
    acquirePoolLock poolId lockerId options db = (Returned (Some handle), db1)
    /\ releasePoolLock poolId lockerId db1 = (Returned true, db2)
    /\ ((forall l, db_pool_locks db !! poolId = Some l ->
                   locked_by l <> lockerId) ->
        db_pool_locks db2 = db_pool_locks db)
    /\ ((exists l, db_pool_locks db !! poolId = Some l
                   /\ locked_by l = lockerId) ->
        db_pool_locks db2 = delete poolId (db_pool_locks db)).
Proof.
  intros _.
  destruct (db_pool_locks db !! poolId) as [existing |] eqn:E.
  - destruct (decide (locked_by existing = lockerId)) as [Hown | Hown].
    + eexists _, _, _. split.
      { unfold acquirePoolLock, bind, try_catch, Date_now, randomSuffix,
          insertLockOrIgnore, ret. simpl. rewrite E. reflexivity. }
      split.
      { unfold releasePoolLock, bind, try_catch, deleteLock, ret. simpl.
        rewrite E. rewrite bool_decide_eq_true_2 by exact Hown.
        reflexivity. }
      simpl. split; [| reflexivity].
      intros Hother. destruct (Hother existing eq_refl Hown).
    + eexists _, _, _. split.
      { unfold acquirePoolLock, bind, try_catch, Date_now, randomSuffix,
          insertLockOrIgnore, ret. simpl. rewrite E. reflexivity. }
      split.
      { unfold releasePoolLock, bind, try_catch, deleteLock, ret. simpl.
        rewrite E. rewrite bool_decide_eq_false_2 by exact Hown.
        reflexivity. }
      simpl. split; [reflexivity |].
      intros (l & Hl & Hby). injection Hl as <-. contradiction.
  - eexists _, _, _. split.
    { unfold acquirePoolLock, bind, try_catch, Date_now, randomSuffix,
        insertLockOrIgnore, ret. simpl. rewrite E. reflexivity. }
    split.
    { unfold releasePoolLock, bind, try_catch, deleteLock, ret. simpl.
      rewrite lookup_insert_eq. simpl.
      rewrite bool_decide_eq_true_2 by reflexivity. reflexivity. }
    simpl. split.
    + intros _. rewrite delete_insert_eq. apply delete_id. exact E.
    + intros (l & Hl & _). discriminate Hl.
Qed.

Lemma acquire_then_release_restores_lock_table_witness :
  exists (handle : string) (db1 db2 : Db),
    acquirePoolLock "pool_1" "req_B" noOptions dbWithLeaseOfA
    = (Returned (Some handle), db1)
    /\ releasePoolLock "pool_1" "req_B" db1 = (Returned true, db2)
    /\ db_pool_locks db2 = db_pool_locks dbWithLeaseOfA.
Proof.
  destruct (acquire_then_release_restores_lock_table "pool_1" "req_B"
              noOptions dbWithLeaseOfA eq_refl)
    as (handle & db1 & db2 & Hacquire & Hrelease & Hother & _).
  exists handle, db1, db2.
  split; [exact Hacquire |]. split; [exact Hrelease |].
  apply Hother. intros l Hl. vm_compute in Hl. injection Hl as <-.
  discriminate.
Defined.

Lemma foldl_applyField_keeps_key (updates : list PoolField) :
  forall pool : Pool,
    pool_ident (foldl applyField pool updates) = pool_ident pool
    /\ version (foldl applyField pool updates) = version pool.
Proof.
  induction updates as [| f updates IH]; intros pool; [split; reflexivity |].
  simpl. destruct (IH (applyField pool f)) as [H1 H2].
  rewrite H1, H2. destruct f; split; reflexivity.
Qed.

Lemma updatePoolWithVersionCheck_outcome
  (poolId : string) (updates : list PoolField) (expectedVersion : Z)
  (db : Db) :
  exists (r : VersionedUpdate) (db' : Db),
    updatePoolWithVersionCheck poolId updates expectedVersion db
    = (Returned r, db')
    /\ (update_success r = true
        <-> List.filter isSettable updates <> []
            /\ (version <$> db_pools db !! poolId) = Some expectedVersion)
    /\ (update_success r = true ->
        newVersion r = Some (expectedVersion + 1)%Z
        /\ (version <$> db_pools db' !! poolId)
           = Some (expectedVersion + 1)%Z
        /\ (pool_ident <$> db_pools db' !! poolId)
           = (pool_ident <$> db_pools db !! poolId)
        /\ forall other : string,
             other <> poolId ->
             db_pools db' !! other = db_pools db !! other)
    /\ (update_success r = false -> newVersion r = None /\ db' = db).
Proof.
  unfold updatePoolWithVersionCheck, try_catch, bind, updatePoolIfVersion, ret.
  destruct (List.filter isSettable updates) as [| f fields] eqn:F.
  - eexists _, _. split; [reflexivity |]. simpl.
    split; [split; [discriminate | intros [H _]; contradiction] |].
    split; [discriminate | auto].
  - destruct (db_pools db !! poolId) as [pool |] eqn:P.
    + destruct (Z.eqb_spec (version pool) expectedVersion) as [Hv | Hv].
      * eexists _, _. split; [reflexivity |]. simpl.
        split; [split; [intros _; split; [discriminate | congruence]
                       | reflexivity] |].
        split; [| discriminate].
        intros _. split; [reflexivity |].
        rewrite lookup_insert_eq. simpl.
        destruct (foldl_applyField_keeps_key fields (applyField pool f))
          as [K1 K2].
        split; [| split].
        -- rewrite K2. destruct f; simpl; rewrite Hv; reflexivity.
        -- rewrite K1. destruct f; reflexivity.
        -- intros other Hother. apply lookup_insert_ne. congruence.
      * eexists _, _. split; [reflexivity |]. simpl.
        split; [split; [discriminate | intros [_ H]; congruence] |].
        split; [discriminate | auto].
    + eexists _, _. split; [reflexivity |]. simpl.
      split; [split; [discriminate | intros [_ H]; discriminate H] |].
      split; [discriminate | auto].
Qed.

(** X14.  [updatePoolWithVersionCheck] is a compare-and-swap on the version
    column and never throws.  It succeeds exactly when the update names
    a column other than [id] and [version] and the stored version is the
    expected one; the row then has the expected version plus one and the
    same id, whatever [id] or [version] the update carried, and no other
    pool changes.  When it fails the database is as it was. *)
Theorem updatePoolWithVersionCheck_compare_and_swap
  (poolId : string) (updates : list PoolField) (expectedVersion : Z)
  (db : Db) :
  exists (r : VersionedUpdate) (db' : Db),
    updatePoolWithVersionCheck poolId updates expectedVersion db
    = (Returned r, db')
    /\ (update_success r = true
        <-> List.filter isSettable updates <> []
            /\ (version <$> db_pools db !! poolId) = Some expectedVersion)
    /\ (update_success r = true ->
        newVersion r = Some (expectedVersion + 1)%Z
        /\ (version <$> db_pools db' !! poolId)
           = Some (expectedVersion + 1)%Z
        /\ (pool_ident <$> db_pools db' !! poolId)
           = (pool_ident <$> db_pools db !! poolId)
        /\ forall other : string,
             other <> poolId ->
             db_pools db' !! other = db_pools db !! other)
    /\ (update_success r = false -> newVersion r = None /\ db' = db).
Proof. apply updatePoolWithVersionCheck_outcome. Qed.

(** X15.  Of two writers that read the same version, the second is refused:
    after a successful update, an update expecting the same version
    fails and changes nothing. *)
Theorem stale_version_update_is_refused
  (poolId : string) (first second : list PoolField) (expectedVersion : Z)
  (db : Db) (r1 : VersionedUpdate) (db1 : Db) :
  updatePoolWithVersionCheck poolId first expectedVersion db
  = (Returned r1, db1) ->
  update_success r1 = true ->
  updatePoolWithVersionCheck poolId second expectedVersion db1
  = (Returned {| update_success := false; newVersion := None |}, db1).
Proof.
  intros Hfirst Hok.
  destruct (updatePoolWithVersionCheck_outcome poolId first
              expectedVersion db) as (r & db' & Hrun & _ & Hgood & _).
  rewrite Hrun in Hfirst. injection Hfirst as -> ->.
  destruct (Hgood Hok) as (_ & Hv & _).
  destruct (updatePoolWithVersionCheck_outcome poolId second
              expectedVersion db1) as (r2 & db2 & Hrun2 & Hiff & _ & Hbad).
  rewrite Hrun2.
  destruct (update_success r2) eqn:S2.
  - destruct (proj1 Hiff eq_refl) as [_ Hv2].
    rewrite Hv in Hv2. injection Hv2 as Hv2. lia.
  - destruct (Hbad eq_refl) as [Hn ->].
    destruct r2 as [s n]. simpl in *. subst. reflexivity.
Qed.

Lemma stale_version_update_is_refused_witness :
  exists (r1 : VersionedUpdate) (db1 : Db),
    updatePoolWithVersionCheck "pool_1" [set_current_seats 3] 4 dbWithPoolOne
    = (Returned r1, db1)
    /\ updatePoolWithVersionCheck "pool_1" [set_current_seats 1] 4 db1
       = (Returned {| update_success := false; newVersion := None |}, db1).
Proof.
  destruct (updatePoolWithVersionCheck_outcome "pool_1"
              [set_current_seats 3] 4 dbWithPoolOne)
    as (r1 & db1 & Hrun & Hiff & _).
  exists r1, db1. split; [exact Hrun |].
  apply (stale_version_update_is_refused "pool_1" [set_current_seats 3]
           [set_current_seats 1] 4 dbWithPoolOne r1 db1 Hrun).
  apply Hiff. split; [discriminate | vm_compute; reflexivity].
Defined.

Lemma retryLoop_all_fail {T : Type} (operation : M T) (e : string)
  (maxRetries baseDelayMs : Z) :
  (forall db, operation db = (Thrown e, db)) ->
  forall (remaining : nat) (attempt : Z) (lastError : option string) (db : Db),
    (attempt + Z.of_nat remaining = maxRetries)%Z ->
    (remaining = 0%nat -> lastError = Some e) ->
    retryLoop operation maxRetries baseDelayMs remaining attempt lastError db
    = (Thrown e,
       afterSleeping (doublingDelays baseDelayMs attempt (remaining - 1)) db).
Proof.
  intros Hfails remaining.
  induction remaining as [| remaining' IH]; intros attempt lastError db Hn Hl.
  - rewrite (Hl eq_refl). reflexivity.
  - cbn [retryLoop]. rewrite Hfails.
    destruct remaining' as [| remaining''].
    + assert (L : (attempt <? maxRetries - 1)%Z = false)
        by (apply Z.ltb_ge; lia).
      rewrite L. reflexivity.
    + assert (L : (attempt <? maxRetries - 1)%Z = true)
        by (apply Z.ltb_lt; lia).
      rewrite L. unfold bind at 1. cbn [sleep].
      rewrite IH by (try lia; discriminate).
      replace (S (S remaining'') - 1)%nat with (S remaining'') by lia.
      replace (S remaining'' - 1)%nat with remaining'' by lia.
      reflexivity.
Qed.

Lemma afterSleeping_clock (delays : list Z) (db : Db) :
  clock (afterSleeping delays db) = (clock db + foldr Z.add 0 delays)%Z.
Proof.
  revert db. induction delays as [| ms delays IH]; intros db.
  - simpl. lia.
  - unfold afterSleeping in *. simpl. rewrite IH. simpl. lia.
Qed.

Lemma doublingDelays_total (baseDelay : Z) (pauses : nat) :
  forall attempt : Z,
    (0 <= attempt)%Z ->
    foldr Z.add 0%Z (doublingDelays baseDelay attempt pauses)
    = (baseDelay * 2 ^ attempt * (2 ^ Z.of_nat pauses - 1))%Z.
Proof.
  induction pauses as [| pauses IH]; intros attempt Ha.
  - simpl. lia.
  - cbn [doublingDelays foldr]. rewrite IH by lia.
    rewrite Nat2Z.inj_succ, !Z.pow_succ_r, Z.pow_add_r by lia. lia.
Qed.

(** The state in which [retryWithBackoff] makes its next attempt after
    [failed] attempts in a row threw, the first of them with loop counter
    [attempt] in state [db]: each of them is followed by a pause of
    [baseDelayMs * 2 ^ attempt] ms.  [None] when one of these attempts
    returned. *)
Fixpoint afterThrownAttempts {T : Type} (operation : M T) (baseDelayMs : Z)
  (failed : nat) (attempt : Z) (db : Db) : option Db :=
  match failed with
  | O => Some db
  | S failed' =>
      match operation db with
      | (Thrown _, db') =>
          afterThrownAttempts operation baseDelayMs failed' (attempt + 1)
            (sleep (baseDelayMs * 2 ^ attempt) db').2
      | (Returned _, _) => None
      end
  end.

Lemma retryLoop_after_thrown {T : Type} (operation : M T)
  (maxRetries baseDelayMs : Z) (failed : nat) :
  forall (rest : nat) (attempt : Z) (lastError : option string) (db s : Db),
    afterThrownAttempts operation baseDelayMs failed attempt db = Some s ->
    (attempt + Z.of_nat failed <= maxRetries - 1)%Z ->
    exists lastError' : option string,
      retryLoop operation maxRetries baseDelayMs (failed + rest) attempt
        lastError db
      = retryLoop operation maxRetries baseDelayMs rest
          (attempt + Z.of_nat failed) lastError' s.
Proof.
  induction failed as [| failed IH];
    intros rest attempt lastError db s Hstate Hdue.
  - injection Hstate as <-. exists lastError. rewrite Z.add_0_r. reflexivity.
  - cbn [afterThrownAttempts] in Hstate. cbn [Nat.add retryLoop].
    destruct (operation db) as [[value | error] db'];
      [discriminate Hstate |].
    assert (L : (attempt <? maxRetries - 1)%Z = true)
      by (apply Z.ltb_lt; lia).
    rewrite L. unfold bind at 1.
    destruct (sleep (baseDelayMs * 2 ^ attempt) db')
      as [[[] | error'] db''] eqn:Esleep; [| discriminate Esleep].
    cbn [snd] in Hstate.
    destruct (IH rest (attempt + 1)%Z (Some error) db'' s Hstate)
      as (lastError' & E); [lia |].
    exists lastError'. rewrite E.
    replace (attempt + 1 + Z.of_nat failed)%Z
      with (attempt + Z.of_nat (S failed))%Z by lia.
    reflexivity.
Qed.

(** X16.  [retryWithBackoff] with [maxRetries >= 1]; the attempts are
    numbered from 0.  After an attempt that throws, as long as another
    attempt is due, it sleeps [baseDelayMs * 2 ^ attempt] ms and runs the
    operation again, in the state the failed attempts and the pauses
    have left.  When attempt [k] returns, its value and state are the
    result.  When the last attempt, number [maxRetries - 1], throws as
    well, that error is thrown in the state that attempt left, without a
    further pause.  For an operation that throws the same error every
    time and leaves the state alone, the pauses are
    [baseDelayMs * 2^0, ..., baseDelayMs * 2^(maxRetries-2)],
    [baseDelayMs * (2^(maxRetries-1) - 1)] ms in all; with the defaults
    they are 100 and 200 ms. *)
Theorem retryWithBackoff_gives_up_after_doubling_delays
  (T : Type) (operation : M T) (maxRetries baseDelayMs : Z) (db : Db) :
  (1 <= maxRetries)%Z ->
  let stateBeforeAttempt :=
    fun k : nat => afterThrownAttempts operation baseDelayMs k 0 db in
  (forall (s s' : Db) (e : string),
      stateBeforeAttempt (Z.to_nat maxRetries - 1)%nat = Some s ->
      operation s = (Thrown e, s') ->
      retryWithBackoff operation maxRetries baseDelayMs db = (Thrown e, s'))
  /\ (forall (k : nat) (s s' : Db) (value : T),
        (Z.of_nat k < maxRetries)%Z ->
        stateBeforeAttempt k = Some s ->
        operation s = (Returned value, s') ->
        retryWithBackoff operation maxRetries baseDelayMs db
        = (Returned value, s'))
  /\ (forall e : string,
        (forall db0, operation db0 = (Thrown e, db0)) ->
        let delays := doublingDelays baseDelayMs 0 (Z.to_nat maxRetries - 1) in
        retryWithBackoff operation maxRetries baseDelayMs db
        = (Thrown e, afterSleeping delays db)
        /\ length delays = (Z.to_nat maxRetries - 1)%nat
        /\ clock (afterSleeping delays db)
           = (clock db + baseDelayMs * (2 ^ (maxRetries - 1) - 1))%Z)
  /\ doublingDelays DEFAULT_retry_baseDelayMs 0
       (Z.to_nat DEFAULT_retry_maxRetries - 1) = [100; 200]%Z.
Proof.
  intros Hn stateBeforeAttempt. unfold retryWithBackoff.
  assert (Hloop : forall (k rest : nat) (s : Db),
             stateBeforeAttempt k = Some s ->
             Z.to_nat maxRetries = (k + S rest)%nat ->
             exists lastError : option string,
               retryLoop operation maxRetries baseDelayMs
                 (Z.to_nat maxRetries) 0 None db
               = retryLoop operation maxRetries baseDelayMs (S rest)
                   (Z.of_nat k) lastError s).
  { intros k rest s Hstate Hcount. rewrite Hcount.
    destruct (retryLoop_after_thrown operation maxRetries baseDelayMs k
                (S rest) 0 None db s Hstate) as (lastError & E); [lia |].
    exists lastError. exact E. }
  split; [| split; [| split]].
  - intros s s' e Hstate Hop.
    destruct (Hloop (Z.to_nat maxRetries - 1)%nat 0%nat s Hstate)
      as (lastError & ->); [lia |].
    cbn [retryLoop]. rewrite Hop.
    assert (L : (Z.of_nat (Z.to_nat maxRetries - 1) <? maxRetries - 1)%Z
                = false) by (apply Z.ltb_ge; lia).
    rewrite L. reflexivity.
  - intros k s s' value Hk Hstate Hop.
    destruct (Hloop k (Z.to_nat maxRetries - k - 1)%nat s Hstate)
      as (lastError & ->); [lia |].
    cbn [retryLoop]. rewrite Hop. reflexivity.
  - intros e Hfails. cbv zeta. split; [| split].
    + apply (retryLoop_all_fail operation e maxRetries baseDelayMs Hfails);
        lia.
    + generalize (Z.to_nat maxRetries - 1)%nat. intros k.
      generalize 0%Z. induction k as [| k IH]; intros a; [reflexivity |].
      simpl. rewrite IH. reflexivity.
    + rewrite afterSleeping_clock.
      rewrite doublingDelays_total by lia.
      replace (Z.of_nat (Z.to_nat maxRetries - 1)) with (maxRetries - 1)%Z
        by lia.
      rewrite Z.pow_0_r. lia.
  - reflexivity.
Qed.

(** An operation that throws every time and counts its runs in the
    [entropy] field. *)
Definition failsCountingRuns : M unit :=
  _ <- randomSuffix ;; throw "busy".

Lemma retryWithBackoff_gives_up_after_doubling_delays_witness :
  let outcome := retryWithBackoff failsCountingRuns 3 100 emptyDb in
  outcome.1 = Thrown "busy"
  /\ entropy outcome.2 = 3%nat
  /\ sleeps outcome.2 = [100; 200]%Z.
Proof.
  cbv zeta.
  set (s := default emptyDb
              (afterThrownAttempts failsCountingRuns 100 2 0 emptyDb)).
  set (s' := (failsCountingRuns s).2).
  assert (Hn : (1 <= 3)%Z) by lia.
  destruct (retryWithBackoff_gives_up_after_doubling_delays unit
              failsCountingRuns 3 100 emptyDb Hn) as [Hlast _].
  rewrite (Hlast s s' "busy").
  - repeat split; vm_compute; reflexivity.
  - vm_compute. reflexivity.
  - vm_compute. reflexivity.
Defined.

(** X17.  [retryWithBackoff] does not pause before the first attempt: when
    that attempt returns, its value and state are the result.  With
    [maxRetries <= 0] the operation is not run at all and the call
    throws "Operation failed after retries". *)
Theorem retryWithBackoff_first_attempt
  (T : Type) (operation : M T) (maxRetries baseDelayMs : Z) (db : Db) :
  ((1 <= maxRetries)%Z ->
   forall (value : T) (db' : Db),
     operation db = (Returned value, db') ->
     retryWithBackoff operation maxRetries baseDelayMs db
     = (Returned value, db'))
  /\ ((maxRetries <= 0)%Z ->
      retryWithBackoff operation maxRetries baseDelayMs db
      = (Thrown "Operation failed after retries", db)).
Proof.
  unfold retryWithBackoff. split.
  - intros Hn value db' Hop.
    destruct (Z.to_nat maxRetries) as [| n] eqn:N; [lia |].
    cbn [retryLoop]. rewrite Hop. reflexivity.
  - intros Hn. replace (Z.to_nat maxRetries) with 0%nat by lia. reflexivity.
Qed.

Lemma batchLoop_outcome (operations : list (M D1Result)) :
  forall (i : nat) (db : Db),
    (exists (errors : list string) (db' : Db),
        batchLoop operations i db = (Returned errors, db')
        /\ (length errors <= 1)%nat)
    \/ (exists (e : string) (db' : Db),
           batchLoop operations i db = (Thrown e, db')).
Proof.
  induction operations as [| op rest IH]; intros i db.
  - left. exists [], db. split; [reflexivity | simpl; lia].
  - cbn [batchLoop]. unfold bind.
    destruct (op db) as [[result | e] db1].
    + destruct (success result); simpl.
      * apply IH.
      * left. eexists _, _. split; [reflexivity | simpl; lia].
    + right. eexists _, _. reflexivity.
Qed.

(** X18.  [executeBatch] never throws: it returns a report, with
    [success = true] exactly when the list of errors is empty, and at
    most one error. *)
Theorem executeBatch_always_reports
  (operations : list (M D1Result)) (db : Db) :
  exists (report : BatchResult) (db' : Db),
    executeBatch operations db = (Returned report, db')
    /\ (batch_success report = true <-> batch_errors report = [])
    /\ (length (batch_errors report) <= 1)%nat.
Proof.
  unfold executeBatch, try_catch, bind.
  destruct (batchLoop_outcome operations 0 db)
    as [(errors & db' & -> & Hlen) | (e & db' & ->)].
  - destruct errors as [| err errors]; eexists _, _;
      (split; [reflexivity |]); simpl.
    + split; [tauto | lia].
    + split; [split; discriminate | exact Hlen].
  - eexists _, _. split; [reflexivity |]. simpl.
    split; [split; discriminate | lia].
Qed.

Lemma batchLoop_prefix_succeeds (before : list (M D1Result)) :
  forall (rest : list (M D1Result)) (i : nat) (db : Db),
    Forall (fun op : M D1Result =>
              forall db0, exists c db1,
                op db0 = (Returned {| success := true; changes := c |}, db1))
           before ->
    batchLoop (before ++ rest) i db
    = batchLoop rest (i + length before) (stateAfter before db).
Proof.
  induction before as [| op before IH]; intros rest i db Hall.
  - simpl. rewrite Nat.add_0_r. reflexivity.
  - apply Forall_cons in Hall as [Hop Hall].
    cbn [app batchLoop]. unfold bind at 1.
    destruct (Hop db) as (c & db1 & Hrun). rewrite Hrun. simpl.
    rewrite IH by exact Hall.
    unfold stateAfter. simpl. rewrite Hrun. simpl.
    f_equal. lia.
Qed.

(** X19.  [executeBatch] stops at the first statement that fails and keeps
    what the statements before it did: there is no rollback, and the
    statements after it are not run.  A statement reporting
    [success = false] at position [i] gives the error "Operation i
    failed"; a statement that throws gives its message. *)
Theorem executeBatch_stops_without_rollback
  (before after : list (M D1Result)) (failing : M D1Result) (db : Db) :
  Forall (fun op : M D1Result =>
            forall db0, exists c db1,
              op db0 = (Returned {| success := true; changes := c |}, db1))
         before ->
  (forall (c : Z) (db' : Db),
      failing (stateAfter before db)
      = (Returned {| success := false; changes := c |}, db') ->
      executeBatch (before ++ failing :: after) db
      = (Returned {| batch_success := false;
                     batch_errors :=
                       ["Operation " +:+ pretty (length before)
                        +:+ " failed"] |}, db'))
  /\ (forall (e : string) (db' : Db),
        failing (stateAfter before db) = (Thrown e, db') ->
        executeBatch (before ++ failing :: after) db
        = (Returned {| batch_success := false; batch_errors := [e] |}, db')).
Proof.
  intros Hall. unfold executeBatch, try_catch, bind.
  rewrite !batchLoop_prefix_succeeds by exact Hall.
  cbn [batchLoop]. unfold bind. split.
  - intros c db' Hrun. rewrite Hrun. reflexivity.
  - intros e db' Hrun. rewrite Hrun. reflexivity.
Qed.

Lemma executeBatch_stops_without_rollback_witness :
  exists db' : Db,
    executeBatch
      [RidePooling.decrementPoolLoad 1 1 "pool_1";
       RidePooling.insertPool "pool_1" sedan 4 3 1 1 0
         {| RouteOptimizer.waypoints := []; RouteOptimizer.total_distance := 0;
            RouteOptimizer.total_time := 0; RouteOptimizer.detours := ∅ |};
       RidePooling.deletePool "pool_1"]
      dbWithPoolOne
    = (Returned {| batch_success := false;
                   batch_errors := ["UNIQUE constraint failed: pools.id"] |},
       db')
    /\ (current_seats <$> db_pools db' !! "pool_1") = Some 1%Z.
Proof.
  eexists. split.
  - refine (proj2 (executeBatch_stops_without_rollback
                     [RidePooling.decrementPoolLoad 1 1 "pool_1"]
                     [RidePooling.deletePool "pool_1"] _ dbWithPoolOne _)
              _ _ _).
    + apply List.Forall_cons; [| apply List.Forall_nil].
      intros db0. eexists _, _. reflexivity.
    + vm_compute. reflexivity.
  - vm_compute. reflexivity.
Defined.

End ConcurrencyGuarantees.

(** ** Matching: the order of the pending requests *)

(** Oldest request first. *)
Definition olderOrSame (p q : Passenger) : Prop :=
  (requested_at p <= requested_at q)%Z.

Section RequestOrder.
Import Store Matcher.

Lemma insertByRequestTime_Permutation (p : Passenger) (sorted : list Passenger) :
  insertByRequestTime p sorted ≡ₚ p :: sorted.
Proof.
  induction sorted as [| q rest IH]; [reflexivity |].
  simpl. destruct (requested_at p <? requested_at q)%Z; [reflexivity |].
  rewrite IH. apply Permutation_swap.
Qed.

Lemma insertByRequestTime_sorted (p : Passenger) (sorted : list Passenger) :
  StronglySorted olderOrSame sorted ->
  StronglySorted olderOrSame (insertByRequestTime p sorted).
Proof.
  induction sorted as [| q rest IH]; intros Hs.
  - simpl. constructor; [constructor | constructor].
  - simpl. apply StronglySorted_inv in Hs as [Hrest Hq].
    destruct (Z.ltb_spec (requested_at p) (requested_at q)) as [Hlt | Hge].
    + constructor; [constructor; assumption |].
      constructor; [unfold olderOrSame; lia |].
      rewrite List.Forall_forall in Hq |- *. intros x Hx.
      specialize (Hq x Hx). unfold olderOrSame in *. lia.
    + constructor; [apply IH; exact Hrest |].
      rewrite List.Forall_forall in Hq |- *. intros x Hx.
      apply list_elem_of_In in Hx.
      rewrite insertByRequestTime_Permutation in Hx.
      apply elem_of_cons in Hx as [-> | Hx]; [exact Hge |].
      apply Hq. apply list_elem_of_In. exact Hx.
Qed.

Lemma sortByRequestTime_from (ps : list Passenger) :
  forall acc : list Passenger,
    StronglySorted olderOrSame acc ->
    foldl (fun sorted p => insertByRequestTime p sorted) acc ps ≡ₚ acc ++ ps
    /\ StronglySorted olderOrSame
         (foldl (fun sorted p => insertByRequestTime p sorted) acc ps).
Proof.
  induction ps as [| p ps IH]; intros acc Hacc.
  - simpl. rewrite app_nil_r. split; [reflexivity | exact Hacc].
  - simpl.
    destruct (IH (insertByRequestTime p acc)
                (insertByRequestTime_sorted p acc Hacc)) as [Hperm Hsorted].
    split; [| exact Hsorted].
    rewrite Hperm, insertByRequestTime_Permutation.
    simpl. apply Permutation_middle.
Qed.

Lemma sortByRequestTime_spec (ps : list Passenger) :
  sortByRequestTime ps ≡ₚ ps /\ StronglySorted olderOrSame (sortByRequestTime ps).
Proof.
  unfold sortByRequestTime.
  destruct (sortByRequestTime_from ps [] (SSorted_nil _)) as [Hperm Hsorted].
  split; [exact Hperm | exact Hsorted].
Qed.

Lemma StronglySorted_take_drop (l : list Passenger) (n : nat) :
  StronglySorted olderOrSame l ->
  StronglySorted olderOrSame (take n l)
  /\ forall p q, p ∈ take n l -> q ∈ drop n l -> olderOrSame p q.
Proof.
  revert n. induction l as [| x l IH]; intros n Hs.
  - rewrite take_nil. split; [constructor |].
    intros p q Hp. apply elem_of_nil in Hp. contradiction.
  - apply StronglySorted_inv in Hs as [Hl Hx].
    destruct n as [| n]; simpl.
    + split; [constructor |].
      intros p q Hp. apply elem_of_nil in Hp. contradiction.
    + destruct (IH n Hl) as [Htake Hcross].
      rewrite List.Forall_forall in Hx.
      split.
      * constructor; [exact Htake |].
        rewrite List.Forall_forall. intros y Hy. apply Hx.
        apply list_elem_of_In. apply list_elem_of_In in Hy.
        exact (subseteq_take n l y Hy).
      * intros p q Hp Hq. apply elem_of_cons in Hp as [-> | Hp].
        -- apply Hx. apply list_elem_of_In.
           exact (subseteq_drop n l q Hq).
        -- apply Hcross; assumption.
Qed.

End RequestOrder.

(** ** Matching: clusters *)

Section ClusterGuarantees.
Import Store Matcher.

Variable haversineDistance : Location -> Location -> Q.

(** A cluster is a seed followed by passengers whose pickup lies within
    the radius of the seed's pickup. *)
Definition aroundSeed (maxRadius : Q) (cluster : list Passenger) : Prop :=
  exists (seed : Passenger) (others : list Passenger),
    cluster = seed :: others
    /\ forall x : Passenger,
         x ∈ others ->
         haversineDistance (pickupOf seed) (pickupOf x) <= maxRadius.

Lemma absorbNearby_invariant (seedLoc : Location) (maxRadius : Q)
  (others : list Passenger) :
  forall (cluster : list Passenger) (assigned : gset string),
    NoDup (id <$> cluster) ->
    (forall pid : string, pid ∈ (id <$> cluster) -> pid ∈ assigned) ->
    exists added : list Passenger,
      (foldl (absorbNearby haversineDistance seedLoc maxRadius)
         (cluster, assigned) others).1 = cluster ++ added
      /\ NoDup (id <$> (cluster ++ added))
      /\ (forall x : Passenger,
            x ∈ added ->
            x ∈ others /\ (id x ∉ assigned)
            /\ haversineDistance seedLoc (pickupOf x) <= maxRadius)
      /\ (forall pid : string,
            pid ∈ (foldl (absorbNearby haversineDistance seedLoc maxRadius)
                     (cluster, assigned) others).2
            <-> pid ∈ assigned \/ pid ∈ (id <$> added)).
Proof.
  induction others as [| other others IH]; intros cluster assigned Hnd Hsub.
  - exists []. simpl. rewrite app_nil_r.
    split; [reflexivity |]. split; [exact Hnd |].
    split; [intros x Hx; apply elem_of_nil in Hx; contradiction |].
    intros pid. split; [intros H; left; exact H |].
    intros [H | H]; [exact H | apply elem_of_nil in H; contradiction].
  - cbn [foldl]. unfold absorbNearby at 2 4. cbn [fst snd].
    case_bool_decide as Hin.
    + destruct (IH cluster assigned Hnd Hsub)
        as (added & E1 & E2 & E3 & E4).
      exists added. split; [exact E1 |]. split; [exact E2 |].
      split; [| exact E4].
      intros x Hx. destruct (E3 x Hx) as (A1 & A2 & A3).
      split; [apply elem_of_cons; right; exact A1 | tauto].
    + destruct (Qle_bool (haversineDistance seedLoc (pickupOf other)) maxRadius)
        eqn:Hnear.
      * assert (Hnd' : NoDup (id <$> (cluster ++ [other]))).
        { rewrite fmap_app. apply NoDup_app. split; [exact Hnd |].
          split; [| apply NoDup_singleton].
          intros pid Hpid Hother. simpl in Hother.
          apply list_elem_of_singleton in Hother. subst pid.
          apply Hin. apply Hsub. exact Hpid. }
        assert (Hsub' : forall pid : string,
                   pid ∈ (id <$> (cluster ++ [other])) ->
                   pid ∈ ({[id other]} ∪ assigned : gset string)).
        { intros pid Hpid. rewrite fmap_app in Hpid.
          apply elem_of_app in Hpid as [Hpid | Hpid].
          - apply elem_of_union. right. apply Hsub. exact Hpid.
          - simpl in Hpid. apply list_elem_of_singleton in Hpid. subst pid.
            apply elem_of_union. left. apply elem_of_singleton. reflexivity. }
        destruct (IH (cluster ++ [other]) ({[id other]} ∪ assigned) Hnd' Hsub')
          as (added & E1 & E2 & E3 & E4).
        exists (other :: added).
        split; [rewrite E1, <- app_assoc; reflexivity |].
        split; [rewrite <- app_assoc in E2; exact E2 |].
        split.
        -- intros x Hx. apply elem_of_cons in Hx as [-> | Hx].
           ++ split; [apply elem_of_cons; left; reflexivity |].
              split; [exact Hin |]. apply Qle_bool_iff. exact Hnear.
           ++ destruct (E3 x Hx) as (A1 & A2 & A3).
              split; [apply elem_of_cons; right; exact A1 |].
              split; [| exact A3].
              intros Hbad. apply A2. apply elem_of_union. right. exact Hbad.
        -- intros pid. rewrite E4, elem_of_union, elem_of_singleton.
           rewrite fmap_cons, elem_of_cons. tauto.
      * destruct (IH cluster assigned Hnd Hsub)
          as (added & E1 & E2 & E3 & E4).
        exists added. split; [exact E1 |]. split; [exact E2 |].
        split; [| exact E4].
        intros x Hx. destruct (E3 x Hx) as (A1 & A2 & A3).
        split; [apply elem_of_cons; right; exact A1 | tauto].
Qed.

(** The state of the outer loop of [buildSpatialClusters]. *)
Record ClusterInvariant (maxRadius : Q) (passengers : list Passenger)
  (acc : list (list Passenger) * gset string) : Prop := {
  ci_distinct : NoDup (id <$> concat acc.1);
  ci_assigned : forall pid : string,
      pid ∈ acc.2 <-> pid ∈ (id <$> concat acc.1);
  ci_members : forall x : Passenger, x ∈ concat acc.1 -> x ∈ passengers;
  ci_shape : Forall (aroundSeed maxRadius) acc.1
}.

Definition clusterStep (passengers : list Passenger) (maxRadius : Q)
  (acc : list (list Passenger) * gset string) (passenger : Passenger)
  : list (list Passenger) * gset string :=
  if bool_decide (id passenger ∈ acc.2) then acc
  else
    let '(cluster, assigned) :=
      foldl (absorbNearby haversineDistance (pickupOf passenger) maxRadius)
        ([passenger], {[id passenger]} ∪ acc.2) passengers in
    (acc.1 ++ [cluster], assigned).

Lemma clusterStep_keeps_invariant (maxRadius : Q) (passengers : list Passenger)
  (acc : list (list Passenger) * gset string) (passenger : Passenger) :
  passenger ∈ passengers ->
  ClusterInvariant maxRadius passengers acc ->
  ClusterInvariant maxRadius passengers
    (clusterStep passengers maxRadius acc passenger)
  /\ id passenger ∈ (clusterStep passengers maxRadius acc passenger).2
  /\ forall pid : string,
       pid ∈ acc.2 ->
       pid ∈ (clusterStep passengers maxRadius acc passenger).2.
Proof.
  intros Hmem [Hnd Hass Hin Hshape]. unfold clusterStep.
  case_bool_decide as Hseen.
  - split; [split; assumption |]. split; [exact Hseen | auto].
  - assert (Hnd1 : NoDup (id <$> [passenger])) by apply NoDup_singleton.
    assert (Hsub1 : forall pid : string,
               pid ∈ (id <$> [passenger]) ->
               pid ∈ ({[id passenger]} ∪ acc.2 : gset string)).
    { intros pid Hpid. simpl in Hpid. apply list_elem_of_singleton in Hpid.
      subst pid. apply elem_of_union. left. apply elem_of_singleton.
      reflexivity. }
    destruct (absorbNearby_invariant (pickupOf passenger) maxRadius passengers
                [passenger] ({[id passenger]} ∪ acc.2) Hnd1 Hsub1)
      as (added & E1 & E2 & E3 & E4).
    destruct (foldl (absorbNearby haversineDistance (pickupOf passenger)
                       maxRadius)
                ([passenger], {[id passenger]} ∪ acc.2) passengers)
      as [cluster assigned].
    cbn [fst snd] in E1, E4 |- *. subst cluster.
    assert (Hfresh : forall pid : string,
               pid ∈ (id <$> ([passenger] ++ added)) ->
               pid ∉ (id <$> concat acc.1)).
    { intros pid Hpid Hold. apply Hass in Hold.
      rewrite fmap_app in Hpid. apply elem_of_app in Hpid as [Hpid | Hpid].
      - simpl in Hpid. apply list_elem_of_singleton in Hpid. subst pid.
        contradiction.
      - apply list_elem_of_fmap in Hpid as (x & -> & Hx).
        destruct (E3 x Hx) as (_ & Hnot & _). apply Hnot.
        apply elem_of_union. right. exact Hold. }
    split; [| split].
    + split; cbn [fst snd].
      * rewrite concat_app, fmap_app. simpl. rewrite app_nil_r.
        apply NoDup_app. split; [exact Hnd |].
        split; [| exact E2].
        intros pid Hold Hnew. apply (Hfresh pid Hnew Hold).
      * intros pid. rewrite E4, concat_app, fmap_app.
        change (concat [[passenger] ++ added]) with ((passenger :: added) ++ []).
        rewrite app_nil_r, elem_of_app, elem_of_union, elem_of_singleton.
        rewrite fmap_cons, elem_of_cons, Hass. tauto.
      * intros x Hx. rewrite concat_app in Hx. simpl in Hx.
        rewrite app_nil_r in Hx.
        apply elem_of_app in Hx as [Hx | Hx]; [apply Hin; exact Hx |].
        apply elem_of_cons in Hx as [-> | Hx]; [exact Hmem |].
        apply (E3 x Hx).
      * apply Forall_app. split; [exact Hshape |].
        apply Forall_singleton. exists passenger, added.
        split; [reflexivity |]. intros x Hx. apply (E3 x Hx).
    + apply E4. left. apply elem_of_union. left. apply elem_of_singleton.
      reflexivity.
    + intros pid Hpid. apply E4. left. apply elem_of_union. right. exact Hpid.
Qed.

Lemma clusterLoop_keeps_invariant (maxRadius : Q) (passengers : list Passenger)
  (todo : list Passenger) :
  forall acc : list (list Passenger) * gset string,
    (forall p : Passenger, p ∈ todo -> p ∈ passengers) ->
    ClusterInvariant maxRadius passengers acc ->
    ClusterInvariant maxRadius passengers
      (foldl (clusterStep passengers maxRadius) acc todo)
    /\ (forall p : Passenger,
          p ∈ todo ->
          id p ∈ (foldl (clusterStep passengers maxRadius) acc todo).2)
    /\ forall pid : string,
         pid ∈ acc.2 ->
         pid ∈ (foldl (clusterStep passengers maxRadius) acc todo).2.
Proof.
  induction todo as [| p todo IH]; intros acc Hsub Hinv.
  - simpl. split; [exact Hinv |].
    split; [intros p Hp; apply elem_of_nil in Hp; contradiction | auto].
  - cbn [foldl].
    destruct (clusterStep_keeps_invariant maxRadius passengers acc p)
      as (Hinv1 & Hp1 & Hmono1);
      [apply Hsub; apply elem_of_cons; left; reflexivity | exact Hinv |].
    destruct (IH (clusterStep passengers maxRadius acc p)) as (H1 & H2 & H3);
      [intros q Hq; apply Hsub; apply elem_of_cons; right; exact Hq
      | exact Hinv1 |].
    split; [exact H1 |]. split.
    + intros q Hq. apply elem_of_cons in Hq as [-> | Hq];
        [apply H3; exact Hp1 | apply H2; exact Hq].
    + intros pid Hpid. apply H3, Hmono1, Hpid.
Qed.

Lemma buildSpatialClusters_invariant
  (passengers : list Passenger) (maxRadius : Q) :
  let clusters :=
    buildSpatialClusters haversineDistance passengers maxRadius in
  NoDup (id <$> concat clusters)
  /\ (forall x : Passenger, x ∈ concat clusters -> x ∈ passengers)
  /\ (forall p : Passenger,
        p ∈ passengers -> id p ∈ (id <$> concat clusters))
  /\ Forall (aroundSeed maxRadius) clusters
  /\ (NoDup (id <$> passengers) -> concat clusters ≡ₚ passengers).
Proof.
  cbv zeta.
  assert (E : buildSpatialClusters haversineDistance passengers maxRadius
              = (foldl (clusterStep passengers maxRadius) ([], ∅) passengers).1)
    by reflexivity.
  rewrite E.
  destruct (clusterLoop_keeps_invariant maxRadius passengers passengers ([], ∅))
    as ([Hnd Hass Hin Hshape] & Hcover & _).
  { auto. }
  { split; cbn [fst snd concat fmap list_fmap].
    - apply NoDup_nil_2.
    - intros pid. split; intros H.
      + apply elem_of_empty in H. contradiction.
      + apply elem_of_nil in H. contradiction.
    - intros x Hx. apply elem_of_nil in Hx. contradiction.
    - apply Forall_nil_2. }
  set (out := foldl (clusterStep passengers maxRadius) ([], ∅) passengers) in *.
  assert (Hall : forall p : Passenger,
             p ∈ passengers -> id p ∈ (id <$> concat out.1)).
  { intros p Hp. apply Hass. apply Hcover. exact Hp. }
  split; [exact Hnd |]. split; [exact Hin |]. split; [exact Hall |].
  split; [exact Hshape |].
  intros Hids. apply NoDup_Permutation.
  - apply (NoDup_fmap_1 id). exact Hnd.
  - apply (NoDup_fmap_1 id). exact Hids.
  - intros x. split; [apply Hin |].
    intros Hx. destruct (proj1 (list_elem_of_fmap _ _ _) (Hall x Hx))
      as (y & Hid & Hy).
    assert (x = y); [| subst; exact Hy].
    pose proof (Hin y Hy) as Hy'.
    apply list_elem_of_lookup in Hx as [i Hi].
    apply list_elem_of_lookup in Hy' as [j Hj].
    assert (i = j); [| congruence].
    apply (NoDup_lookup (id <$> passengers) i j (id x)); [exact Hids | |].
    + rewrite list_lookup_fmap, Hi. reflexivity.
    + rewrite list_lookup_fmap, Hj. simpl. rewrite Hid. reflexivity.
Qed.

(** X20.  [buildSpatialClusters] groups the passengers around seeds: no
    passenger id is in two clusters or twice in one; the clusters hold
    passengers of the input only, and every passenger of the input has
    its id in a cluster; every cluster is a seed followed by passengers
    whose pickup is within [maxRadius] of the seed's pickup.  When the
    ids of the input are distinct, the clusters are a partition of the
    input. *)
Theorem buildSpatialClusters_partitions_passengers
  (passengers : list Passenger) (maxRadius : Q) :
  let clusters :=
    buildSpatialClusters haversineDistance passengers maxRadius in
  NoDup (id <$> concat clusters)
  /\ (forall x : Passenger, x ∈ concat clusters -> x ∈ passengers)
  /\ (forall p : Passenger,
        p ∈ passengers -> id p ∈ (id <$> concat clusters))
  /\ Forall (aroundSeed maxRadius) clusters
  /\ (NoDup (id <$> passengers) -> concat clusters ≡ₚ passengers).
Proof. apply buildSpatialClusters_invariant. Qed.

End ClusterGuarantees.

(** ** Matching: proposals *)

(** Two states that differ at most in the random source: the tables,
    the clock and the log of delays are the same. *)
Definition sameTables (db db' : Store.Db) : Prop :=
  Store.db_passengers db' = Store.db_passengers db
  /\ Store.db_pools db' = Store.db_pools db
  /\ Store.db_waypoints db' = Store.db_waypoints db
  /\ Store.db_pool_locks db' = Store.db_pool_locks db
  /\ Store.clock db' = Store.clock db
  /\ Store.sleeps db' = Store.sleeps db.

Lemma sameTables_refl (db : Store.Db) : sameTables db db.
Proof. repeat split. Qed.

Lemma sameTables_trans (db1 db2 db3 : Store.Db) :
  sameTables db1 db2 -> sameTables db2 db3 -> sameTables db1 db3.
Proof.
  unfold sameTables. intros (A1 & A2 & A3 & A4 & A5 & A6)
    (B1 & B2 & B3 & B4 & B5 & B6).
  repeat split; congruence.
Qed.

(** The price [tryFormPool] quotes to a passenger of a pool of [n]. *)
Definition poolPrice (n : nat) (passenger : Passenger) : Q :=
  default 0 (base_price passenger)
  * (if Qeq_bool (surge_multiplier passenger) 0 then 1.0
     else surge_multiplier passenger)
  * Qmax (1 - 0.15 * (inject_Z (Z.of_nat n) - 1)) 0.50.

Section ProposalGuarantees.
Import Store RouteOptimizer Matcher.
Local Open Scope js_scope.

Variable haversineDistance : Location -> Location -> Q.
Variable calculateBearing : Location -> Location -> Q.

(** What a proposal says about the passengers it was formed from. *)
Record proposalFor (ps : list Passenger) (r : MatchingResult) : Prop := {
  pf_nonempty : ps <> [];
  pf_passengers : mr_passengers r = id <$> ps;
  pf_feasible : feasible r = true;
  pf_stops : waypoints (mr_route r) ≡ₚ flat_map passengerWaypoints ps;
  pf_seats : (totalSeatsOf ps <= 8)%Z;
  pf_luggage : (totalLuggageOf ps <= 8)%Z;
  pf_priced : forall p : Passenger,
      p ∈ ps ->
      exists q : Passenger,
        q ∈ ps /\ id q = id p
        /\ pricing r !! id p = Some (poolPrice (length ps) q);
  pf_score : efficiency_score r
             = calculateEfficiencyScore haversineDistance (mr_route r)
}.

Lemma foldl_Zsum {A : Type} (f : A -> Z) (l : list A) :
  forall a : Z,
    foldl (fun sum x => sum + f x)%Z a l = (a + foldr Z.add 0 (f <$> l))%Z.
Proof.
  induction l as [| x l IH]; intros a; [simpl; lia |].
  rewrite fmap_cons. cbn [foldl foldr]. rewrite IH. lia.
Qed.

Lemma determineVehicleType_None (seats luggage : Z) :
  Matcher.determineVehicleType seats luggage = None
  <-> (8 < seats)%Z \/ (8 < luggage)%Z.
Proof.
  unfold Matcher.determineVehicleType.
  repeat match goal with
         | |- context [(?a <=? ?b)%Z] => destruct (Z.leb_spec a b)
         end; simpl;
    (split; [intros Hnone; try discriminate Hnone; lia
            | intros Hover; try reflexivity; exfalso; lia]).
Qed.

Lemma foldl_insert_last {A : Type} (f : Passenger -> A) (ps : list Passenger) :
  forall (m : gmap string A) (p : Passenger),
    p ∈ ps ->
    exists q : Passenger,
      q ∈ ps /\ id q = id p
      /\ foldl (fun m x => <[id x := f x]> m) m ps !! id p = Some (f q).
Proof.
  induction ps as [| x ps IH] using rev_ind; intros m p Hp.
  - apply elem_of_nil in Hp. contradiction.
  - rewrite foldl_app. cbn [foldl].
    destruct (decide (id x = id p)) as [E | N].
    + exists x. split; [apply elem_of_app; right; apply list_elem_of_singleton;
                        reflexivity |].
      split; [exact E |]. rewrite <- E. apply lookup_insert_eq.
    + apply elem_of_app in Hp as [Hp | Hp].
      * destruct (IH m p Hp) as (q & Hq & Hid & Hlook).
        exists q. split; [apply elem_of_app; left; exact Hq |].
        split; [exact Hid |]. rewrite lookup_insert_ne by exact N.
        exact Hlook.
      * apply list_elem_of_singleton in Hp. subst x. contradiction.
Qed.

Lemma tryFormPool_outcome
  (passengers : list Passenger) (config : MatchingConfig) (db : Db) :
  exists (r : option MatchingResult) (db' : Db),
    tryFormPool haversineDistance passengers config db = (Returned r, db')
    /\ sameTables db db'
    /\ (passengers = []
        \/ (8 < totalSeatsOf passengers)%Z
        \/ (8 < totalLuggageOf passengers)%Z ->
        r = None /\ db' = db)
    /\ forall res : MatchingResult,
         r = Some res ->
         proposalFor passengers res
         /\ mr_pool_id res
            = "pool_" +:+ pretty (clock db) +:+ "_" +:+ pretty (entropy db).
Proof.
  unfold tryFormPool.
  destruct passengers as [| p0 ps0] eqn:Eps.
  { exists None, db. split; [reflexivity |].
    split; [apply sameTables_refl |].
    split; [auto | discriminate]. }
  rewrite <- Eps. rewrite !foldl_Zsum, !Z.add_0_l.
  fold (totalSeatsOf passengers). fold (totalLuggageOf passengers).
  destruct (Matcher.determineVehicleType (totalSeatsOf passengers)
              (totalLuggageOf passengers)) as [vehicleType |] eqn:V.
  2:{ exists None, db. split; [reflexivity |].
      split; [apply sameTables_refl |].
      split; [auto | discriminate]. }
  assert (Hcap : (totalSeatsOf passengers <= 8)%Z
                 /\ (totalLuggageOf passengers <= 8)%Z).
  { destruct (Z.le_gt_cases (totalSeatsOf passengers) 8) as [A | A];
      destruct (Z.le_gt_cases (totalLuggageOf passengers) 8) as [B | B];
      try (split; assumption);
      exfalso;
      assert (N : Matcher.determineVehicleType (totalSeatsOf passengers)
                    (totalLuggageOf passengers) = None)
        by (apply determineVehicleType_None; lia);
      congruence. }
  destruct (Matcher.getVehicleCapacity vehicleType) as [maxSeats maxLuggage].
  match goal with
  | |- context [optimizeRoute haversineDistance passengers ?s ?c] =>
      destruct (optimizeRoute haversineDistance passengers s c)
        as [planned |] eqn:O
  end.
  2:{ exists None, db. split; [reflexivity |].
      split; [apply sameTables_refl |].
      split; [intros [H | H]; [congruence | lia] | discriminate]. }
  eexists _, _. split; [reflexivity |].
  split; [repeat split |].
  split; [intros [H | H]; [congruence | lia] |].
  intros res Hres. injection Hres as <-.
  split; [| reflexivity].
  split; cbn [mr_passengers feasible mr_route pricing efficiency_score].
  - congruence.
  - reflexivity.
  - reflexivity.
  - apply (optimizeRoute_checked haversineDistance _ _ _ _ O).
  - apply Hcap.
  - apply Hcap.
  - intros p Hp.
    apply (foldl_insert_last (poolPrice (length passengers)) passengers ∅ p Hp).
  - reflexivity.
Qed.

(** X21.  [tryFormPool] never throws and touches no table.  It proposes
    nothing for an empty list and for a party that needs more than 8
    seats or carries more than 8 pieces of luggage, and then does not
    even draw a pool id.  A proposal is always marked feasible, lists
    the passengers in the given order, has a route made of exactly the
    pickups and dropoffs of these passengers, and quotes every passenger
    [base_price * surge * max(1 - 0.15 * (n - 1), 0.5)] for a party of
    [n]. *)
Theorem tryFormPool_proposes_for_its_passengers
  (passengers : list Passenger) (config : MatchingConfig) (db : Db) :
  exists (r : option MatchingResult) (db' : Db),
    tryFormPool haversineDistance passengers config db = (Returned r, db')
    /\ sameTables db db'
    /\ (passengers = []
        \/ (8 < totalSeatsOf passengers)%Z
        \/ (8 < totalLuggageOf passengers)%Z ->
        r = None /\ db' = db)
    /\ forall res : MatchingResult,
         r = Some res ->
         proposalFor passengers res
         /\ mr_pool_id res
            = "pool_" +:+ pretty (clock db) +:+ "_" +:+ pretty (entropy db).
Proof. apply tryFormPool_outcome. Qed.

End ProposalGuarantees.

(** ** Matching: one cycle of the matcher *)

(** The passenger ids named by a list of proposals, with repetitions. *)
Definition proposedIds (rs : list Matcher.MatchingResult) : list string :=
  concat (Matcher.mr_passengers <$> rs).

Section MatcherGuarantees.
Import Store RouteOptimizer Matcher.
Local Open Scope js_scope.

Variable haversineDistance : Location -> Location -> Q.
Variable calculateBearing : Location -> Location -> Q.
Variable config : MatchingConfig.

(** Proposals drawn from [pool]: they name passengers of [pool], each
    at most as often as [pool] holds it, every proposal is a proposal
    for some of them, and none is larger than [maxPoolSize] (when that
    is at least 1). *)
Definition proposalsOver (pool : list Passenger) (rs : list MatchingResult)
  : Prop :=
  proposedIds rs ⊆+ (id <$> pool)
  /\ Forall
       (fun r =>
          (exists ps : list Passenger,
              proposalFor haversineDistance ps r
              /\ forall p : Passenger, p ∈ ps -> p ∈ pool)
          /\ ((1 <= maxPoolSize config)%Z ->
              (Z.of_nat (length (mr_passengers r)) <= maxPoolSize config)%Z))
       rs.

Lemma proposalsOver_nil (pool : list Passenger) : proposalsOver pool [].
Proof.
  split; [apply submseteq_nil_l | apply Forall_nil_2].
Qed.

Lemma proposalsOver_Permutation (pool pool' : list Passenger)
  (rs : list MatchingResult) :
  pool ≡ₚ pool' -> proposalsOver pool rs -> proposalsOver pool' rs.
Proof.
  intros Hperm [Hsub Hall]. split.
  - rewrite <- Hperm. exact Hsub.
  - eapply Forall_impl; [exact Hall |].
    intros r [(ps & Hfor & Hin) Hsize]. split; [| exact Hsize].
    exists ps. split; [exact Hfor |].
    intros p Hp. rewrite <- Hperm. apply Hin. exact Hp.
Qed.

Lemma proposalsOver_app (pool1 pool2 : list Passenger)
  (rs1 rs2 : list MatchingResult) :
  proposalsOver pool1 rs1 -> proposalsOver pool2 rs2 ->
  proposalsOver (pool1 ++ pool2) (rs1 ++ rs2).
Proof.
  intros [Hsub1 Hall1] [Hsub2 Hall2]. split.
  - unfold proposedIds. rewrite fmap_app, concat_app, fmap_app.
    apply submseteq_app; assumption.
  - apply Forall_app. split.
    + eapply Forall_impl; [exact Hall1 |].
      intros r [(ps & Hfor & Hin) Hsize]. split; [| exact Hsize].
      exists ps. split; [exact Hfor |].
      intros p Hp. apply elem_of_app. left. apply Hin. exact Hp.
    + eapply Forall_impl; [exact Hall2 |].
      intros r [(ps & Hfor & Hin) Hsize]. split; [| exact Hsize].
      exists ps. split; [exact Hfor |].
      intros p Hp. apply elem_of_app. right. apply Hin. exact Hp.
Qed.

Lemma tryFormPool_over (passengers : list Passenger) (db : Db) :
  ((1 <= maxPoolSize config)%Z ->
   (Z.of_nat (length passengers) <= maxPoolSize config)%Z) ->
  exists (r : option MatchingResult) (db' : Db),
    tryFormPool haversineDistance passengers config db = (Returned r, db')
    /\ sameTables db db'
    /\ proposalsOver passengers (option_list r).
Proof.
  intros Hsize.
  destruct (tryFormPool_outcome haversineDistance passengers config db)
    as (r & db' & Hrun & Hsame & _ & Hres).
  exists r, db'. split; [exact Hrun |]. split; [exact Hsame |].
  destruct r as [res |]; [| apply proposalsOver_nil].
  destruct (Hres res eq_refl) as [Hfor _].
  split.
  - unfold proposedIds. simpl. rewrite app_nil_r.
    rewrite (pf_passengers _ _ _ Hfor). reflexivity.
  - apply Forall_singleton. split.
    + exists passengers. split; [exact Hfor | auto].
    + rewrite (pf_passengers _ _ _ Hfor), length_fmap. exact Hsize.
Qed.

Lemma admitCandidates_spec (reversedRemaining : list Passenger) :
  forall poolCandidates : list Passenger,
    (admitCandidates calculateBearing config poolCandidates
       reversedRemaining).1
    ++ (admitCandidates calculateBearing config poolCandidates
          reversedRemaining).2
    ≡ₚ poolCandidates ++ reversedRemaining
    /\ (Z.of_nat
          (length (admitCandidates calculateBearing config
                     poolCandidates reversedRemaining).1)
        <= Z.max (Z.of_nat (length poolCandidates)) (maxPoolSize config))%Z.
Proof.
  induction reversedRemaining as [| candidate rest IH]; intros poolCandidates.
  - simpl. split; [reflexivity | lia].
  - cbn [admitCandidates].
    destruct (Z.leb_spec (maxPoolSize config)
                (Z.of_nat (length poolCandidates))) as [Hfull | Hroom].
    + simpl. split; [reflexivity | lia].
    + destruct (isCompatible calculateBearing poolCandidates candidate config).
      * destruct (IH (poolCandidates ++ [candidate])) as [Hperm Hlen].
        split.
        -- rewrite Hperm, <- app_assoc. reflexivity.
        -- rewrite length_app in Hlen. simpl in Hlen. lia.
      * destruct (IH poolCandidates) as [Hperm Hlen].
        destruct (admitCandidates calculateBearing config
                    poolCandidates rest) as [admitted others].
        cbn [fst snd] in *. split; [| exact Hlen].
        rewrite <- Permutation_middle, Hperm.
        apply Permutation_middle.
Qed.

Lemma growPools_over (fuel : nat) :
  forall (remaining : list Passenger) (db : Db),
    exists (rs : list MatchingResult) (db' : Db),
      growPools haversineDistance calculateBearing fuel config remaining db
      = (Returned rs, db')
      /\ sameTables db db'
      /\ proposalsOver remaining rs.
Proof.
  induction fuel as [| fuel IH]; intros remaining db.
  - exists [], db. split; [destruct remaining; reflexivity |].
    split; [apply sameTables_refl | apply proposalsOver_nil].
  - destruct remaining as [| seed rest].
    { exists [], db. split; [reflexivity |].
      split; [apply sameTables_refl | apply proposalsOver_nil]. }
    cbn [growPools].
    destruct (admitCandidates_spec (reverse rest) [seed]) as [Hperm Hlen].
    destruct (admitCandidates calculateBearing config [seed]
                (reverse rest)) as [poolCandidates others].
    cbn [fst snd] in Hperm, Hlen.
    destruct (tryFormPool_over poolCandidates db)
      as (r & db1 & Hrun1 & Hsame1 & Hover1).
    { intros Hmin. simpl in Hlen. lia. }
    destruct (IH (reverse others) db1) as (more & db2 & Hrun2 & Hsame2 & Hover2).
    exists (option_list r ++ more), db2.
    split.
    + unfold bind. rewrite Hrun1, Hrun2. reflexivity.
    + split; [exact (sameTables_trans _ _ _ Hsame1 Hsame2) |].
      apply (proposalsOver_Permutation (poolCandidates ++ reverse others)).
      * rewrite reverse_Permutation, Hperm. simpl.
        rewrite reverse_Permutation. reflexivity.
      * apply proposalsOver_app; assumption.
Qed.

Lemma formPoolsFromCluster_over (cluster : list Passenger) (db : Db) :
  exists (rs : list MatchingResult) (db' : Db),
    formPoolsFromCluster haversineDistance calculateBearing cluster config db
    = (Returned rs, db')
    /\ sameTables db db'
    /\ proposalsOver cluster rs.
Proof.
  unfold formPoolsFromCluster.
  destruct (Z.leb_spec (Z.of_nat (length cluster)) (maxPoolSize config))
    as [Hsmall | Hlarge].
  - destruct (tryFormPool_over cluster db) as (r & db1 & Hrun & Hsame & Hover).
    { intros _. exact Hsmall. }
    exists (option_list r), db1. split; [| split; assumption].
    unfold bind. rewrite Hrun. reflexivity.
  - apply growPools_over.
Qed.

Lemma processClusters_over (startTime : Z) (clusters : list (list Passenger)) :
  forall db : Db,
    exists (rs : list MatchingResult) (db' : Db),
      processClusters haversineDistance calculateBearing startTime config
        clusters db = (Returned rs, db')
      /\ sameTables db db'
      /\ proposalsOver (concat clusters) rs.
Proof.
  induction clusters as [| cluster rest IH]; intros db.
  - exists [], db. split; [reflexivity |].
    split; [apply sameTables_refl | apply proposalsOver_nil].
  - cbn [processClusters]. unfold bind at 1. unfold Date_now at 1.
    destruct (timeoutMs config <? clock db - startTime)%Z.
    + exists [], db. split; [reflexivity |].
      split; [apply sameTables_refl | apply proposalsOver_nil].
    + destruct (formPoolsFromCluster_over cluster db)
        as (rs1 & db1 & Hrun1 & Hsame1 & Hover1).
      destruct (IH db1) as (rs2 & db2 & Hrun2 & Hsame2 & Hover2).
      exists (rs1 ++ rs2), db2. split.
      * unfold bind. rewrite Hrun1, Hrun2. reflexivity.
      * split; [exact (sameTables_trans _ _ _ Hsame1 Hsame2) |].
        simpl. apply proposalsOver_app; assumption.
Qed.

Lemma matchPassengersToPool_outcome (passengers : list Passenger)
  (availablePools : list Pool) (db : Db) :
  exists (rs : list MatchingResult) (db' : Db),
    matchPassengersToPool haversineDistance calculateBearing passengers
      availablePools config db = (Returned rs, db')
    /\ sameTables db db'
    /\ NoDup (proposedIds rs)
    /\ (forall pid : string,
          pid ∈ proposedIds rs ->
          exists p : Passenger,
            p ∈ passengers /\ id p = pid /\ status p = pending)
    /\ Forall
         (fun r =>
            (exists ps : list Passenger,
                proposalFor haversineDistance ps r
                /\ forall p : Passenger,
                     p ∈ ps -> p ∈ passengers /\ status p = pending)
            /\ ((1 <= maxPoolSize config)%Z ->
                (Z.of_nat (length (mr_passengers r)) <= maxPoolSize config)%Z))
         rs.
Proof.
  unfold matchPassengersToPool. unfold bind at 1. unfold Date_now at 1.
  destruct (List.filter isPending passengers) as [| p0 pending0] eqn:F.
  { exists [], db. split; [reflexivity |].
    split; [apply sameTables_refl |].
    split; [apply NoDup_nil_2 |].
    split; [intros pid Hpid; apply elem_of_nil in Hpid; contradiction |].
    apply Forall_nil_2. }
  rewrite <- F.
  set (sorted := sortByRequestTime (List.filter isPending passengers)).
  assert (Hsorted : forall p : Passenger,
             p ∈ sorted -> p ∈ passengers /\ status p = pending).
  { intros p Hp. unfold sorted in Hp.
    rewrite (proj1 (sortByRequestTime_spec _)) in Hp.
    apply list_elem_of_In, filter_In in Hp as [Hin Hpend].
    split; [apply list_elem_of_In; exact Hin |].
    unfold isPending in Hpend. destruct (status p); try discriminate Hpend.
    reflexivity. }
  destruct (buildSpatialClusters_invariant
              haversineDistance sorted (maxSearchRadius config))
    as (Hnd & Hin & _).
  destruct (processClusters_over (clock db)
              (buildSpatialClusters haversineDistance sorted
                 (maxSearchRadius config)) db)
    as (rs & db' & Hrun & Hsame & Hsub & Hall).
  exists rs, db'. split; [exact Hrun |]. split; [exact Hsame |].
  assert (Hids : forall pid : string,
             pid ∈ proposedIds rs ->
             exists p : Passenger,
               p ∈ passengers /\ id p = pid /\ status p = pending).
  { intros pid Hpid.
    assert (Hc : pid ∈ (id <$> concat (buildSpatialClusters haversineDistance
                                         sorted (maxSearchRadius config)))).
    { destruct (submseteq_Permutation _ _ Hsub) as [k Hk].
      rewrite Hk. apply elem_of_app. left. exact Hpid. }
    apply list_elem_of_fmap in Hc as (x & -> & Hx).
    exists x. destruct (Hsorted x (Hin x Hx)). auto. }
  split.
  { destruct (submseteq_Permutation _ _ Hsub) as [k Hk].
    rewrite Hk in Hnd. apply NoDup_app in Hnd as [Hnd _]. exact Hnd. }
  split; [exact Hids |].
  eapply Forall_impl; [exact Hall |].
  intros r [(ps & Hfor & Hps) Hsize]. split; [| exact Hsize].
  exists ps. split; [exact Hfor |].
  intros p Hp. apply Hsorted, Hin, Hps, Hp.
Qed.

(** X22.  One run of the matcher, for every input and configuration: it
    returns (it never throws) and changes no table.  No passenger id is
    proposed twice, in one proposal or in two, and every proposed id is
    the id of a pending passenger of the input.  Every proposal is
    marked feasible, was formed from pending passengers of the input,
    has a route made of exactly their pickups and dropoffs, and holds at
    most [maxPoolSize] passengers when [maxPoolSize >= 1]. *)
Theorem matchPassengersToPool_proposes_each_pending_passenger_once
  (passengers : list Passenger) (availablePools : list Pool) (db : Db) :
  exists (rs : list MatchingResult) (db' : Db),
    matchPassengersToPool haversineDistance calculateBearing passengers
      availablePools config db = (Returned rs, db')
    /\ sameTables db db'
    /\ NoDup (proposedIds rs)
    /\ (forall pid : string,
          pid ∈ proposedIds rs ->
          exists p : Passenger,
            p ∈ passengers /\ id p = pid /\ status p = pending)
    /\ Forall
         (fun r =>
            (exists ps : list Passenger,
                proposalFor haversineDistance ps r
                /\ forall p : Passenger,
                     p ∈ ps -> p ∈ passengers /\ status p = pending)
            /\ ((1 <= maxPoolSize config)%Z ->
                (Z.of_nat (length (mr_passengers r)) <= maxPoolSize config)%Z))
         rs.
Proof. apply matchPassengersToPool_outcome. Qed.

End MatcherGuarantees.

(** ** The dispatch service: a matching cycle *)

(** What a matching cycle may do to a passenger row: nothing, or mark it
    matched. *)
Definition rowStep (q q' : Passenger) : Prop :=
  id q' = id q /\ (q' = q \/ status q' = matched).

(** What a matching cycle may do to the database when it creates
    [created] pools. *)
Record commitEffect (db db' : Store.Db) (created : Z) : Prop := {
  ce_created : (0 <= created)%Z;
  ce_kept : forall (k : string) (pool : Store.Pool),
      Store.db_pools db !! k = Some pool -> Store.db_pools db' !! k = Some pool;
  ce_size : Z.of_nat (size (Store.db_pools db'))
            = (Z.of_nat (size (Store.db_pools db)) + created)%Z;
  ce_new : forall (k : string) (pool : Store.Pool),
      Store.db_pools db' !! k = Some pool -> Store.db_pools db !! k = None ->
      Store.pool_status pool = Store.forming
      /\ Store.version pool = 0%Z
      /\ (Store.max_seats pool, Store.max_luggage pool)
         = RidePooling.getVehicleCapacity (Store.vehicle_type pool);
  ce_rows : Forall2 rowStep (Store.db_passengers db) (Store.db_passengers db');
  ce_stops : Store.db_waypoints db `prefix_of` Store.db_waypoints db';
  ce_locks : Store.db_pool_locks db' = Store.db_pool_locks db;
  ce_clock : Store.clock db' = Store.clock db;
  ce_sleeps : Store.sleeps db' = Store.sleeps db
}.

Section CycleGuarantees.
Import Store Concurrency RidePooling.
Local Open Scope js_scope.

Lemma rowStep_refl (q : Passenger) : rowStep q q.
Proof. split; [reflexivity | left; reflexivity]. Qed.

Lemma rowStep_trans (q1 q2 q3 : Passenger) :
  rowStep q1 q2 -> rowStep q2 q3 -> rowStep q1 q3.
Proof.
  intros [I1 S1] [I2 S2]. split; [congruence |].
  destruct S2 as [-> | S2]; [exact S1 | right; exact S2].
Qed.

Lemma commitEffect_refl (db : Db) : commitEffect db db 0.
Proof.
  split; try reflexivity; try lia; auto.
  - intros k pool H1 H2. congruence.
  - apply Forall2_same_length_lookup. split; [reflexivity |].
    intros i q q' H1 H2. rewrite H1 in H2. injection H2 as <-.
    apply rowStep_refl.
Qed.

Lemma commitEffect_sameTables (db db' : Db) :
  sameTables db db' -> commitEffect db db' 0.
Proof.
  intros (A1 & A2 & A3 & A4 & A5 & A6).
  split; try lia; try assumption.
  - intros k pool H. rewrite A2. exact H.
  - rewrite A2. lia.
  - intros k pool H1 H2. rewrite A2 in H1. congruence.
  - rewrite A1. apply Forall2_same_length_lookup. split; [reflexivity |].
    intros i q q' H1 H2. rewrite H1 in H2. injection H2 as <-.
    apply rowStep_refl.
  - rewrite A3. reflexivity.
Qed.

Lemma commitEffect_trans (db1 db2 db3 : Db) (a b : Z) :
  commitEffect db1 db2 a -> commitEffect db2 db3 b ->
  commitEffect db1 db3 (a + b).
Proof.
  intros [A0 A1 A2 A3 A4 A5 A6 A7 A8] [B0 B1 B2 B3 B4 B5 B6 B7 B8].
  split; try congruence; try lia.
  - intros k pool H. apply B1, A1, H.
  - intros k pool H3 H1.
    destruct (db_pools db2 !! k) as [pool2 |] eqn:E2.
    + pose proof (B1 k pool2 E2) as H3'. rewrite H3 in H3'.
      injection H3' as ->. apply (A3 k pool2 E2 H1).
    + apply (B3 k pool H3 E2).
  - eapply Forall2_trans; [| exact A4 | exact B4].
    intros q1 q2 q3. apply rowStep_trans.
  - etransitivity; eassumption.
Qed.

Lemma updatePassengerWhere_rows (passengerId : string)
  (f : Passenger -> Passenger) (ps : list Passenger) :
  (forall q, id (f q) = id q /\ status (f q) = matched) ->
  Forall2 rowStep ps
    ((fun p => if bool_decide (id p = passengerId) then f p else p) <$> ps).
Proof.
  intros Hf. apply Forall2_fmap_r. apply Forall_Forall2_diag.
  apply Forall_forall. intros q _. unfold compose.
  case_bool_decide; [| apply rowStep_refl].
  destruct (Hf q) as [H1 H2]. split; [exact H1 | right; exact H2].
Qed.

Lemma markMatched_effect (poolId : string) (finalPrice : Q)
  (passengerId : string) (db : Db) :
  exists (r : D1Result) (db' : Db),
    markMatched poolId finalPrice passengerId db = (Returned r, db')
    /\ commitEffect db db' 0.
Proof.
  unfold markMatched, updatePassengerWhere. eexists _, _.
  split; [reflexivity |].
  split; cbn; try reflexivity; try lia; auto.
  - intros k pool H1 H2. congruence.
  - apply updatePassengerWhere_rows. intros q. split; reflexivity.
Qed.

Lemma updateMatchedPassengers_effect (poolId : string) (pricing : gmap string Q)
  (passengerIds : list string) :
  forall (matchedCount : Z) (db : Db),
    exists db' : Db,
      updateMatchedPassengers poolId pricing passengerIds matchedCount db
      = (Returned (matchedCount + Z.of_nat (length passengerIds))%Z, db')
      /\ commitEffect db db' 0.
Proof.
  induction passengerIds as [| pid rest IH]; intros matchedCount db.
  - exists db. split; [simpl; unfold ret; f_equal; f_equal; lia |].
    apply commitEffect_refl.
  - cbn [updateMatchedPassengers]. unfold bind.
    destruct (markMatched_effect poolId (default 0 (pricing !! pid)) pid db)
      as (r & db1 & -> & E1).
    destruct (IH (matchedCount + 1)%Z db1) as (db2 & -> & E2).
    exists db2. split.
    + f_equal. f_equal. rewrite length_cons. lia.
    + apply (commitEffect_trans _ _ _ 0 0 E1 E2).
Qed.

Lemma insertWaypoints_effect (poolId : string) (waypoints : list RoutePoint) :
  forall (i : nat) (db : Db),
    exists (o : Outcome unit) (db' : Db),
      insertWaypoints poolId i waypoints db = (o, db')
      /\ commitEffect db db' 0.
Proof.
  induction waypoints as [| wp rest IH]; intros i db.
  - exists (Returned tt), db. split; [reflexivity | apply commitEffect_refl].
  - cbn [insertWaypoints]. unfold bind, insertWaypoint.
    destruct (existsb _ (db_waypoints db)).
    + eexists _, db. split; [reflexivity | apply commitEffect_refl].
    + match goal with
      | |- context [insertWaypoints poolId (S i) rest ?d] =>
          destruct (IH (S i) d) as (o & db2 & -> & E2);
          assert (E1 : commitEffect db d 0)
      end.
      { split; cbn; try reflexivity; try lia; auto.
        - intros k pool H1 H2. congruence.
        - apply Forall2_same_length_lookup. split; [reflexivity |].
          intros j q q' H1 H2. rewrite H1 in H2. injection H2 as <-.
          apply rowStep_refl.
        - apply prefix_app_r. reflexivity. }
      exists o, db2. split; [reflexivity |].
      apply (commitEffect_trans _ _ _ 0 0 E1 E2).
Qed.

(** One proposal: either nothing is committed and the state is as it
    was, or one pool is created and every passenger the proposal names
    is counted as matched. *)
Lemma commitResult_effect (pendingPassengers : list Passenger)
  (counts : MatchSummary) (result : Matcher.MatchingResult) (db : Db) :
  exists (counts' : MatchSummary) (db' : Db),
    commitResult pendingPassengers counts result db = (Returned counts', db')
    /\ ((counts' = counts /\ db' = db)
        \/ (pools_created counts' = (pools_created counts + 1)%Z
            /\ matched_count counts'
               = (matched_count counts
                  + Z.of_nat (length (Matcher.mr_passengers result)))%Z
            /\ commitEffect db db' 1)).
Proof.
  unfold commitResult.
  destruct (Matcher.feasible result); cbn [negb];
    [| exists counts, db; split; [reflexivity | left; split; reflexivity]].
  unfold try_catch at 1. unfold bind at 1. unfold insertPool.
  destruct (db_pools db !! Matcher.mr_pool_id result) eqn:Hfree;
    [exists counts, db; split; [reflexivity | left; split; reflexivity] |].
  cbn [success negb]. unfold bind at 1.
  match goal with
  | |- context [updateMatchedPassengers ?a ?b ?c ?d ?e] =>
      destruct (updateMatchedPassengers_effect a b c d e) as (db2 & -> & E2);
      assert (E1 : commitEffect db e 1)
  end.
  { split; cbn; try reflexivity; try lia; auto.
    - intros k pool H. rewrite lookup_insert_ne; [exact H | congruence].
    - rewrite map_size_insert_None by exact Hfree. lia.
    - intros k pool H1 H2.
      destruct (decide (Matcher.mr_pool_id result = k)) as [Ek | N].
      + subst k. rewrite lookup_insert_eq in H1. injection H1 as <-. cbn.
        split; [reflexivity |]. split; [reflexivity |].
        destruct (getVehicleCapacity _); reflexivity.
      + rewrite lookup_insert_ne in H1 by exact N. congruence.
    - apply Forall2_same_length_lookup. split; [reflexivity |].
      intros j q q' H1 H2. rewrite H1 in H2. injection H2 as <-.
      apply rowStep_refl. }
  unfold try_catch, bind.
  destruct (insertWaypoints_effect (Matcher.mr_pool_id result)
              (RouteOptimizer.waypoints (Matcher.mr_route result)) 0 db2)
    as (o & db3 & -> & E3).
  pose proof (commitEffect_trans _ _ _ 1 0 E1
                (commitEffect_trans _ _ _ 0 0 E2 E3)) as E.
  destruct o as [[] | e]; eexists _, db3; (split; [reflexivity |]); right;
    cbn; (split; [reflexivity |]); (split; [reflexivity | exact E]).
Qed.

Lemma commitResults_effect (pendingPassengers : list Passenger)
  (results : list Matcher.MatchingResult) :
  forall (counts : MatchSummary) (db : Db),
    exists (counts' : MatchSummary) (db' : Db) (committed : Z),
      commitResults pendingPassengers counts results db
      = (Returned counts', db')
      /\ pools_created counts' = (pools_created counts + committed)%Z
      /\ commitEffect db db' committed
      /\ (matched_count counts
          <= matched_count counts'
          <= matched_count counts + Z.of_nat (length (proposedIds results)))%Z
      /\ (Forall (fun r => Matcher.mr_passengers r <> []) results ->
          (matched_count counts + committed <= matched_count counts')%Z).
Proof.
  induction results as [| result rest IH]; intros counts db.
  - exists counts, db, 0%Z. split; [reflexivity |].
    split; [lia |]. split; [apply commitEffect_refl |].
    split; [simpl; lia | intros _; lia].
  - cbn [commitResults]. unfold bind.
    destruct (commitResult_effect pendingPassengers counts result db)
      as (counts1 & db1 & -> & Hcase).
    destruct (IH counts1 db1)
      as (counts2 & db2 & committed & -> & Hpools & Heff & Hmatched & Hnonempty).
    assert (Hlen : length (proposedIds (result :: rest))
                   = (length (Matcher.mr_passengers result)
                      + length (proposedIds rest))%nat).
    { unfold proposedIds. rewrite fmap_cons. simpl. apply length_app. }
    destruct Hcase as [[-> ->] | (Hp1 & Hm1 & Heff1)].
    + exists counts2, db2, committed. split; [reflexivity |].
      split; [exact Hpools |]. split; [exact Heff |].
      split; [lia |].
      intros Hall. apply Forall_cons in Hall as [_ Hall].
      apply Hnonempty, Hall.
    + exists counts2, db2, (1 + committed)%Z. split; [reflexivity |].
      split; [lia |].
      split; [apply (commitEffect_trans _ _ _ 1 committed Heff1 Heff) |].
      split; [lia |].
      intros Hall. apply Forall_cons in Hall as [Hne Hall].
      specialize (Hnonempty Hall).
      destruct (Matcher.mr_passengers result); [contradiction | simpl in *; lia].
Qed.


Lemma filter_submseteq {A : Type} (f : A -> bool) (l : list A) :
  List.filter f l ⊆+ l.
Proof.
  induction l as [| x l IH]; [reflexivity |].
  simpl. destruct (f x).
  - apply submseteq_skip. exact IH.
  - apply submseteq_cons. exact IH.
Qed.

Lemma selectPendingPassengers_spec (db : Db) :
  exists selected : list Passenger,
    selectPendingPassengers db = (Returned selected, db)
    /\ (length selected <= 100)%nat
    /\ selected ⊆+ db_passengers db
    /\ (forall p : Passenger, p ∈ selected -> status p = pending)
    /\ StronglySorted olderOrSame selected
    /\ (forall p q : Passenger,
          p ∈ selected -> q ∈ db_passengers db -> status q = pending ->
          q ∉ selected -> olderOrSame p q)
    /\ ((length (List.filter Matcher.isPending (db_passengers db)) <= 100)%nat ->
        selected ≡ₚ List.filter Matcher.isPending (db_passengers db)).
Proof.
  unfold selectPendingPassengers.
  set (pendingRows := List.filter Matcher.isPending (db_passengers db)).
  destruct (sortByRequestTime_spec pendingRows) as [Hperm Hsorted].
  destruct (StronglySorted_take_drop _ 100 Hsorted) as [Htake Hcross].
  eexists. split; [reflexivity |].
  split; [rewrite length_take; lia |].
  split.
  { etransitivity; [apply submseteq_take |].
    rewrite Hperm. apply filter_submseteq. }
  split.
  { intros p Hp. apply (subseteq_take 100) in Hp. rewrite Hperm in Hp.
    apply list_elem_of_In, filter_In in Hp as [_ Hp].
    unfold Matcher.isPending in Hp. destruct (status p); try discriminate Hp.
    reflexivity. }
  split; [exact Htake |].
  split.
  { intros p q Hp Hq Hpend Hout. apply Hcross; [exact Hp |].
    assert (Hin : q ∈ Matcher.sortByRequestTime pendingRows).
    { rewrite Hperm. apply list_elem_of_In, filter_In.
      split; [apply list_elem_of_In; exact Hq |].
      unfold Matcher.isPending. rewrite Hpend. reflexivity. }
    rewrite <- (take_drop 100) in Hin.
    apply elem_of_app in Hin as [Hin | Hin]; [contradiction | exact Hin]. }
  intros Hfew. rewrite take_ge; [exact Hperm |].
  rewrite Hperm. exact Hfew.
Qed.

(** X23.  The query of the matching cycle, [ORDER BY requested_at ASC LIMIT
    100] over the pending rows: it changes nothing and returns at most
    100 rows, all pending rows of the table and none twice, oldest
    first; a pending row that was left out is not older than any row
    returned; with at most 100 pending rows all of them are returned. *)
Theorem selectPendingPassengers_takes_the_oldest (db : Db) :
  exists selected : list Passenger,
    selectPendingPassengers db = (Returned selected, db)
    /\ (length selected <= 100)%nat
    /\ selected ⊆+ db_passengers db
    /\ (forall p : Passenger, p ∈ selected -> status p = pending)
    /\ StronglySorted olderOrSame selected
    /\ (forall p q : Passenger,
          p ∈ selected -> q ∈ db_passengers db -> status q = pending ->
          q ∉ selected -> olderOrSame p q)
    /\ ((length (List.filter Matcher.isPending (db_passengers db)) <= 100)%nat ->
        selected ≡ₚ List.filter Matcher.isPending (db_passengers db)).
Proof. apply selectPendingPassengers_spec. Qed.

Section WithGeometry.

Variable haversineDistance : Location -> Location -> Q.
Variable calculateBearing : Location -> Location -> Q.

Lemma matchPendingPassengers_outcome (db : Db) :
  exists (summary : MatchSummary) (db' : Db),
    matchPendingPassengers haversineDistance calculateBearing db
    = (Returned summary, db')
    /\ commitEffect db db' (pools_created summary)
    /\ (pools_created summary <= matched_count summary <= 100)%Z
    /\ (List.filter Matcher.isPending (db_passengers db) = [] ->
        summary = {| matched_count := 0; pools_created := 0 |} /\ db' = db).
Proof.
  unfold matchPendingPassengers. unfold bind at 1. unfold Date_now at 1.
  unfold bind at 1.
  destruct (selectPendingPassengers_spec db)
    as (selected & -> & Hlen & _ & _ & _ & _ & Hfew).
  destruct selected as [| p0 rest] eqn:S.
  { exists {| matched_count := 0; pools_created := 0 |}, db.
    split; [reflexivity |]. split; [apply commitEffect_refl |].
    split; [simpl; lia | auto]. }
  rewrite <- S in *. unfold bind at 1. unfold selectFormingPools at 1.
  unfold bind at 1.
  match goal with
  | |- context [Matcher.matchPassengersToPool _ _ _ ?pools _ db] =>
      destruct (matchPassengersToPool_outcome haversineDistance
                  calculateBearing Matcher.DEFAULT_CONFIG selected pools db)
        as (rs & db1 & -> & Hsame & Hnd & Hids & Hall)
  end.
  destruct (commitResults_effect selected rs
              {| matched_count := 0; pools_created := 0 |} db1)
    as (counts & db2 & committed & -> & Hpools & Heff & Hmatched & Hnonempty).
  cbn [matched_count pools_created] in Hpools, Hmatched, Hnonempty.
  exists counts, db2. split; [reflexivity |].
  split.
  { rewrite Hpools.
    apply (commitEffect_trans db db1 db2 0 committed);
      [apply commitEffect_sameTables; exact Hsame | exact Heff]. }
  split.
  - assert (Hbound : (length (proposedIds rs) <= length selected)%nat).
    { rewrite <- (length_fmap id selected). apply submseteq_length.
      apply NoDup_submseteq; [exact Hnd |].
      intros pid Hpid. destruct (Hids pid Hpid) as (p & Hp & <- & _).
      apply list_elem_of_fmap. exists p. split; [reflexivity | exact Hp]. }
    assert (Hne : Forall (fun r => Matcher.mr_passengers r <> []) rs).
    { eapply Forall_impl; [exact Hall |].
      intros r [(ps & Hfor & _) _].
      rewrite (pf_passengers _ _ _ Hfor).
      pose proof (pf_nonempty _ _ _ Hfor) as Hps.
      destruct ps; [contradiction | discriminate]. }
    specialize (Hnonempty Hne). lia.
  - intros Hnone. exfalso. rewrite Hnone in Hfew.
    assert (Hempty : selected ≡ₚ []) by (apply Hfew; simpl; lia).
    apply Permutation_nil_r in Hempty. congruence.
Qed.

(** X24.  A matching cycle always returns its two counters (it never throws).
    It creates exactly [pools_created] pools, all in state forming at
    version 0 with the capacity of their vehicle class, and leaves every
    pool that existed as it was; passenger rows are neither added nor
    removed, and a row is either unchanged or marked matched; waypoints
    are only appended; the lock table, the clock and the sleep log are
    untouched (the cycle takes no lease).  At least one passenger is
    counted per pool created and at most 100 per cycle.  With no
    pending passenger the cycle returns (0, 0) and changes nothing. *)
Theorem matchPendingPassengers_creates_what_it_counts (db : Db) :
  exists (summary : MatchSummary) (db' : Db),
    matchPendingPassengers haversineDistance calculateBearing db
    = (Returned summary, db')
    /\ commitEffect db db' (pools_created summary)
    /\ (pools_created summary <= matched_count summary <= 100)%Z
    /\ (List.filter Matcher.isPending (db_passengers db) = [] ->
        summary = {| matched_count := 0; pools_created := 0 |} /\ db' = db).
Proof. apply matchPendingPassengers_outcome. Qed.

End WithGeometry.

End CycleGuarantees.

(** ** The dispatch service: cancellation *)

(** The passenger row after [UPDATE passengers SET status = 'cancelled',
    cancelled_at = CURRENT_TIMESTAMP, cancellation_reason = ?
    (, pool_id = NULL)]. *)
Definition cancelledRow (reasonText : string) (clearPool : bool) (now : Z)
  (p : Passenger) : Passenger :=
  {| id := id p; user_id := user_id p;
     pickup_lat := pickup_lat p; pickup_lng := pickup_lng p;
     dropoff_lat := dropoff_lat p; dropoff_lng := dropoff_lng p;
     luggage_count := luggage_count p; seats_required := seats_required p;
     max_detour_minutes := max_detour_minutes p;
     detour_tolerance := detour_tolerance p;
     status := cancelled;
     pool_id := if clearPool then None else pool_id p;
     requested_at := requested_at p;
     matched_at := matched_at p; cancelled_at := Some now;
     cancellation_reason := Some reasonText;
     base_price := base_price p; final_price := final_price p;
     surge_multiplier := surge_multiplier p |}.

(** [reason || 'User cancelled'] *)
Definition reasonOrDefault (reason : option string) : string :=
  match reason with
  | Some r => if bool_decide (r = "") then "User cancelled" else r
  | None => "User cancelled"
  end.

(** The pool row after [UPDATE pools SET current_seats = current_seats - ?,
    current_luggage = current_luggage - ?, version = version + 1]. *)
Definition unloadedPool (seats luggage : Z) (pool : Store.Pool) : Store.Pool :=
  {| Store.pool_ident := Store.pool_ident pool;
     Store.driver_id := Store.driver_id pool;
     Store.vehicle_type := Store.vehicle_type pool;
     Store.max_seats := Store.max_seats pool;
     Store.max_luggage := Store.max_luggage pool;
     Store.current_seats := (Store.current_seats pool - seats)%Z;
     Store.current_luggage := (Store.current_luggage pool - luggage)%Z;
     Store.pool_status := Store.pool_status pool;
     Store.pool_total_distance := Store.pool_total_distance pool;
     Store.optimized_route := Store.optimized_route pool;
     Store.created_at := Store.created_at pool;
     Store.version := (Store.version pool + 1)%Z |}.

(** A rider matched into [poolOne]. *)
Definition pooledRider : Passenger :=
  {| id := "rider_p"; user_id := "user_p";
     pickup_lat := 40.6413; pickup_lng := -73.78;
     dropoff_lat := 40.7580; dropoff_lng := -73.78;
     luggage_count := 1; seats_required := 1;
     max_detour_minutes := 15; detour_tolerance := 1.5;
     status := matched; pool_id := Some "pool_1"; requested_at := 1000;
     matched_at := Some 1500%Z; cancelled_at := None;
     cancellation_reason := None; base_price := Some 20;
     final_price := Some 17; surge_multiplier := 1 |}.

Definition dbWithPooledRider : Store.Db :=
  Store.with_passengers (fun _ => [pooledRider]) dbWithPoolOne.

Section CancellationGuarantees.
Import Store Concurrency RidePooling.
Local Open Scope js_scope.

Lemma withPoolLock_runs_operation {T : Type} (poolId lockerId : string)
  (operation : M T) (options : LockOptions) (db : Db) :
  (1 <= opt_maxRetries options)%Z ->
  withPoolLock poolId lockerId operation options db
  = (match (operation (acquirePoolLock poolId lockerId options db).2).1 with
     | Returned value => Returned (Some value)
     | Thrown error => Thrown error
     end,
     (releasePoolLock poolId lockerId
        (operation (acquirePoolLock poolId lockerId options db).2).2).2).
Proof.
  intros Hretries.
  destruct (acquirePoolLock_always_grants poolId lockerId options db)
    as (handle & db1 & Hacq).
  unfold withPoolLock, withPoolLockVia.
  destruct (Z.to_nat (opt_maxRetries options)) as [| n] eqn:N; [lia |].
  cbn [acquireWithRetries]. unfold bind at 1. unfold bind at 1.
  rewrite Hacq. cbn [ret snd].
  unfold try_finally, try_catch, bind, throw, ret.
  destruct (operation db1) as [[value | error] db2]; simpl;
    destruct (releasePoolLock_spec poolId lockerId db2)
      as (db3 & -> & _); reflexivity.
Qed.

Lemma filter_filter_and {A : Type} (f g : A -> bool) (l : list A) :
  List.filter g (List.filter f l) = List.filter (fun x => f x && g x) l.
Proof.
  induction l as [| x l IH]; [reflexivity |].
  simpl. destruct (f x); simpl; [destruct (g x) |]; rewrite IH; reflexivity.
Qed.

Lemma acquirePoolLock_state (poolId lockerId : string)
  (options : LockOptions) (db : Db) :
  let db1 := (acquirePoolLock poolId lockerId options db).2 in
  db_passengers db1 = db_passengers db
  /\ db_pools db1 = db_pools db
  /\ db_waypoints db1 = db_waypoints db
  /\ clock db1 = clock db
  /\ sleeps db1 = sleeps db
  /\ db_pool_locks db1
     = match db_pool_locks db !! poolId with
       | Some _ => db_pool_locks db
       | None =>
           <[poolId := {| locked_by := lockerId; locked_at := clock db;
                          expires_at :=
                            (clock db + opt_ttlSeconds options * 1000)%Z;
                          lock_version := 1 |}]> (db_pool_locks db)
       end.
Proof.
  unfold acquirePoolLock, bind, try_catch, Date_now, randomSuffix,
    insertLockOrIgnore, ret. simpl.
  destruct (db_pool_locks db !! poolId); simpl; auto 10.
Qed.

Lemma releasePoolLock_state (poolId lockerId : string) (db : Db) :
  let db2 := (releasePoolLock poolId lockerId db).2 in
  db_passengers db2 = db_passengers db
  /\ db_pools db2 = db_pools db
  /\ db_waypoints db2 = db_waypoints db
  /\ clock db2 = clock db
  /\ sleeps db2 = sleeps db
  /\ db_pool_locks db2
     = match db_pool_locks db !! poolId with
       | Some l =>
           if bool_decide (locked_by l = lockerId)
           then delete poolId (db_pool_locks db)
           else db_pool_locks db
       | None => db_pool_locks db
       end.
Proof.
  unfold releasePoolLock, try_catch, bind, deleteLock, ret.
  destruct (db_pool_locks db !! poolId) as [l |]; [| simpl; auto 10].
  destruct (bool_decide (locked_by l = lockerId)); simpl; auto 10.
Qed.

(** X25.  Cancelling an unknown passenger is refused as a value, and nothing
    changes. *)
Theorem cancel_of_unknown_passenger_is_refused
  (db : Db) (passengerId : string) (reason : option string) :
  (forall p : Passenger, p ∈ db_passengers db -> id p <> passengerId) ->
  exists db' : Db,
    cancelRideRequest passengerId reason db
    = (Returned {| cancel_success := false; refund_amount := None |}, db')
    /\ sameTables db db'.
Proof.
  intros Hnone.
  assert (Hfind : List.find (fun q => bool_decide (id q = passengerId))
                    (db_passengers db) = None).
  { destruct (List.find _ (db_passengers db)) as [p |] eqn:F; [| reflexivity].
    apply find_some in F as [Hin Hid].
    apply bool_decide_eq_true in Hid.
    destruct (Hnone p (proj2 (list_elem_of_In _ _) Hin) Hid). }
  unfold cancelRideRequest, generateRequestId, selectPassenger, bind,
    Date_now, randomSuffix, ret.
  cbn [db_passengers]. rewrite Hfind.
  eexists. split; [reflexivity |]. repeat split.
Qed.

Lemma cancel_of_unknown_passenger_is_refused_witness :
  exists db' : Db,
    cancelRideRequest "nobody" None dbWithPooledRider
    = (Returned {| cancel_success := false; refund_amount := None |}, db')
    /\ db_passengers db' = [pooledRider].
Proof.
  destruct (cancel_of_unknown_passenger_is_refused dbWithPooledRider "nobody"
              None) as (db' & Hrun & Hps & _).
  - intros p Hp. apply list_elem_of_singleton in Hp. subst p. discriminate.
  - exists db'. split; [exact Hrun | exact Hps].
Defined.

(** X26.  Cancelling a passenger who is pending, or who has no pool, marks
    every row with that id cancelled, with the current time and the
    reason (or "User cancelled"), keeps the row's [pool_id], and touches
    neither a pool, nor a waypoint, nor a lease. *)
Theorem cancel_of_unpooled_passenger_marks_the_row
  (db : Db) (passengerId : string) (reason : option string) (p : Passenger) :
  List.find (fun q => bool_decide (id q = passengerId)) (db_passengers db)
  = Some p ->
  status p <> cancelled -> status p <> completed ->
  falsyPoolId (pool_id p) = true \/ status p = pending ->
  exists db' : Db,
    cancelRideRequest passengerId reason db
    = (Returned {| cancel_success := true; refund_amount := None |}, db')
    /\ db_passengers db'
       = (fun q =>
            if bool_decide (id q = passengerId)
            then cancelledRow (reasonOrDefault reason) false (clock db) q
            else q) <$> db_passengers db
    /\ db_pools db' = db_pools db
    /\ db_waypoints db' = db_waypoints db
    /\ db_pool_locks db' = db_pool_locks db
    /\ clock db' = clock db
    /\ sleeps db' = sleeps db.
Proof.
  intros Hrow Hc1 Hc2 Hsolo.
  unfold cancelRideRequest, generateRequestId, selectPassenger, bind,
    Date_now, randomSuffix, ret.
  cbn [db_passengers]. rewrite Hrow.
  assert (Hguard : falsyPoolId (pool_id p)
                   || match status p with pending => true | _ => false end
                   = true).
  { destruct Hsolo as [H | H]; [rewrite H; reflexivity |].
    rewrite H. apply orb_true_r. }
  destruct (status p) eqn:St; try contradiction;
    rewrite Hguard; eexists; (split; [reflexivity |]); simpl; auto 10.
Qed.

Lemma cancel_of_unpooled_passenger_marks_the_row_witness :
  exists db' : Db,
    cancelRideRequest "A" None (dbOf [riderA])
    = (Returned {| cancel_success := true; refund_amount := None |}, db')
    /\ (status <$> db_passengers db') = [cancelled].
Proof.
  destruct (cancel_of_unpooled_passenger_marks_the_row (dbOf [riderA]) "A"
              None riderA eq_refl)
    as (db' & Hrun & Hps & _).
  - discriminate.
  - discriminate.
  - left. reflexivity.
  - exists db'. split; [exact Hrun |]. rewrite Hps. reflexivity.
Defined.

(** X27.  Cancelling a passenger who sits in a pool: the call succeeds; every
    row with that id is marked cancelled with [pool_id] cleared; the
    pool loses the passenger's seats and luggage and its version grows
    by one, or, when no seat is left in use, the pool is deleted with
    its waypoints; the passenger's waypoints are deleted; other pools
    are untouched; no retry pause is slept; and the lock table is as
    before unless the request's own id already held the lease.  The
    outcome does not depend on whether another holder has a live lease
    on the pool. *)
Theorem cancel_of_pooled_passenger_unloads_the_pool
  (db : Db) (passengerId : string) (reason : option string) (p : Passenger)
  (poolId : string) :
  List.find (fun q => bool_decide (id q = passengerId)) (db_passengers db)
  = Some p ->
  status p = matched \/ status p = in_transit ->
  pool_id p = Some poolId -> poolId <> "" ->
  let requestId :=
    "req_" +:+ pretty (clock db) +:+ "_" +:+ pretty (entropy db) in
  let emptied :=
    match db_pools db !! poolId with
    | Some pool => (current_seats pool - seats_required p <=? 0)%Z
    | None => false
    end in
  exists db' : Db,
    cancelRideRequest passengerId reason db
    = (Returned {| cancel_success := true; refund_amount := None |}, db')
    /\ db_passengers db'
       = (fun q =>
            if bool_decide (id q = passengerId)
            then cancelledRow (reasonOrDefault reason) true (clock db) q
            else q) <$> db_passengers db
    /\ db_pools db' !! poolId
       = (if emptied then None
          else unloadedPool (seats_required p) (luggage_count p)
                 <$> db_pools db !! poolId)
    /\ (forall other : string,
          other <> poolId -> db_pools db' !! other = db_pools db !! other)
    /\ db_waypoints db'
       = List.filter
           (fun w => negb (bool_decide (wp_passenger_id w = passengerId))
                     && negb (emptied && bool_decide (wp_pool_id w = poolId)))
           (db_waypoints db)
    /\ ((forall l, db_pool_locks db !! poolId = Some l ->
                   locked_by l <> requestId) ->
        db_pool_locks db' = db_pool_locks db)
    /\ clock db' = clock db
    /\ sleeps db' = sleeps db.
Proof.
  intros Hrow Hstatus Hpool Hnonempty requestId emptied.
  set (db0 := (generateRequestId db).2).
  assert (Hgen : generateRequestId db = (Returned requestId, db0))
    by reflexivity.
  unfold cancelRideRequest. unfold bind at 1. rewrite Hgen.
  unfold bind at 1. unfold selectPassenger at 1.
  change (db_passengers db0) with (db_passengers db). rewrite Hrow.
  assert (Hguard : falsyPoolId (pool_id p)
                   || match status p with pending => true | _ => false end
                   = false).
  { rewrite Hpool. cbn [falsyPoolId].
    rewrite bool_decide_eq_false_2 by exact Hnonempty.
    destruct Hstatus as [-> | ->]; reflexivity. }
  assert (Hbody : forall (A : Type) (a b : A),
             match status p with
             | completed | cancelled => a
             | _ => b
             end = b).
  { intros A a b. destruct Hstatus as [-> | ->]; reflexivity. }
  rewrite Hbody, Hguard, Hpool. cbn [default].
  unfold bind at 1.
  rewrite withPoolLock_runs_operation by (vm_compute; discriminate).
  destruct (acquirePoolLock_state poolId requestId noOptions db0)
    as (A1 & A2 & A3 & A4 & A5 & A6).
  change (db_passengers db0) with (db_passengers db) in A1.
  change (db_pools db0) with (db_pools db) in A2.
  change (db_waypoints db0) with (db_waypoints db) in A3.
  change (clock db0) with (clock db) in A4, A6.
  change (sleeps db0) with (sleeps db) in A5.
  change (db_pool_locks db0) with (db_pool_locks db) in A6.
  unfold Datatypes.id.
  set (db1 := (acquirePoolLock poolId requestId noOptions db0).2) in *.
  clearbody db1. fold (reasonOrDefault reason).
  match goal with
  | |- context [(?f db1).1] => set (operation := f)
  end.
  assert (Hop : exists db4 : Db,
    operation db1
    = (Returned {| cancel_success := true; refund_amount := None |}, db4)
    /\ db_passengers db4
       = (fun q =>
            if bool_decide (id q = passengerId)
            then cancelledRow (reasonOrDefault reason) true (clock db) q
            else q) <$> db_passengers db
    /\ db_pools db4 !! poolId
       = (if emptied then None
          else unloadedPool (seats_required p) (luggage_count p)
                 <$> db_pools db !! poolId)
    /\ (forall other : string,
          other <> poolId -> db_pools db4 !! other = db_pools db !! other)
    /\ db_waypoints db4
       = List.filter
           (fun w => negb (bool_decide (wp_passenger_id w = passengerId))
                     && negb (emptied && bool_decide (wp_pool_id w = poolId)))
           (db_waypoints db)
    /\ db_pool_locks db4 = db_pool_locks db1
    /\ clock db4 = clock db
    /\ sleeps db4 = sleeps db).
  { unfold operation, bind, markCancelled, updatePassengerWhere,
      decrementPoolLoad, deleteWaypointsOf, selectCurrentSeats, deletePool,
      ret.
    cbn [db_pools with_pools with_passengers with_waypoints db_passengers
         db_waypoints db_pool_locks clock sleeps entropy].
    rewrite lookup_alter_eq, A2, A4. unfold emptied.
    destruct (db_pools db !! poolId) as [pool |] eqn:P.
    - cbn [fmap option_fmap option_map current_seats].
      destruct (current_seats pool - seats_required p <=? 0)%Z eqn:Hempty.
      + eexists. split; [reflexivity |].
        cbn [db_pools with_pools with_passengers with_waypoints db_passengers
             db_waypoints db_pool_locks clock sleeps entropy].
        rewrite ?A1, ?A2, ?A3, ?A4, ?A5.
        split; [reflexivity |].
        split; [apply lookup_delete_eq |].
        split.
        { intros other Hother.
          rewrite lookup_delete_ne, lookup_alter_ne by congruence.
          reflexivity. }
        split; [| auto].
        rewrite filter_filter_and. apply List.filter_ext.
        intros w. reflexivity.
      + eexists. split; [reflexivity |].
        cbn [db_pools with_pools with_passengers with_waypoints db_passengers
             db_waypoints db_pool_locks clock sleeps entropy].
        rewrite ?A1, ?A2, ?A3, ?A4, ?A5.
        split; [reflexivity |].
        split; [rewrite lookup_alter_eq, P; reflexivity |].
        split.
        { intros other Hother. rewrite lookup_alter_ne by congruence.
          reflexivity. }
        split; [| auto].
        apply List.filter_ext. intros w. cbn [andb negb].
        rewrite andb_true_r. reflexivity.
    - cbn [fmap option_fmap option_map].
      eexists. split; [reflexivity |].
      cbn [db_pools with_pools with_passengers with_waypoints db_passengers
           db_waypoints db_pool_locks clock sleeps entropy].
      rewrite ?A1, ?A2, ?A3, ?A4, ?A5.
      split; [reflexivity |].
      split; [rewrite lookup_alter_eq, P; reflexivity |].
      split.
      { intros other Hother. rewrite lookup_alter_ne by congruence.
        reflexivity. }
      split; [| auto].
      apply List.filter_ext. intros w. cbn [andb negb].
      rewrite andb_true_r. reflexivity. }
  destruct Hop as (db4 & Hrun & O1 & O2 & O3 & O4 & O5 & O6 & O7).
  rewrite Hrun. cbn [fst snd default ret].
  destruct (releasePoolLock_state poolId requestId db4)
    as (R1 & R2 & R3 & R4 & R5 & R6).
  eexists. split; [reflexivity |].
  rewrite R1, R2, R3, R4, R5, R6.
  split; [exact O1 |]. split; [exact O2 |]. split; [exact O3 |].
  split; [exact O4 |]. split; [| split; [exact O6 | exact O7]].
  intros Hforeign. rewrite O5, A6.
  destruct (db_pool_locks db !! poolId) as [l |] eqn:L.
  - rewrite L. rewrite bool_decide_eq_false_2 by (apply Hforeign; reflexivity).
    reflexivity.
  - rewrite lookup_insert_eq. cbn [locked_by].
    rewrite bool_decide_eq_true_2 by reflexivity.
    rewrite delete_insert_eq. apply delete_id. exact L.
Qed.

Lemma cancel_of_pooled_passenger_unloads_the_pool_witness :
  exists db' : Db,
    cancelRideRequest "rider_p" None dbWithPooledRider
    = (Returned {| cancel_success := true; refund_amount := None |}, db')
    /\ (current_seats <$> db_pools db' !! "pool_1") = Some 1%Z
    /\ (version <$> db_pools db' !! "pool_1") = Some 5%Z.
Proof.
  destruct (cancel_of_pooled_passenger_unloads_the_pool dbWithPooledRider
              "rider_p" None pooledRider "pool_1" eq_refl
              (or_introl eq_refl) eq_refl)
    as (db' & Hrun & _ & Hpool & _).
  - discriminate.
  - exists db'. split; [exact Hrun |]. rewrite Hpool.
    split; vm_compute; reflexivity.
Defined.

End CancellationGuarantees.

(** ** Matching: direction and score *)

Section DirectionAndScore.
Import Store Matcher.
Local Open Scope js_scope.

Variable calculateBearing : Location -> Location -> Q.

(** X28.  The direction test does not depend on which of the two trips comes
    first. *)
Theorem isSimilarDirection_symmetric
  (loc1Start loc1End loc2Start loc2End : Location) (thresholdDegrees : Q) :
  isSimilarDirection calculateBearing loc1Start loc1End loc2Start loc2End
    thresholdDegrees
  = isSimilarDirection calculateBearing loc2Start loc2End loc1Start loc1End
      thresholdDegrees.
Proof.
  unfold isSimilarDirection.
  rewrite (Qabs_Qminus (calculateBearing loc1Start loc1End)
             (calculateBearing loc2Start loc2End)).
  reflexivity.
Qed.

(** X29.  For a pool with room for at least one seat, a load between 0 and
    its capacity and a creation time that is not in the future, the
    match score is [100 - 20 * current_seats / max_seats
    - min(2 * age in minutes, 30)]: it lies between 50 and 100, and the
    final clamp at 0 never acts.  The call changes nothing. *)
Theorem calculateMatchScore_of_valid_pool
  (passenger : Passenger) (pool : Pool) (db : Db) :
  (0 < max_seats pool)%Z ->
  (0 <= current_seats pool <= max_seats pool)%Z ->
  (created_at pool <= clock db)%Z ->
  exists score : Q,
    calculateMatchScore passenger pool db = (Returned score, db)
    /\ score
       == 100
          - inject_Z (current_seats pool) / inject_Z (max_seats pool) * 20
          - Qmin (inject_Z (clock db - created_at pool) / 60000 * 2) 30
    /\ 50 <= score /\ score <= 100.
Proof.
  intros Hmax [Hlo Hhi] Hage.
  unfold calculateMatchScore, bind, Date_now, ret.
  eexists. split; [reflexivity |].
  assert (Hm : 0 < inject_Z (max_seats pool)).
  { change 0 with (inject_Z 0). rewrite <- Zlt_Qlt. exact Hmax. }
  assert (Hr0 : 0 <= inject_Z (current_seats pool) / inject_Z (max_seats pool)).
  { apply Qle_shift_div_l; [exact Hm |]. rewrite Qmult_0_l.
    change 0 with (inject_Z 0). rewrite <- Zle_Qle. exact Hlo. }
  assert (Hr1 : inject_Z (current_seats pool) / inject_Z (max_seats pool) <= 1).
  { apply Qle_shift_div_r; [exact Hm |]. rewrite Qmult_1_l.
    rewrite <- Zle_Qle. exact Hhi. }
  assert (Ha : 0 <= inject_Z (clock db - created_at pool) / 60000 * 2).
  { assert (H0 : 0 <= inject_Z (clock db - created_at pool)).
    { change 0 with (inject_Z 0). rewrite <- Zle_Qle. lia. }
    assert (E : inject_Z (clock db - created_at pool) / 60000 * 2
                == inject_Z (clock db - created_at pool) * (2 # 60000))
      by (unfold Qdiv; change (/ 60000) with (1 # 60000); ring).
    rewrite E. nra. }
  set (ratio := inject_Z (current_seats pool) / inject_Z (max_seats pool)) in *.
  set (age := inject_Z (clock db - created_at pool) / 60000 * 2) in *.
  clearbody ratio age. minmax_lra.
Qed.

Lemma calculateMatchScore_of_valid_pool_witness :
  exists score : Q,
    calculateMatchScore pooledRider poolOne dbWithPoolOne
    = (Returned score, dbWithPoolOne)
    /\ 50 <= score.
Proof.
  destruct (calculateMatchScore_of_valid_pool pooledRider poolOne
              dbWithPoolOne) as (score & Hrun & _ & Hlo & _).
  - reflexivity.
  - split; discriminate.
  - discriminate.
  - exists score. split; [exact Hrun | exact Hlo].
Defined.

End DirectionAndScore.
